(** * Rapid editor core: entities, tag merging, validation, background tiles

    A shallow embedding of the parts of the Rapid sources that the
    specification makes claims about, and of the code around them:

    - [JsString]: JavaScript strings as sequences of UTF-16 code units, with
      the string and array helpers used by [mergeTags];
    - [Entity]: [modules/osm/entity.js], over an explicit object store;
    - [Crossing]: the test harness of the ambiguous-crossing validator;
    - [Streets]: the tile cache of [HudhudStreetsService];
    - [Extract]: [operationExtract];
    - [EntityIds], [Deprecated]: the ids, the copies and the deprecated
      tags of [modules/osm/entity.js];
    - [StreetsSession]: [resetAsync] and the sessions of the service;
    - [ExtractSelection]: the entities [operationExtract] builds actions
      for;
    - [DataLoader]: [modules/core/DataLoaderSystem.js];
    - [Background]: the base layer and the overlays of
      [rendererBackground]. *)

From stdpp Require Import gmap strings list fin_maps pretty.
From Stdlib Require Import ZArith NArith Lia.

(** ** JavaScript strings *)

Module JsString.

(** A JavaScript string is a sequence of 16-bit code units. *)
Abbreviation jsstring := (list N).

(** An ASCII literal as a JavaScript string. *)
Definition lit (s : string) : jsstring :=
  map Ascii.N_of_ascii (String.list_ascii_of_string s).

Definition isHighSurrogate (c : N) : bool := ((0xD800 <=? c) && (c <=? 0xDBFF))%N.
Definition isLowSurrogate (c : N) : bool := ((0xDC00 <=? c) && (c <=? 0xDFFF))%N.

(** [Array.from(str)]: the string iterator yields one element per code
    point; a high surrogate followed by a low surrogate is one element, any
    other code unit (a lone surrogate too) stands alone. *)
Fixpoint codePoints (s : jsstring) : list jsstring :=
  match s with
  | [] => []
  | c :: rest =>
      match rest with
      | d :: rest' =>
          if isHighSurrogate c && isLowSurrogate d
          then [c; d] :: codePoints rest'
          else [c] :: codePoints rest
      | [] => [[c]]
      end
  end.

(** [utilUnicodeCharsCount] of @rapid-sdk/util: [Array.from(str).length]. *)
Definition utilUnicodeCharsCount (s : jsstring) : nat := length (codePoints s).

(** [utilUnicodeCharsTruncated] of @rapid-sdk/util:
    [Array.from(str).slice(0, limit).join('')]. *)
Definition utilUnicodeCharsTruncated (s : jsstring) (limit : nat) : jsstring :=
  concat (take limit (codePoints s)).

(** The number of bytes of the UTF-8 encoding of one code point, given as
    the element [Array.from] yields for it. *)
Definition utf8Length (cp : jsstring) : nat :=
  match cp with
  | [c] => if (c <? 0x80)%N then 1 else if (c <? 0x800)%N then 2 else 3
  | _ => 4
  end.

Definition utf8Bytes (s : jsstring) : nat :=
  foldr (λ cp n, utf8Length cp + n) 0 (codePoints s).

(** The characters matched by [\s] in a regular expression. *)
Definition isWhiteSpace (c : N) : bool :=
  bool_decide (c ∈ [0x09; 0x0A; 0x0B; 0x0C; 0x0D; 0x20; 0xA0; 0x1680;
                    0x2028; 0x2029; 0x202F; 0x205F; 0x3000; 0xFEFF]%N)
  || ((0x2000 <=? c) && (c <=? 0x200A))%N.

Definition semicolon : N := 0x3B%N.

(** [str.split(/;\s*/)]: a piece ends at each [;], and the white space that
    follows the [;] belongs to the separator.  [skipping] holds while the
    scan is inside that white space, [cur] is the piece read so far. *)
Fixpoint splitFrom (skipping : bool) (cur : jsstring) (s : jsstring) : list jsstring :=
  match s with
  | [] => [cur]
  | c :: rest =>
      if skipping && isWhiteSpace c then splitFrom true cur rest
      else if (c =? semicolon)%N then cur :: splitFrom true [] rest
      else splitFrom false (cur ++ [c]) rest
  end.

Definition split (s : jsstring) : list jsstring := splitFrom false [] s.

(** [arr.join(';')]. *)
Fixpoint join (l : list jsstring) : jsstring :=
  match l with
  | [] => []
  | [x] => x
  | x :: rest => x ++ semicolon :: join rest
  end.

(** [Set.prototype.add] on a set kept in insertion order. *)
Definition setAdd (seen : list jsstring) (x : jsstring) : list jsstring :=
  if bool_decide (x ∈ seen) then seen else seen ++ [x].

(** [utilArrayUnion] of @rapid-sdk/util: [new Set(a)], then every element of
    [b] added, read back in insertion order. *)
Definition utilArrayUnion (a b : list jsstring) : list jsstring :=
  foldl setAdd (foldl setAdd [] a) b.

End JsString.

(** ** Entities: [modules/osm/entity.js] *)

Module Entity.
Import JsString.

(** The values a property of an entity or of a patch object can hold.  A tag
    map is an object whose own enumerable properties are the tags; [VOpaque]
    stands for any other object (a [loc] or [nodes] array, ...), known only
    by its reference. *)
Inductive value :=
| VUndefined
| VNull
| VBool (b : bool)
| VNum (n : Z)
| VStr (s : string)
| VTags (t : gmap string jsstring)
| VOpaque (ref : nat).

Definition truthy (v : value) : bool :=
  match v with
  | VUndefined | VNull => false
  | VBool b => b
  | VNum n => negb (n =? 0)%Z
  | VStr s => negb (String.eqb s "")
  | VTags _ | VOpaque _ => true
  end.

(** An object: its own enumerable properties, and the [type] it inherits
    from the prototype of its variant ([None] for a generic [osmEntity] and
    for a plain patch object). *)
Record object := Object {
  proto : option string;
  own : gmap string value
}.

(** Outcome of a call: a result, or an exception thrown. *)
Inductive completion (A : Type) :=
| Normal (a : A)
| Throws.
Arguments Normal {A} a.
Arguments Throws {A}.

(** The store: the entity objects by reference, the module variable
    [_nextv] and the table [osmEntity.id.next].  [_nextv] is a JavaScript
    number that only ever counts up from 0 by one; it is modelled as an
    integer. *)
Record state := State {
  heap : list object;
  nextv : Z;
  idnext : gmap string Z
}.

Definition init : state :=
  State [] 0 (<["changeset" := (-1)%Z]> (<["node" := (-1)%Z]>
             (<["way" := (-1)%Z]> (<["relation" := (-1)%Z]> ∅)))).

(** [o.type] and [o.id]: an own property, else what the prototype gives. *)
Definition getProp (o : object) (p : string) : value :=
  match own o !! p with
  | Some v => v
  | None =>
      if bool_decide (p = "type")
      then match proto o with Some ty => VStr ty | None => VUndefined end
      else VUndefined
  end.

Definition setOwn (o : object) (p : string) (v : value) : object :=
  Object (proto o) (<[p := v]> (own o)).

(** [type[0]] *)
Definition firstChar (s : string) : string :=
  match s with
  | String c _ => String c EmptyString
  | EmptyString => "undefined"
  end.

(** [osmEntity.id(type)] = [fromOSM(type, next[type]--)] = [type[0] + n].
    For a [type] outside the table [next[type]--] is [NaN].  [None]: a
    [type] that is an object, which the model does not cover. *)
Definition osmEntity_id (st : state) (ty : value) : option (string * state) :=
  match ty with
  | VStr t =>
      match idnext st !! t with
      | Some n => Some (firstChar t +:+ pretty n,
                        State (heap st) (nextv st) (<[t := (n - 1)%Z]> (idnext st)))
      | None => Some (firstChar t +:+ "NaN", st)
      end
  | VNum _ | VBool _ => Some ("undefinedNaN", st)
  | _ => None
  end.

(** [osmEntity.id.type(id)] *)
Definition osmEntity_id_type (id : string) : option string :=
  match firstChar id with
  | "c" => Some "changeset"
  | "n" => Some "node"
  | "w" => Some "way"
  | "r" => Some "relation"
  | _ => None
  end.

(** [this[prop] = val]: an assignment to [__proto__] goes to the accessor
    inherited from [Object.prototype] and makes no own property. *)
Definition assignProp (this : gmap string value) (prop : string) (val : value)
  : gmap string value :=
  if bool_decide (prop = "__proto__") then this else <[prop := val]> this.

(** The inner loop of [initialize] over one [source]. *)
Definition copyProps (this source : gmap string value) : gmap string value :=
  map_fold (λ prop val acc,
              match val with
              | VUndefined => delete prop acc
              | _ => assignProp acc prop val
              end) this source.

(** Whether copying [source] would replace the prototype of the new
    object: an own [__proto__] that holds an object or [null]. *)
Definition setsPrototype (source : gmap string value) : bool :=
  match source !! "__proto__" with
  | Some VNull | Some (VTags _) | Some (VOpaque _) => true
  | _ => false
  end.

(** The methods this code calls on an entity; an own property of such a
    name would be called in their place. *)
Definition methods : list string := ["hasOwnProperty"; "touch"; "update"].

(** The property bags the model does not follow: those that replace the
    prototype or shadow a method. *)
Definition outsideModel (source : gmap string value) : bool :=
  setsPrototype source ||
  existsb (λ m, bool_decide (is_Some (source !! m))) methods.

(** [if (!this.id && this.type) this.id = osmEntity.id(this.type)] *)
Definition assignId (st : state) (this : object) : option (object * state) :=
  if negb (truthy (getProp this "id")) && truthy (getProp this "type")
  then '(id, st') ← osmEntity_id st (getProp this "type");
       Some (setOwn this "id" (VStr id), st')
  else Some (this, st).

(** [if (!this.hasOwnProperty('visible')) this.visible = true] *)
Definition defaultVisible (this : object) : object :=
  if bool_decide (is_Some (own this !! "visible")) then this
  else setOwn this "visible" (VBool true).

(** [initialize(sources)] on the object at [r].  [None]: a source the
    model does not follow. *)
Definition initialize (st : state) (r : nat) (sources : list (gmap string value))
  : option (nat * state) :=
  if existsb outsideModel sources then None else
  o ← heap st !! r;
  '(o2, st2) ← assignId st (Object (proto o) (foldl copyProps (own o) sources));
  Some (r, State (<[r := defaultVisible o2]> (heap st2)) (nextv st2) (idnext st2)).

(** Modelled from the spec: the constructors [osmNode], [osmWay],
    [osmRelation] and [osmChangeset] that [osmEntity[attrs.type]] dispatches
    to (node.js, way.js, relation.js, changeset.js) are missing from the
    sources.  Per the spec ([create(attrs)] gives an Entity of one of the
    variants and assigns an id if absent) each allocates a fresh object of
    its variant and initialises it from the arguments, as the generic branch
    [(new osmEntity()).initialize(arguments)] does. *)
Definition construct (st : state) (variant : option string)
    (sources : list (gmap string value)) : option (nat * state) :=
  let r := length (heap st) in
  initialize (State (heap st ++ [Object variant ∅]) (nextv st) (idnext st)) r sources.

Definition subtypes : list string := ["node"; "way"; "relation"; "changeset"].

(** The dispatch of [osmEntity(attrs, ...)] called as a function: the
    variant whose constructor runs ([None]: the generic entity).  A [type]
    or [id] that names no variant makes [osmEntity[...]] something other
    than a constructor of entities, and the call (or the [touch()] chained
    on its result) throws.  The outer [None]: a [type] or [id] held as an
    opaque object. *)
Definition variantOf (attrs : object) : option (completion (option string)) :=
  if truthy (getProp attrs "type") then
    match getProp attrs "type" with
    | VStr t => if bool_decide (t ∈ subtypes) then Some (Normal (Some t))
                else Some Throws
    | VOpaque _ => None
    | _ => Some Throws
    end
  else if truthy (getProp attrs "id") then
    match getProp attrs "id" with
    | VStr id => match osmEntity_id_type id with
                 | Some t => Some (Normal (Some t))
                 | None => Some Throws
                 end
    | VOpaque _ | VTags _ => None
    | _ => Some Throws
    end
  else Some (Normal None).

(** [osmEntity(...args)] called as a function. *)
Definition osmEntity (st : state) (args : list object)
  : option (completion nat * state) :=
  variant ← match args with
            | attrs :: _ => variantOf attrs
            | [] => Some (Normal None)
            end;
  match variant with
  | Normal v => '(r, st') ← construct st v (own <$> args); Some (Normal r, st')
  | Throws => Some (Throws, st)
  end.

(** [touch()]: [this.v = _nextv++]. *)
Definition touch (st : state) (r : nat) : option (nat * state) :=
  o ← heap st !! r;
  Some (r, State (<[r := setOwn o "v" (VNum (nextv st))]> (heap st))
                 (nextv st + 1)%Z (idnext st)).

(** [update(attrs)]: [osmEntity(this, attrs).touch()]. *)
Definition update (st : state) (r : nat) (attrs : gmap string value)
  : option (completion nat * state) :=
  this ← heap st !! r;
  '(c, st1) ← osmEntity st [this; Object None attrs];
  match c with
  | Normal r' => '(r'', st2) ← touch st1 r'; Some (Normal r'', st2)
  | Throws => Some (Throws, st1)
  end.

(** [entity.v || 0], the version as [osmEntity.key] reads it. *)
Definition version (o : object) : value :=
  let v := getProp o "v" in if truthy v then v else VNum 0.

(** [osmEntity.key(entity)]: [entity.id + 'v' + (entity.v || 0)], for an
    entity with a string id and a numeric version. *)
Definition key (o : object) : option string :=
  match getProp o "id", version o with
  | VStr id, VNum n => Some (id +:+ "v" +:+ pretty n)
  | _, _ => None
  end.

(** The names every plain object inherits from [Object.prototype]. *)
Definition objectPrototypeKeys : list string :=
  ["constructor"; "__defineGetter__"; "__defineSetter__"; "hasOwnProperty";
   "__lookupGetter__"; "__lookupSetter__"; "isPrototypeOf";
   "propertyIsEnumerable"; "toString"; "valueOf"; "__proto__";
   "toLocaleString"].

(** What [obj[k]] gives on a plain object whose own values are strings: the
    own string, or the function or object inherited from
    [Object.prototype], or [undefined]. *)
Inductive lookup_result :=
| Absent
| Str (s : jsstring)
| Inherited.

Definition getKey (m : gmap string jsstring) (k : string) : lookup_result :=
  match m !! k with
  | Some s => Str s
  | None => if bool_decide (k ∈ objectPrototypeKeys) then Inherited else Absent
  end.

(** [obj[k] = v] with a string [v] on a plain object: for [__proto__] the
    assignment runs the setter inherited from [Object.prototype], which
    ignores a string. *)
Definition setKey (m : gmap string jsstring) (k : string) (v : jsstring)
  : gmap string jsstring :=
  if bool_decide (k = "__proto__") then m else <[k := v]> m.

(** [Object.assign(target, source)]: every own enumerable property of
    [source] is assigned to [target]. *)
Definition objectAssign (target source : gmap string jsstring)
  : gmap string jsstring :=
  map_fold (λ k v acc, setKey acc k v) target source.

Definition building : string := "building".
Definition yes : jsstring := lit "yes".

(** The value [mergeTags] stores for two differing values of one key. *)
Definition unionValue (t1 t2 : jsstring) : jsstring :=
  utilUnicodeCharsTruncated (join (utilArrayUnion (split t1) (split t2))) 255.

(** One iteration of the loop of [mergeTags], for the key [k] of [tags]
    with value [t2]; a thrown error ends the loop. *)
Definition mergeStep (k : string) (t2 : jsstring)
    (acc : completion (gmap string jsstring * bool))
  : completion (gmap string jsstring * bool) :=
  match acc with
  | Throws => Throws
  | Normal (merged, changed) =>
      match getKey merged k with
      | Absent | Str [] => Normal (setKey merged k t2, true)
      | Str t1 =>
          if bool_decide (k = building) then
            if bool_decide (t2 = yes) then Normal (merged, changed)
            else if bool_decide (t1 = yes) then Normal (setKey merged k t2, true)
            else Normal (merged, changed)
          else if bool_decide (t1 = t2) then Normal (merged, changed)
          else Normal (setKey merged k (unionValue t1 t2), true)
      | Inherited =>
          if bool_decide (k = building) then Normal (merged, changed)
          else Throws
      end
  end.

(** Lines 139-161 of [mergeTags]: the merged tag map and the flag
    [changed]. *)
Definition mergeLoop (thisTags tags : gmap string jsstring)
  : completion (gmap string jsstring * bool) :=
  map_fold mergeStep (Normal (objectAssign ∅ thisTags, false)) tags.

(** [this.tags] as a tag map: the own property, or the empty map of
    [osmEntity.prototype].  [None]: the property holds a string or an
    opaque object, which is no tag map. *)
Definition thisTags (o : object) : option (gmap string jsstring) :=
  match own o !! "tags" with
  | None => Some ∅
  | Some (VTags t) => Some t
  | Some (VStr _) | Some (VOpaque _) => None
  | Some _ => Some ∅
  end.

(** [mergeTags(tags)] *)
Definition mergeTags (st : state) (r : nat) (tags : gmap string jsstring)
  : option (completion nat * state) :=
  this ← heap st !! r;
  t1 ← thisTags this;
  match mergeLoop t1 tags with
  | Throws => Some (Throws, st)
  | Normal (merged, changed) =>
      if changed then update st r {[ "tags" := VTags merged ]}
      else Some (Normal r, st)
  end.

(** The tags of the entity a call returned. *)
Definition tagsOf (st : state) (r : nat) : option (gmap string jsstring) :=
  o ← heap st !! r; thisTags o.

(** *** Notions used to state the properties *)

(** The properties [initialize] copies from the receiver and a patch. *)
Definition copied (o : object) (attrs : gmap string value) : gmap string value :=
  foldl copyProps ∅ [own o; attrs].

(** The value the loop of [mergeTags] leaves for a key of [tags] whose
    value there is [t2], when the receiver holds [t1] for it. *)
Definition resolved (k : string) (t1 : option jsstring) (t2 : jsstring) : jsstring :=
  match t1 with
  | None | Some [] => t2
  | Some a =>
      if bool_decide (k = building) then
        if bool_decide (t2 = yes) then a
        else if bool_decide (a = yes) then t2 else a
      else if bool_decide (a = t2) then a else unionValue a t2
  end.

(** Whether that key makes the loop set [changed]. *)
Definition changes (k : string) (t1 : option jsstring) (t2 : jsstring) : bool :=
  match t1 with
  | None | Some [] => true
  | Some a =>
      if bool_decide (k = building) then
        negb (bool_decide (t2 = yes)) && bool_decide (a = yes)
      else negb (bool_decide (a = t2))
  end.

Definition primitive (v : value) : Prop :=
  match v with VTags _ | VOpaque _ => False | _ => True end.

(** The property bags the model follows: [type] and [id] are no objects,
    and copying the bag neither replaces the prototype of the new object
    nor shadows a method. *)
Definition plain (m : gmap string value) : Prop :=
  (∀ p v, p = "type" ∨ p = "id" → m !! p = Some v → primitive v) ∧
  outsideModel m = false.

(** *** Version stamps *)

(** Every stamp in the store is below [_nextv]. *)
Definition stampsBelow (st : state) : Prop :=
  ∀ r o n, heap st !! r = Some o → own o !! "v" = Some (VNum n) → (n < nextv st)%Z.

(** What a session does to the store: it creates entities from attributes
    that carry no [v], updates entities and merges tags into them. *)
Inductive step : state → state → Prop :=
| step_create st args out st' :
    (∀ a, a ∈ args → own a !! "v" = None) →
    osmEntity st args = Some (out, st') → step st st'
| step_update st r attrs out st' :
    update st r attrs = Some (out, st') → step st st'
| step_mergeTags st r tags out st' :
    mergeTags st r tags = Some (out, st') → step st st'.

(** The tags [mergeTags] leaves on the entity it returns. *)
Definition mergedTags (st : state) (r : nat) (tags : gmap string jsstring)
  : option (gmap string jsstring) :=
  '(out, st') ← mergeTags st r tags;
  match out with Normal r' => tagsOf st' r' | Throws => None end.

(** The store after [osmEntity(attrs)] in a new session. *)
Definition sessionWith (attrs : gmap string value) : state :=
  match osmEntity init [Object None attrs] with
  | Some (_, st) => st
  | None => init
  end.

(** The spec's words read literally, "the ';'-split value lists": a split
    at each [;] and nothing more, and the union built on it. *)
Fixpoint splitOnSemicolonFrom (cur : jsstring) (s : jsstring) : list jsstring :=
  match s with
  | [] => [cur]
  | c :: rest =>
      if (c =? semicolon)%N then cur :: splitOnSemicolonFrom [] rest
      else splitOnSemicolonFrom (cur ++ [c]) rest
  end.

Definition claimedUnion (t1 t2 : jsstring) : jsstring :=
  utilUnicodeCharsTruncated
    (join (utilArrayUnion (splitOnSemicolonFrom [] t1) (splitOnSemicolonFrom [] t2)))
    255.

(** A session that has created the node [n1], states after further
    updates, and the object a reference points to. *)
Definition exampleNode : state := sessionWith {[ "id" := VStr "n1" ]}.

Definition afterUpdate (st : state) (r : nat) (attrs : gmap string value) : state :=
  match update st r attrs with Some (_, st') => st' | None => st end.

Definition objectAt (st : state) (r : nat) : object :=
  default (Object None ∅) (heap st !! r).

(** A session that has created the node [n1] with the given tags. *)
Definition nodeWithTags (tags : gmap string jsstring) : state :=
  sessionWith {[ "id" := VStr "n1"; "tags" := VTags tags ]}.

End Entity.

(** ** The ambiguous-crossing validator and its test harness *)

Module Crossing.

(** The entities the test builds with [Rapid.osmNode] and [Rapid.osmWay]. *)
Inductive entity :=
| Node (id : string) (loc : Z * Z) (tags : gmap string string)
| Way (id : string) (nodes : list string) (tags : gmap string string).

Definition entityId (e : entity) : string :=
  match e with Node i _ _ => i | Way i _ _ => i end.

(** A validation issue, with the fields the spec lists. *)
Record issue := Issue {
  type : string;
  severity : string;
  entityIds : list string;
  loc : Z * Z;
  key : string
}.

(** [graph.base.entities.values()]: the entities in insertion order. *)
Abbreviation graph := (list entity).

(** [validate()] of the test: the issues of every entity, concatenated.
    The validator under test is a parameter. *)
Definition validate (validator : entity → graph → list issue) (g : graph)
  : list issue :=
  foldl (λ issues e, issues ++ validator e g) [] g.

(** [createWaysWithOneCrossingNode(w1tags, w2tags, nodeTags)] *)
Definition createWaysWithOneCrossingNode
    (w1tags w2tags nodeTags : gmap string string) : graph :=
  let n5 := Node "n-5" (0, 0)%Z nodeTags in
  let n1 := Node "n-1" (0, -1)%Z ∅ in
  let n2 := Node "n-2" (0, 1)%Z ∅ in
  let w1 := Way "w-1" ["n-1"; "n-5"; "n-2"] w1tags in
  let n3 := Node "n-3" (-1, 0)%Z ∅ in
  let n4 := Node "n-4" (1, 0)%Z ∅ in
  let w2 := Way "w-2" ["n-3"; "n-5"; "n-4"] w2tags in
  [n1; n2; n3; n4; n5; w1; w2].

(** [verifySingleCrossingIssue(issues)]: the expectations of the test. *)
Definition verifySingleCrossingIssue (issues : list issue) : bool :=
  bool_decide (length issues = 1) &&
  forallb (λ i, bool_decide (type i = "ambiguous_crossing_tags") &&
                bool_decide (severity i = "warning") &&
                bool_decide (length (entityIds i) = 2) &&
                bool_decide (loc i = (0, 0)%Z)) issues.

(** [entityIds.slice().sort()] *)
Fixpoint insertSorted (x : string) (l : list string) : list string :=
  match l with
  | [] => [x]
  | y :: rest => if String.leb x y then x :: l else y :: insertSorted x rest
  end.

Definition sortIds (l : list string) : list string := foldr insertSorted [] l.

(** Modelled from the spec: the identity [key] of an issue, which the spec
    derives from the issue's type and its [entityIds], sorted. *)
Definition issueKey (ty : string) (ids : list string) : string :=
  foldl (λ acc i, acc +:+ ":" +:+ i) ty (sortIds ids).

(** Modelled from the spec: the crossing marking state of a tag map,
    untagged, unmarked, marked (with a sub-style) or informal, read from the
    tags [crossing] and [crossing:markings] as the spec's examples do. *)
Inductive marking :=
| Untagged
| Unmarked
| Marked (style : option string)
| Informal.

Global Instance marking_eq_dec : EqDecision marking.
Proof. solve_decision. Defined.

Definition markingStyle (tags : gmap string string) : option string :=
  match tags !! "crossing:markings" with
  | Some s => if bool_decide (s = "yes") || bool_decide (s = "no") then None else Some s
  | None => None
  end.

Definition classify (tags : gmap string string) : marking :=
  let byMarkings :=
    match tags !! "crossing:markings" with
    | None => Untagged
    | Some s => if bool_decide (s = "no") then Unmarked else Marked (markingStyle tags)
    end in
  match tags !! "crossing" with
  | Some c =>
      if bool_decide (c = "unmarked") then Unmarked
      else if bool_decide (c = "informal") then Informal
      else if bool_decide (c = "marked") then Marked (markingStyle tags)
      else byMarkings
  | None => byMarkings
  end.

(** Modelled from the spec: two sides conflict when they disagree on the
    state, when both are marked with different sub-styles, or when one is
    tagged and the other carries no marking tag.  (For the last case the
    spec names marked and informal; the test "flags unmarked lines that
    share a zebra-marked crossing node", whose node carries only the key
    [MARKING_TAG], expects the same of an unmarked line.) *)
Definition conflict (a b : marking) : bool :=
  match a, b with
  | Untagged, Untagged => false
  | Untagged, _ | _, Untagged => true
  | Marked (Some s), Marked (Some s') => negb (bool_decide (s = s'))
  | Marked _, Marked _ => false
  | _, _ => negb (bool_decide (a = b))
  end.

(** Modelled from the spec: no issue when both lines are untagged for
    crossing; otherwise the sides are the node and every line tagged for
    crossing, and any two conflicting sides make the crossing ambiguous. *)
Definition ambiguous (l1 l2 n : marking) : bool :=
  let lines := filter (λ m, m ≠ Untagged) [l1; l2] in
  match lines with
  | [] => false
  | _ => existsb (λ l, conflict l n) lines || conflict l1 l2 && bool_decide (length lines = 2)
  end.

Definition wayNodes (e : entity) : list string :=
  match e with Way _ nodes _ => nodes | Node _ _ _ => [] end.

(** [graph.parentWays(node)]: the ways that hold the node. *)
Definition parentWays (g : graph) (nodeId : string) : list entity :=
  filter (λ e, nodeId ∈ wayNodes e) g.

Definition entityTags (e : entity) : gmap string string :=
  match e with Node _ _ t => t | Way _ _ t => t end.

(** Modelled from the spec: [validationAmbiguousCrossingTags], which is
    missing from the sources (only its test is there).  The spec's
    algorithm is stated for a node shared between exactly two lines: it
    classifies the two lines and the node and raises one warning, located
    at the node and naming both lines.  The test concatenates the output
    for every entity and expects a single issue, so the issue is raised
    once, where the shared node is validated. *)
Definition validator (e : entity) (g : graph) : list issue :=
  match e with
  | Way _ _ _ => []
  | Node nid nloc ntags =>
      match parentWays g nid with
      | [l1; l2] =>
          if ambiguous (classify (entityTags l1)) (classify (entityTags l2))
                       (classify ntags)
          then let ids := [entityId l1; entityId l2] in
               [Issue "ambiguous_crossing_tags" "warning" ids nloc
                      (issueKey "ambiguous_crossing_tags" ids)]
          else []
      | _ => []
      end
  end.

(** Modelled from the spec: the downstream deduplication by [key], which
    keeps the first issue of every key. *)
Fixpoint dedupByKey (seen : list string) (issues : list issue) : list issue :=
  match issues with
  | [] => []
  | i :: rest =>
      if bool_decide (key i ∈ seen) then dedupByKey seen rest
      else i :: dedupByKey (key i :: seen) rest
  end.

(** The tags of the test "flags unmarked lines that share a marked
    crossing node". *)
Definition unmarkedLine : gmap string string :=
  {[ "crossing" := "unmarked"; "highway" := "footway"; "footway" := "crossing" ]}.
Definition residential : gmap string string := {[ "highway" := "residential" ]}.
Definition markedNode : gmap string string := {[ "crossing:markings" := "yes" ]}.

End Crossing.

(** ** The tile cache of [HudhudStreetsService] *)

Module Streets.

(** An image of [data.currentPageItems]; the handler stamps [imagePath] and
    [captured_at] on it. *)
Record image := Image {
  imageId : Z;
  lng : Z;
  lat : Z;
  imagePath : option string;
  captured_at : option nat
}.

(** An entry of the rtree: [{ minX, minY, maxX, maxY, data }]. *)
Record box := Box {
  minX : Z; minY : Z; maxX : Z; maxY : Z;
  data : image
}.

(** The payload of a response; [currentPageItems] may be missing. *)
Record payload := Payload { currentPageItems : option (list image) }.

(** A rejection reason: [err.name] and [err instanceof Error]. *)
Record error := Error { name : string; instanceofError : bool }.

Definition abortError : error := Error "AbortError" true.

(** A settled promise. *)
Inductive settled (A : Type) :=
| Fulfilled (a : A)
| Rejected (e : error).
Arguments Fulfilled {A} a.
Arguments Rejected {A} e.

(** [promise.then(f)] for an [f] whose own outcome is [f a]. *)
Definition andThen {A B : Type} (p : settled A) (f : A → settled B) : settled B :=
  match p with
  | Fulfilled a => f a
  | Rejected e => Rejected e
  end.

(** The service: [_cache] ([rtree], [inflight] with the controller of each
    request, [loaded], [images]), [_lastv], and what it did to the outside:
    the events emitted, the redraws requested, the errors logged, the
    controllers aborted. *)
Record service := Service {
  rtree : list box;
  inflight : gmap string nat;
  loaded : gset string;
  images : gmap Z image;
  lastv : option Z;
  nextController : nat;
  aborted : gset nat;
  emitted : list string;
  redraws : nat;
  console : list error
}.

Definition withInflight (f : gmap string nat → gmap string nat) (s : service)
  : service :=
  Service (rtree s) (f (inflight s)) (loaded s) (images s) (lastv s)
          (nextController s) (aborted s) (emitted s) (redraws s) (console s).

(** The [data => { ... }] handler of [_loadTileAsync], run at time [now].
    Iterating a missing [currentPageItems] throws, after the tile has been
    marked loaded. *)
Definition onData (tileId : string) (now : nat) (d : payload) (s : service)
  : settled unit * service :=
  let loaded' := {[tileId]} ∪ loaded s in
  match currentPageItems d with
  | None =>
      (Rejected (Error "TypeError" true),
       Service (rtree s) (inflight s) loaded' (images s) (lastv s)
               (nextController s) (aborted s) (emitted s) (redraws s) (console s))
  | Some items =>
      let stamped :=
        (λ i, Image (imageId i) (lng i) (lat i)
                    (Some "https://static.maptoolkit.net/examplepano.jpg")
                    (Some now)) <$> items in
      let images' := foldl (λ m i, <[imageId i := i]> m) (images s) stamped in
      let imageBoxes := (λ i, Box (lng i) (lat i) (lng i) (lat i) i) <$> stamped in
      (Fulfilled (),
       Service (rtree s ++ imageBoxes) (inflight s) loaded' images' (lastv s)
               (nextController s) (aborted s)
               (emitted s ++ ["loadedData"]) (S (redraws s)) (console s))
  end.

(** The [.catch(err => { ... })] handler. *)
Definition onError (e : error) (s : service) : service :=
  if bool_decide (name e = "AbortError") then s
  else if instanceofError e
       then Service (rtree s) (inflight s) (loaded s) (images s) (lastv s)
                    (nextController s) (aborted s) (emitted s) (redraws s)
                    (console s ++ [e])
       else s.

(** The [.finally(() => { ... })] handler. *)
Definition onFinally (tileId : string) (s : service) : service :=
  withInflight (delete tileId) s.

(** What the promise chain of [_loadTileAsync(tile)] does to the service
    once [fetch] has settled with [outcome]:
    [fetch(..).then(utilFetchResponse).then(data => ..).catch(..).finally(..)].
    [utilFetchResponse] (util/index.js, missing from the sources) is a
    parameter: it reads the response and gives the payload or rejects. *)
Definition settle {response : Type}
    (utilFetchResponse : response → settled payload)
    (tileId : string) (now : nat) (outcome : settled response) (s : service)
  : service :=
  let s1 :=
    match andThen outcome utilFetchResponse with
    | Fulfilled d =>
        match onData tileId now d s with
        | (Fulfilled _, s') => s'
        | (Rejected e, s') => onError e s'
        end
    | Rejected e => onError e s
    end in
  onFinally tileId s1.

(** The synchronous part of [_loadTileAsync(tile)]: nothing for a tile that
    is loaded or in flight, else a request under a new [AbortController],
    recorded in [inflight]. *)
Definition _loadTileAsync (tileId : string) (s : service) : service :=
  if bool_decide (tileId ∈ loaded s) || bool_decide (is_Some (inflight s !! tileId))
  then s
  else Service (rtree s) (<[tileId := nextController s]> (inflight s))
               (loaded s) (images s) (lastv s) (S (nextController s))
               (aborted s) (emitted s) (redraws s) (console s).

(** [loadTiles()], for the viewport version [v] and the [tiles] the tiler
    gives for it. *)
Definition loadTiles (v : Z) (tiles : list string) (s : service) : service :=
  if bool_decide (lastv s = Some v) then s
  else
    let unneeded :=
      filter (λ kc, kc.1 ∉ tiles) (map_to_list (inflight s)) in
    let s1 := Service (rtree s) (inflight s) (loaded s) (images s) (Some v)
                      (nextController s)
                      (aborted s ∪ list_to_set (snd <$> unneeded))
                      (emitted s) (redraws s) (console s) in
    foldl (λ acc t, _loadTileAsync t acc) s1 tiles.

(** A service right after [resetAsync]. *)
Definition emptyService : service :=
  Service [] ∅ ∅ ∅ None 0 ∅ [] 0 [].

End Streets.

(** ** [operationExtract] *)

Module Extract.

(** What [operation.available()] and [operation.disabled()] return. *)
Inductive jsvalue :=
| JNum (n : nat)
| JBool (b : bool)
| JStr (s : string).

Definition truthy (v : jsvalue) : bool :=
  match v with
  | JNum n => negb (n =? 0)
  | JBool b => b
  | JStr s => negb (String.eqb s "")
  end.

Section operationExtract.

(** The collaborators, none of them in the sources: the graph
    ([hasEntity], [geometry], [parentWays]), the entity ([type],
    [hasInterestingTags], [extent]), the preset manager, the extent
    arithmetic, the context and [actionExtract]. *)
Context {Entity Extent Action : Type}.
Variable hasEntity : string → option Entity.
Variable geometry : string → string.
Variable entityType : Entity → string.
Variable hasInterestingTags : Entity → bool.
Variable parentWaysLength : Entity → nat.
Variable presetGeometry : Entity → list string.
Variable entityExtent : Entity → Extent.
Variable extend : Extent → Extent → Extent.
Variable areaIsTruthy : Extent → bool.
Variable percentContainedInMapBelow80 : Extent → bool.
Variable hasHiddenConnections : string → bool.
Variable actionExtract : string → Action.

(** The callback of [selectedIDs.map(...)]: the action for [entityID], if
    one is built, and the extent [_extent] after it. *)
Definition actionFor (_extent : option Extent) (entityID : string)
  : option Action * option Extent :=
  match hasEntity entityID with
  | None => (None, _extent)
  | Some entity =>
      if negb (hasInterestingTags entity) then (None, _extent)
      else if bool_decide (entityType entity = "node")
              && (parentWaysLength entity =? 0) then (None, _extent)
      else
        let geom := geometry entityID in
        if (bool_decide (geom = "area") || bool_decide (geom = "line"))
           && negb (bool_decide ("point" ∈ presetGeometry entity))
        then (None, _extent)
        else
          (Some (actionExtract entityID),
           Some (match _extent with
                 | Some ext => extend ext (entityExtent entity)
                 | None => entityExtent entity
                 end))
  end.

(** One round of [selectedIDs.map(...).filter(Boolean)]: the actions kept
    so far and [_extent], after [entityID]. *)
Definition collect (acc : list Action * option Extent) (entityID : string)
  : list Action * option Extent :=
  match actionFor acc.2 entityID with
  | (Some a, ext) => (acc.1 ++ [a], ext)
  | (None, ext) => (acc.1, ext)
  end.

(** [_actions] and [_extent] as [operationExtract] leaves them. *)
Definition build (selectedIDs : list string) : list Action * option Extent :=
  foldl collect ([], None) selectedIDs.

Definition _actions (selectedIDs : list string) : list Action :=
  (build selectedIDs).1.

Definition _extent (selectedIDs : list string) : option Extent :=
  (build selectedIDs).2.

(** [operation.available()]:
    [_actions.length && selectedIDs.length === _actions.length]. *)
Definition available (selectedIDs : list string) : jsvalue :=
  let n := length (_actions selectedIDs) in
  if n =? 0 then JNum n else JBool (length selectedIDs =? n).

(** [operation.disabled()] *)
Definition disabled (selectedIDs : list string) : jsvalue :=
  if existsb (λ entityID, bool_decide (geometry entityID = "vertex")
                          && hasHiddenConnections entityID) selectedIDs
  then JStr "connected_to_hidden"
  else match _extent selectedIDs with
       | Some ext =>
           if areaIsTruthy ext && percentContainedInMapBelow80 ext
           then JStr "too_large" else JBool false
       | None => JBool false
       end.

End operationExtract.

End Extract.

(** ** Entity ids and copies: [modules/osm/entity.js], continued *)

Module EntityIds.
Import JsString Entity.

(** [osmEntity.id.fromOSM(type, id)]: [type[0] + id], for an [id] that is a
    string; a number [id] joins a non-empty [type] as its decimal
    numeral. *)
Definition fromOSM (type id : string) : string := firstChar type +:+ id.

(** [osmEntity.id.toOSM(id)]: [id.slice(1)] *)
Definition toOSM (id : string) : string :=
  match id with
  | String _ rest => rest
  | EmptyString => ""
  end.

(** Decimal digits, runs of them, and runs that are not all zeros. *)
Definition isDigit (c : Ascii.ascii) : bool :=
  bool_decide (String c "" ∈ ["0"; "1"; "2"; "3"; "4"; "5"; "6"; "7"; "8"; "9"]).

Fixpoint digits (s : string) : bool :=
  match s with
  | EmptyString => true
  | String c rest => isDigit c && digits rest
  end.

Fixpoint hasNonZero (s : string) : bool :=
  match s with
  | EmptyString => false
  | String c rest => negb (bool_decide (String c "" = "0")) || hasNonZero rest
  end.

(** [s < 0] for a string [s]: the string is converted to a number first.
    The empty string converts to [0], a run of decimal digits to its value,
    and with a [-] in front to the negated value ([-0] for zeros, which is
    not below [0]).  [None]: any other string; the model does not follow
    the conversion there. *)
Definition lessThanZero (s : string) : option bool :=
  match s with
  | String c (String d rest) =>
      if bool_decide (String c "" = "-")
      then if digits (String d rest) then Some (hasNonZero (String d rest)) else None
      else if digits s then Some false else None
  | _ => if digits s then Some false else None
  end.

(** [osmId()]: [osmEntity.id.toOSM(this.id)].  Only a string has [slice];
    on any other [id] the call throws.  [None]: an [id] held as an opaque
    object (an array has a [slice] of its own). *)
Definition osmId (o : object) : option (completion string) :=
  match getProp o "id" with
  | VStr id => Some (Normal (toOSM id))
  | VOpaque _ => None
  | _ => Some Throws
  end.

(** [isNew()]: [this.osmId() < 0].  [None] also for an entity with an own
    property [osmId], which would be called in place of the method. *)
Definition isNew (o : object) : option (completion bool) :=
  if bool_decide (is_Some (own o !! "osmId")) then None else
  c ← osmId o;
  match c with
  | Normal s => b ← lessThanZero s; Some (Normal b)
  | Throws => Some Throws
  end.

(** The ids a run of calls [osmEntity.id(type)], one per element of
    [types], returns, and the store after them.  ([osmEntity_id] gives an
    id for every string.) *)
Fixpoint generate (st : state) (types : list string) : list string * state :=
  match types with
  | [] => ([], st)
  | t :: rest =>
      match osmEntity_id st (VStr t) with
      | Some (id, st1) =>
          let '(ids, st2) := generate st1 rest in (id :: ids, st2)
      | None => ([], st)
      end
  end.

(** Every type of the table [osmEntity.id.next] has a counter there, and
    the counter is negative: so the table starts, and so it stays. *)
Definition countersNegative (st : state) : Prop :=
  ∀ t, t ∈ subtypes → ∃ n, idnext st !! t = Some n ∧ (n < 0)%Z.

(** [obj[v]] reads the property whose name is [v] as a string.  [None]: an
    object as the name. *)
Definition propertyKey (v : value) : option string :=
  match v with
  | VStr s => Some s
  | VUndefined => Some "undefined"
  | VNull => Some "null"
  | VBool true => Some "true"
  | VBool false => Some "false"
  | VNum n => Some (pretty n)
  | VTags _ | VOpaque _ => None
  end.

(** What [copy] returns: an entity, or what [copies[this.id]] finds on
    [Object.prototype] when the id names one of its properties. *)
Inductive copy_result :=
| Copy (r : nat)
| InheritedProperty.

(** The patch of [copy]:
    [{ id: undefined, user: undefined, version: undefined, v: undefined }]. *)
Definition stripped : gmap string value :=
  {[ "id" := VUndefined; "user" := VUndefined;
     "version" := VUndefined; "v" := VUndefined ]}.

(** [copy(resolver, copies)] on the entity at [r]; [copies] is the plain
    object that holds the copies made so far, by the id of the original. *)
Definition copy (st : state) (r : nat) (copies : gmap string nat)
  : option (completion copy_result * state * gmap string nat) :=
  this ← heap st !! r;
  k ← propertyKey (getProp this "id");
  match copies !! k with
  | Some c => Some (Normal (Copy c), st, copies)
  | None =>
      if bool_decide (k ∈ objectPrototypeKeys)
      then Some (Normal InheritedProperty, st, copies)
      else
        '(c, st1) ← osmEntity st [this; Object None stripped];
        match c with
        | Normal r' => Some (Normal (Copy r'), st1, <[k := r']> copies)
        | Throws => Some (Throws, st1, copies)
        end
  end.

End EntityIds.

(** ** Deprecated tags: [modules/osm/entity.js], continued *)

Module Deprecated.
Import JsString Entity.

(** An entry of [dataDeprecated]: the tags [old], and the tags [replace]
    if it has any.  The tags are listed as [Object.keys] gives them; an
    object holds each key once. *)
Record rule := Rule {
  old : list (string * jsstring);
  replace : option (list (string * jsstring))
}.

Definition star : jsstring := lit "*".

(** The plain object that holds the listed properties. *)
Definition objectOf (entries : list (string * jsstring)) : gmap string jsstring :=
  list_to_map entries.

(** [!!obj[k]]: an own non-empty string, and anything inherited, is
    truthy. *)
Definition holds (m : gmap string jsstring) (k : string) : bool :=
  match getKey m k with
  | Absent | Str [] => false
  | Str _ | Inherited => true
  end.

(** [obj[k] === v] for a string [v]. *)
Definition holdsValue (m : gmap string jsstring) (k : string) (v : jsstring) : bool :=
  match getKey m k with
  | Str t => bool_decide (t = v)
  | Absent | Inherited => false
  end.

(** [str.split(';')] *)
Definition splitSemicolon (s : jsstring) : list jsstring :=
  splitOnSemicolonFrom [] s.

(** [arr.every(f)] for a callback that may throw: the scan stops at the
    first element that gives [false], and at the first that throws. *)
Fixpoint every {A : Type} (f : A → completion bool) (l : list A) : completion bool :=
  match l with
  | [] => Normal true
  | x :: rest =>
      match f x with
      | Normal true => every f rest
      | Normal false => Normal false
      | Throws => Throws
      end
  end.

(** The callback of [Object.keys(d.replace).some(...)], lines 206-212:
    whether the upgrade would put [replaceValue] over another value the
    entity holds for [replaceKey]. *)
Definition overwrites (tags : gmap string jsstring) (d : rule)
    (replaceKey : string) (replaceValue : jsstring) : bool :=
  if negb (holds tags replaceKey) || holds (objectOf (old d)) replaceKey then false
  else if bool_decide (replaceValue = star) then false
  else if holdsValue tags replaceKey replaceValue then false
  else true.

(** [hasExistingValues], lines 205-213. *)
Definition hasExistingValues (tags : gmap string jsstring) (d : rule) : bool :=
  match replace d with
  | Some entries => existsb (λ kv, overwrites tags d kv.1 kv.2) entries
  | None => false
  end.

(** The callback of [oldKeys.every(...)], lines 216-239.  For a key the
    entity's tags inherit from [Object.prototype], [tags[oldKey].split] is
    no function and the call throws. *)
Definition matchesOld (tags : gmap string jsstring) (d : rule)
    (oldKey : string) (oldValue : jsstring) : completion bool :=
  match getKey tags oldKey with
  | Absent | Str [] => Normal false
  | Inherited => if bool_decide (oldValue = star) then Normal true else Throws
  | Str t =>
      if bool_decide (oldValue = star) then Normal true
      else if bool_decide (oldValue = t) then Normal true
      else
        let vals := filter (λ v, v ≠ []) (splitSemicolon t) in
        match length vals with
        | 0 => Normal false
        | 1 =>
            if bool_decide (t = oldValue) then
              match replace d with
              | Some entries =>
                  if holdsValue (objectOf entries) oldKey oldValue
                  then Normal (negb (forallb (λ kv, holdsValue tags kv.1 kv.2) entries))
                  else Normal true
              | None => Normal true
              end
            else Normal false
        | _ => Normal (bool_decide (oldValue ∈ vals))
        end
  end.

(** The callback of [dataDeprecated.forEach(...)], lines 203-243: whether
    [d] is pushed to [results]. *)
Definition flags (tags : gmap string jsstring) (d : rule) : completion bool :=
  if hasExistingValues tags d then Normal false
  else every (λ kv, matchesOld tags d kv.1 kv.2) (old d).

(** One round of the [forEach]. *)
Definition visit (tags : gmap string jsstring)
    (acc : completion (list rule)) (d : rule) : completion (list rule) :=
  match acc with
  | Throws => Throws
  | Normal results =>
      match flags tags d with
      | Normal true => Normal (results ++ [d])
      | Normal false => Normal results
      | Throws => Throws
      end
  end.

(** [deprecatedTags(dataDeprecated)] on an entity whose [tags] are
    [tags]. *)
Definition deprecatedTags (tags : gmap string jsstring) (dataDeprecated : list rule)
  : completion (list rule) :=
  if bool_decide (tags = ∅) then Normal []
  else foldl (visit tags) (Normal []) dataDeprecated.

(** *** What the rules say *)

(** The non-empty pieces of a tag value. *)
Definition pieces (t : jsstring) : list jsstring :=
  filter (λ v, v ≠ []) (splitSemicolon t).

(** An old tag [oldKey=oldValue] agrees with the entity's tags: the key is
    held with a non-empty value, and the rule asks for any value, or for
    that very value, or for one of its two or more pieces. *)
Definition agrees (tags : gmap string jsstring) (oldKey : string) (oldValue : jsstring)
  : bool :=
  match tags !! oldKey with
  | Some t =>
      negb (bool_decide (t = [])) &&
      (bool_decide (oldValue = star) || bool_decide (oldValue = t) ||
       (bool_decide (2 ≤ length (pieces t)) && bool_decide (oldValue ∈ pieces t)))
  | None => false
  end.

(** The upgrade would overwrite: [replace] names a key the entity holds
    with a non-empty value other than the one to be put there, and [old]
    does not hold that key. *)
Definition wouldOverwrite (tags : gmap string jsstring) (d : rule) : bool :=
  match replace d with
  | Some entries =>
      existsb (λ kv,
        match tags !! kv.1 with
        | Some t =>
            negb (bool_decide (t = [])) &&
            negb (bool_decide (kv.2 = star)) && negb (bool_decide (kv.2 = t)) &&
            match objectOf (old d) !! kv.1 with
            | None | Some [] => true
            | Some _ => false
            end
        | None => false
        end) entries
  | None => false
  end.

Definition deprecated (tags : gmap string jsstring) (d : rule) : bool :=
  negb (wouldOverwrite tags d) && forallb (λ kv, agrees tags kv.1 kv.2) (old d).

(** No key of the rule names a property of [Object.prototype]. *)
Definition ordinary (d : rule) : Prop :=
  (∀ kv, kv ∈ old d → kv.1 ∉ objectPrototypeKeys) ∧
  (∀ entries kv, replace d = Some entries → kv ∈ entries → kv.1 ∉ objectPrototypeKeys).

(** *** [osmEntity.deprecatedTagValuesByKey] *)

(** One round of the [forEach] of [deprecatedTagValuesByKey] on the table
    built so far.  A key the table inherits from [Object.prototype] reads
    as truthy, and [push] on it throws. *)
Definition addRule (table : gmap string (list jsstring)) (d : rule)
  : completion (gmap string (list jsstring)) :=
  match old d with
  | [(oldKey, oldValue)] =>
      if bool_decide (oldValue = star) then Normal table
      else match table !! oldKey with
           | Some values => Normal (<[oldKey := values ++ [oldValue]]> table)
           | None =>
               if bool_decide (oldKey ∈ objectPrototypeKeys) then Throws
               else Normal (<[oldKey := [oldValue]]> table)
           end
  | _ => Normal table
  end.

(** The [forEach]: whether it ran to its end, and the table it leaves. *)
Fixpoint addRules (table : gmap string (list jsstring)) (data : list rule)
  : completion unit * gmap string (list jsstring) :=
  match data with
  | [] => (Normal (), table)
  | d :: rest =>
      match addRule table d with
      | Normal table' => addRules table' rest
      | Throws => (Throws, table)
      end
  end.

(** [osmEntity.deprecatedTagValuesByKey(dataDeprecated)], with the module
    variable [_deprecatedTagValuesByKey] ([None]: not yet set) passed in
    and out. *)
Definition deprecatedTagValuesByKey (memo : option (gmap string (list jsstring)))
    (dataDeprecated : list rule)
  : completion (gmap string (list jsstring)) * option (gmap string (list jsstring)) :=
  match memo with
  | Some table => (Normal table, memo)
  | None =>
      match addRules ∅ dataDeprecated with
      | (Normal _, table) => (Normal table, Some table)
      | (Throws, table) => (Throws, Some table)
      end
  end.

(** The values the rules with the single old tag [k=v], [v] other than
    [*], give for [k], in the order of the rules. *)
Definition valuesFor (k : string) (data : list rule) : list jsstring :=
  omap (λ d, match old d with
             | [(oldKey, oldValue)] =>
                 if bool_decide (oldKey = k) && negb (bool_decide (oldValue = star))
                 then Some oldValue else None
             | _ => None
             end) data.

(** What a table entry becomes when the values [values] are pushed to
    it. *)
Definition pushed (entry : option (list jsstring)) (values : list jsstring)
  : option (list jsstring) :=
  match entry with
  | Some held => Some (held ++ values)
  | None => if bool_decide (values = []) then None else Some values
  end.

(** No rule with a single old tag, other than a [k=*], has a key that
    names a property of [Object.prototype]. *)
Definition ordinaryKeys (data : list rule) : Prop :=
  ∀ d k v, d ∈ data → old d = [(k, v)] → v ≠ star → k ∉ objectPrototypeKeys.

(** The rules [DataLoaderSystem] holds for the tests:
    [{ old: { highway: 'no' } }] and
    [{ old: { highway: 'ford' }, replace: { ford: '*' } }]. *)
Definition highwayNo : rule := Rule [("highway", lit "no")] None.
Definition highwayFord : rule :=
  Rule [("highway", lit "ford")] (Some [("ford", lit "*")]).

End Deprecated.

(** ** Sessions of [HudhudStreetsService] *)

Module StreetsSession.
Import Streets.

(** [resetAsync()]: every request in flight is aborted and the cache is
    replaced by an empty one.  The method then sets [this.lastv], a
    property nothing reads; [_lastv] keeps its value. *)
Definition resetAsync (s : service) : service :=
  Service [] ∅ ∅ ∅ (lastv s) (nextController s)
          (aborted s ∪ list_to_set (snd <$> map_to_list (inflight s)))
          (emitted s) (redraws s) (console s).

(** What happens to the service in a session: [loadTiles] is called for
    a viewport version and the tiles of its view, the request for a tile
    settles (its handlers run one after the other), the service is
    reset. *)
Inductive event (response : Type) :=
| LoadTiles (v : Z) (tiles : list string)
| Settled (tileId : string) (now : nat) (outcome : settled response)
| ResetAsync.
Arguments LoadTiles {response} v tiles.
Arguments Settled {response} tileId now outcome.
Arguments ResetAsync {response}.

Definition handle {response : Type}
    (utilFetchResponse : response → settled payload)
    (s : service) (e : event response) : service :=
  match e with
  | LoadTiles v tiles => loadTiles v tiles s
  | Settled tileId now outcome => settle utilFetchResponse tileId now outcome s
  | ResetAsync => resetAsync s
  end.

Definition run {response : Type}
    (utilFetchResponse : response → settled payload)
    (s : service) (events : list (event response)) : service :=
  foldl (handle utilFetchResponse) s events.

(** No tile is both loaded and in flight. *)
Definition consistent (s : service) : Prop :=
  ∀ tileId, tileId ∈ loaded s → inflight s !! tileId = None.

(** Each [new AbortController()] is an object of its own: the requests
    in flight have different controllers, all made before the next one. *)
Definition distinctControllers (s : service) : Prop :=
  (∀ tileId c, inflight s !! tileId = Some c → c < nextController s) ∧
  (∀ t1 t2 c, inflight s !! t1 = Some c → inflight s !! t2 = Some c → t1 = t2).

(** The image as the data handler stores it. *)
Definition stamp (now : nat) (i : image) : image :=
  Image (imageId i) (lng i) (lat i)
        (Some "https://static.maptoolkit.net/examplepano.jpg") (Some now).

End StreetsSession.

(** ** The selection of [operationExtract] *)

Module ExtractSelection.

Section selection.
Context {Entity : Type}.
Variable hasEntity : string → option Entity.
Variable geometry : string → string.
Variable entityType : Entity → string.
Variable hasInterestingTags : Entity → bool.
Variable parentWaysLength : Entity → nat.
Variable presetGeometry : Entity → list string.

(** The tests of lines 19-29, one after the other: whether the callback of
    [selectedIDs.map] gets as far as building an action for [entityID]. *)
Definition extractable (entityID : string) : bool :=
  match hasEntity entityID with
  | None => false
  | Some entity =>
      hasInterestingTags entity &&
      negb (bool_decide (entityType entity = "node") && (parentWaysLength entity =? 0)) &&
      negb ((bool_decide (geometry entityID = "area") ||
             bool_decide (geometry entityID = "line")) &&
            negb (bool_decide ("point" ∈ presetGeometry entity)))
  end.

End selection.

End ExtractSelection.

(** ** [DataLoaderSystem]: [modules/core/DataLoaderSystem.js] *)

Module DataLoader.
Import Entity.

(** The [fileMap] the constructor builds. *)
Definition fileMap : gmap string string :=
  list_to_map
    [("address_formats", "data/address_formats.min.json");
     ("deprecated", "https://cdn.jsdelivr.net/npm/@openstreetmap/id-tagging-schema@6.0/dist/deprecated.min.json");
     ("discarded", "https://cdn.jsdelivr.net/npm/@openstreetmap/id-tagging-schema@6.0/dist/discarded.min.json");
     ("imagery", "data/imagery.min.json");
     ("intro_graph", "data/intro_graph.min.json");
     ("intro_rapid_graph", "data/intro_rapid_graph.min.json");
     ("keepRight", "data/keepRight.min.json");
     ("languages", "data/languages.min.json");
     ("locales", "locales/index.min.json");
     ("oci_defaults", "https://cdn.jsdelivr.net/npm/osm-community-index@5.5/dist/defaults.min.json");
     ("oci_features", "https://cdn.jsdelivr.net/npm/osm-community-index@5.5/dist/featureCollection.min.json");
     ("oci_resources", "https://cdn.jsdelivr.net/npm/osm-community-index@5.5/dist/resources.min.json");
     ("phone_formats", "data/phone_formats.min.json");
     ("preset_categories", "https://cdn.jsdelivr.net/npm/@openstreetmap/id-tagging-schema@6.0/dist/preset_categories.min.json");
     ("preset_defaults", "https://cdn.jsdelivr.net/npm/@openstreetmap/id-tagging-schema@6.0/dist/preset_defaults.min.json");
     ("preset_fields", "https://cdn.jsdelivr.net/npm/@openstreetmap/id-tagging-schema@6.0/dist/fields.min.json");
     ("preset_presets", "https://cdn.jsdelivr.net/npm/@openstreetmap/id-tagging-schema@6.0/dist/presets.min.json");
     ("qa_data", "data/qa_data.min.json");
     ("shortcuts", "data/shortcuts.min.json");
     ("territory_languages", "data/territory_languages.min.json");
     ("wmf_sitematrix", "https://cdn.jsdelivr.net/npm/wmf-sitematrix@0.1/wikipedia.min.json")].

(** The double quote, and the two messages, which put the file id
    between double quotes. *)
Definition quote : string := String (Ascii.ascii_of_nat 34) EmptyString.

Definition unknownFile (fileID : string) : string :=
  "Unknown data file for " +:+ quote +:+ fileID +:+ quote.

Definition noData (fileID : string) : string :=
  "No data loaded for " +:+ quote +:+ fileID +:+ quote.

(** What a promise is rejected with: the string [get] makes for an unknown
    file, an [Error] made by the handlers, or whatever [fetch] or
    [response.json()] failed with. *)
Inductive reason :=
| Message (text : string)
| ErrorOf (message : string)
| Failure (ref : nat).

Inductive settled (A : Type) :=
| Fulfilled (a : A)
| Rejected (r : reason).
Arguments Fulfilled {A} a.
Arguments Rejected {A} r.

Section DataLoaderSystem.

(** The values of JSON, known by their truthiness, and
    [context.asset]. *)
Context {Json : Type}.
Variable truthy : Json → bool.
Variable asset : string → string.

(** A response: [ok], [status], [statusText], and what [response.json()]
    settles with ([None]: the response has no [json]). *)
Record response := Response {
  ok : bool;
  status : Z;
  statusText : string;
  json : option (settled Json)
}.

(** The system: [_cachedData] and [_inflight], the latter with the promise
    held for each url; the promises made so far are numbered, and the urls
    [fetch] was called with are listed. *)
Record system := System {
  _cachedData : gmap string Json;
  _inflight : gmap string nat;
  nextPromise : nat;
  fetched : list string
}.

(** What [get] returns. *)
Inductive returned :=
| Resolved (data : Json)
| ResolvedInherited
| RejectedUnknown (r : reason)
| Promise (p : nat)
| InheritedValue.

(** [get(fileID)].  Both [_cachedData] and [_inflight] are plain objects:
    a name of [Object.prototype] that they do not own reads as the
    inherited property, which is truthy. *)
Definition get (fileID : string) (st : system) : returned * system :=
  let fetchIt :=
    match fileMap !! fileID with
    | None => (RejectedUnknown (Message (unknownFile fileID)), st)
    | Some file =>
        let url := asset file in
        if bool_decide (url = EmptyString) then
          (RejectedUnknown (Message (unknownFile fileID)), st)
        else
          match _inflight st !! url with
          | Some prom => (Promise prom, st)
          | None =>
              if bool_decide (url ∈ objectPrototypeKeys) then (InheritedValue, st)
              else (Promise (nextPromise st),
                    System (_cachedData st) (<[url := nextPromise st]> (_inflight st))
                           (S (nextPromise st)) (fetched st ++ [url]))
          end
    end in
  match _cachedData st !! fileID with
  | Some data => if truthy data then (Resolved data, st) else fetchIt
  | None =>
      if bool_decide (fileID ∈ objectPrototypeKeys) then (ResolvedInherited, st)
      else fetchIt
  end.

(** The first handler, [response => { ... }]: the parsed data, or
    [undefined] for a response without content. *)
Definition onResponse (resp : response) : settled (option Json) :=
  let failed := Rejected (ErrorOf (pretty (status resp) +:+ " " +:+ statusText resp)) in
  match json resp with
  | None => failed
  | Some parsed =>
      if negb (ok resp) && negb (status resp =? 0)%Z then failed
      else if (status resp =? 204)%Z || (status resp =? 205)%Z then Fulfilled None
      else match parsed with
           | Fulfilled data => Fulfilled (Some data)
           | Rejected r => Rejected r
           end
  end.

(** What the promise chain of [get(fileID)] for [url] does once [fetch]
    has settled with [outcome]: the handlers [result => { ... }] and
    [err => { ... }], and what the promise settles with. *)
Definition settle (fileID url : string) (outcome : settled response) (st : system)
  : settled Json * system :=
  let cleared := System (_cachedData st) (delete url (_inflight st))
                        (nextPromise st) (fetched st) in
  let result := match outcome with
                | Fulfilled resp => onResponse resp
                | Rejected r => Rejected r
                end in
  match result with
  | Fulfilled (Some data) =>
      if truthy data
      then (Fulfilled data,
            System (<[fileID := data]> (_cachedData st)) (delete url (_inflight st))
                   (nextPromise st) (fetched st))
      else (Rejected (ErrorOf (noData fileID)), cleared)
  | Fulfilled None =>
      (Rejected (ErrorOf (noData fileID)), cleared)
  | Rejected r => (Rejected r, cleared)
  end.

(** A system that has loaded and fetched nothing. *)
Definition idle : system := System ∅ ∅ 0 [].

End DataLoaderSystem.

End DataLoader.

(** ** [rendererBackground]: the base layer and the overlays *)

Module Background.

Section rendererBackground.

(** The imagery sources, compared as objects are ([===]), with their [id]
    ([None] when they have none) and [template()]; the regular expressions
    of the blocklists, with [regex.test(template)]; and the test of the
    expression of line 771, used when there is no blocklist. *)
Context {Source Regex : Type} `{EqDecision Source}.
Variable sourceId : Source → option string.
Variable template : Source → string.
Variable test : Regex → string → bool.
Variable googleTiles : string → bool.

(** [_source], [_overlayLayers], [_imageryIndex.backgrounds] ([None]
    before the index is loaded) and the number of [change] events
    dispatched. *)
Record background := Background {
  _source : option Source;
  _overlayLayers : list Source;
  backgrounds : option (list Source);
  changes : nat
}.

(** [background.findSource(id)] *)
Definition findSource (id : string) (b : background) : option Source :=
  if bool_decide (id = EmptyString) then None else
  match backgrounds b with
  | None => None
  | Some sources =>
      snd <$> list_find (λ d, sourceId d = Some id) sources
  end.

(** The loop of [baseLayerSource] over the blocklists: [fail] and
    [tested] when it ends. *)
Fixpoint scan (templ : string) (fail : bool) (tested : nat) (blocklists : list Regex)
  : bool * nat :=
  match blocklists with
  | [] => (fail, tested)
  | regex :: rest =>
      if test regex templ then (true, S tested)
      else scan templ false (S tested) rest
  end.

(** [background.baseLayerSource(d)]; [connection] holds
    [osm.imageryBlocklists()], or [None] when [context.connection()] gives
    nothing.  The call dispatches [change] and calls [updateImagery], which
    writes the url hash and the imagery the history lists as used; those
    are not part of the model. *)
Definition baseLayerSource (connection : option (list Regex)) (d : Source)
    (b : background) : background :=
  match connection with
  | None => b
  | Some blocklists =>
      let '(fail, tested) := scan (template d) false 0 blocklists in
      let fail := if tested =? 0 then googleTiles (template d) else fail in
      Background (if fail then findSource "none" b else Some d)
                 (_overlayLayers b) (backgrounds b) (S (changes b))
  end.

(** [background.toggleOverlayLayer(d)]: the first occurrence of [d] is
    spliced out, or [d] is pushed; either way [change] is dispatched (and
    [updateImagery] called). *)
Definition toggleOverlayLayer (d : Source) (b : background) : background :=
  Background (_source b)
             (match list_find (λ layer, layer = d) (_overlayLayers b) with
              | Some (i, _) => delete i (_overlayLayers b)
              | None => _overlayLayers b ++ [d]
              end)
             (backgrounds b) (S (changes b)).

(** [background.showsLayer(d)] *)
Definition showsLayer (d : option Source) (b : background) : bool :=
  match d, _source b with
  | Some d, Some currSource =>
      bool_decide (sourceId d = sourceId currSource) ||
      existsb (λ layer, bool_decide (sourceId d = sourceId layer)) (_overlayLayers b)
  | _, _ => false
  end.

(** The template is rejected: it matches an expression of the blocklists,
    or, without blocklists, the expression of line 771. *)
Definition blocked (blocklists : list Regex) (templ : string) : bool :=
  match blocklists with
  | [] => googleTiles templ
  | _ => existsb (λ regex, test regex templ) blocklists
  end.

(** The background after the overlays [ds] were toggled one after the
    other. *)
Definition toggled (ds : list Source) (b : background) : background :=
  foldl (λ acc d, toggleOverlayLayer d acc) b ds.

End rendererBackground.

End Background.

(** * Properties *)

(** ** Truncation by code points *)

Module JsStringFacts.
Import JsString.

(** Induction two code units at a time, as [codePoints] recurses. *)
Lemma jsstring_pair_ind (P : jsstring → Prop) :
  P [] →
  (∀ c, P [c]) →
  (∀ c d rest, P rest → P (d :: rest) → P (c :: d :: rest)) →
  ∀ s, P s.
Proof.
  intros Hnil Hone Hstep s.
  assert (P s ∧ ∀ c, P (c :: s)) as [H _]; [|exact H].
  induction s as [|d rest [IH1 IH2]]; split; auto.
Qed.

Lemma codePoints_cons (c d : N) (rest : jsstring) :
  codePoints (c :: d :: rest) =
    if isHighSurrogate c && isLowSurrogate d
    then [c; d] :: codePoints rest
    else [c] :: codePoints (d :: rest).
Proof. reflexivity. Qed.

(** The elements of [Array.from(str)] put together give [str] back. *)
Lemma concat_codePoints (s : jsstring) : concat (codePoints s) = s.
Proof.
  induction s as [|c|c d rest IH1 IH2] using jsstring_pair_ind; [done..|].
  rewrite codePoints_cons.
  destruct (isHighSurrogate c && isLowSurrogate d).
  - change (c :: d :: concat (codePoints rest) = c :: d :: rest). by rewrite IH1.
  - change (c :: concat (codePoints (d :: rest)) = c :: d :: rest). by rewrite IH2.
Qed.

(** A non-empty string begins with the code unit its first code point
    begins with. *)
Lemma concat_take_codePoints_head (m : nat) (d : N) (rest : jsstring) :
  m = 0 ∨ ∃ tail, concat (take m (codePoints (d :: rest))) = d :: tail.
Proof.
  destruct m as [|m]; [by left|right].
  destruct rest as [|e rest]; [by eexists|].
  rewrite codePoints_cons.
  destruct (isHighSurrogate d && isLowSurrogate e); by eexists.
Qed.

(** Cutting after whole code points never splits or joins one: reading the
    truncated string again gives exactly the code points kept. *)
Lemma codePoints_truncated (s : jsstring) (limit : nat) :
  codePoints (utilUnicodeCharsTruncated s limit) = take limit (codePoints s).
Proof.
  unfold utilUnicodeCharsTruncated. revert limit.
  induction s as [|c|c d rest IH1 IH2] using jsstring_pair_ind; intros limit.
  - by destruct limit.
  - destruct limit; [done|]. simpl. by rewrite take_nil.
  - destruct limit as [|m]; [done|].
    rewrite codePoints_cons.
    destruct (isHighSurrogate c && isLowSurrogate d) eqn:Hpair.
    + change (codePoints (c :: d :: concat (take m (codePoints rest)))
              = [c; d] :: take m (codePoints rest)).
      rewrite codePoints_cons, Hpair. by rewrite IH1.
    + change (codePoints (c :: concat (take m (codePoints (d :: rest))))
              = [c] :: take m (codePoints (d :: rest))).
      destruct (concat_take_codePoints_head m d rest) as [->|[tail Htail]];
        [done|].
      specialize (IH2 m). rewrite Htail in IH2 |- *.
      rewrite codePoints_cons, Hpair. by rewrite IH2.
Qed.

(** The truncated string has at most [limit] code points. *)
Lemma utilUnicodeCharsCount_truncated (s : jsstring) (limit : nat) :
  utilUnicodeCharsCount (utilUnicodeCharsTruncated s limit)
  = min limit (utilUnicodeCharsCount s).
Proof.
  unfold utilUnicodeCharsCount. rewrite codePoints_truncated.
  rewrite length_take. lia.
Qed.

(** The truncated string is a prefix of the string. *)
Lemma utilUnicodeCharsTruncated_prefix (s : jsstring) (limit : nat) :
  utilUnicodeCharsTruncated s limit `prefix_of` s.
Proof.
  unfold utilUnicodeCharsTruncated.
  exists (concat (drop limit (codePoints s))).
  rewrite <- concat_app, take_drop. symmetry. apply concat_codePoints.
Qed.

(** A string within the budget is left as it is. *)
Lemma utilUnicodeCharsTruncated_short (s : jsstring) (limit : nat) :
  utilUnicodeCharsCount s ≤ limit → utilUnicodeCharsTruncated s limit = s.
Proof.
  unfold utilUnicodeCharsTruncated, utilUnicodeCharsCount. intros H.
  rewrite take_ge by done. apply concat_codePoints.
Qed.

End JsStringFacts.

(** ** Entities *)

Module EntityFacts.
Import JsString Entity JsStringFacts.

(** What one pass of the loop of [initialize] leaves in each property. *)
Lemma copyProps_lookup (this source : gmap string value) (p : string) :
  p ≠ "__proto__" →
  copyProps this source !! p =
    match source !! p with
    | Some VUndefined => None
    | Some v => Some v
    | None => this !! p
    end.
Proof.
  intros Hp. unfold copyProps.
  apply (map_fold_weak_ind (λ r m, r !! p = match m !! p with
                                      | Some VUndefined => None
                                      | Some v => Some v
                                      | None => this !! p end)).
  - by rewrite lookup_empty.
  - intros i x m r Hi IH. unfold assignProp.
    destruct (decide (i = p)) as [->|Hne].
    + rewrite lookup_insert_eq, (bool_decide_false (p = "__proto__")) by done.
      destruct x; by rewrite ?lookup_delete_eq, ?lookup_insert_eq.
    + rewrite (lookup_insert_ne m) by done. rewrite <- IH.
      destruct x; try case_bool_decide;
        by rewrite ?lookup_delete_ne, ?lookup_insert_ne.
Qed.

(** No object gets an own property [__proto__] from [initialize]. *)
Lemma copyProps_proto (this source : gmap string value) :
  this !! "__proto__" = None → copyProps this source !! "__proto__" = None.
Proof.
  intros Hthis. unfold copyProps.
  apply (map_fold_weak_ind (λ r m, r !! "__proto__" = None)); [done|].
  intros i x m r Hi IH. unfold assignProp.
  destruct x; try case_bool_decide; try done;
    try (by rewrite lookup_insert_ne);
    destruct (decide (i = "__proto__")) as [->|Hne];
    by rewrite ?lookup_delete_eq, ?lookup_delete_ne.
Qed.

Lemma copied_lookup (o : object) (attrs : gmap string value) (p : string) :
  p ≠ "__proto__" →
  copied o attrs !! p =
    match attrs !! p with
    | Some VUndefined => None
    | Some v => Some v
    | None => match own o !! p with
              | Some VUndefined => None
              | other => other
              end
    end.
Proof.
  intros Hp. unfold copied. simpl. rewrite !copyProps_lookup, lookup_empty by done.
  destruct (attrs !! p) as [[]|]; try done.
  by destruct (own o !! p) as [[]|].
Qed.

Lemma osmEntity_id_frame (st st' : state) (ty : value) (id : string) :
  osmEntity_id st ty = Some (id, st') →
  heap st' = heap st ∧ nextv st' = nextv st.
Proof. unfold osmEntity_id. intros H. repeat case_match; by simplify_eq. Qed.

Lemma assignId_inv (st st2 : state) (o1 o2 : object) :
  assignId st o1 = Some (o2, st2) →
  heap st2 = heap st ∧ nextv st2 = nextv st ∧ proto o2 = proto o1 ∧
  (∀ p, p ≠ "id" → own o2 !! p = own o1 !! p) ∧
  (truthy (getProp o1 "id") = true → own o2 = own o1).
Proof.
  unfold assignId. intros H.
  destruct (negb (truthy (getProp o1 "id")) && truthy (getProp o1 "type")) eqn:Hid.
  - destruct (osmEntity_id st (getProp o1 "type")) as [[id st1]|] eqn:Hgen;
      [|done].
    apply osmEntity_id_frame in Hgen as [? ?]. simpl in H. simplify_eq.
    split_and!; try done.
    + intros p Hp. simpl. by rewrite lookup_insert_ne.
    + intros Ht. by rewrite Ht in Hid.
  - by simplify_eq.
Qed.

Lemma defaultVisible_lookup (o : object) (p : string) :
  p ≠ "visible" ∨ is_Some (own o !! "visible") →
  own (defaultVisible o) !! p = own o !! p.
Proof.
  unfold defaultVisible. intros Hp. case_bool_decide; [done|].
  destruct Hp as [Hp|Hp]; [|done]. simpl. by rewrite lookup_insert_ne.
Qed.

Lemma defaultVisible_proto (o : object) : proto (defaultVisible o) = proto o.
Proof. unfold defaultVisible. by case_bool_decide. Qed.

(** A constructor appends one object to the store and leaves [_nextv]. *)
Lemma construct_inv (st st' : state) (v : option string)
    (sources : list (gmap string value)) (r : nat) :
  construct st v sources = Some (r, st') →
  r = length (heap st) ∧ nextv st' = nextv st ∧
  ∃ o', heap st' = heap st ++ [o'] ∧ proto o' = v ∧
    (∀ p, p ≠ "id" → p ≠ "visible" →
          own o' !! p = foldl copyProps ∅ sources !! p) ∧
    (truthy (getProp (Object v (foldl copyProps ∅ sources)) "id") = true →
          own o' !! "id" = foldl copyProps ∅ sources !! "id") ∧
    (is_Some (foldl copyProps ∅ sources !! "visible") →
          own o' !! "visible" = foldl copyProps ∅ sources !! "visible").
Proof.
  unfold construct, initialize. cbn [heap nextv idnext]. intros H.
  destruct (existsb outsideModel sources); [done|].
  rewrite list_lookup_middle in H by done. cbn [mbind option_bind proto own] in H.
  destruct (assignId _ _) as [[o2 st2]|] eqn:Hassign; [|done].
  apply assignId_inv in Hassign as (Hh & Hn & Hp & Hother & Hidkeep).
  cbn [heap nextv idnext proto own mbind option_bind] in *.
  injection H as <- <-. cbn [heap nextv].
  split_and!; [done..|].
  exists (defaultVisible o2). rewrite Hh.
  rewrite insert_app_r_alt by done. rewrite Nat.sub_diag.
  split_and!; [done|by rewrite defaultVisible_proto|..].
  - intros p ? ?. rewrite defaultVisible_lookup by auto. by apply Hother.
  - intros Ht. rewrite defaultVisible_lookup by (by left). by rewrite Hidkeep.
  - intros Hvis. rewrite <- Hother in Hvis by done.
    rewrite defaultVisible_lookup by auto. by apply Hother.
Qed.

(** [update] unfolded: it fails only by throwing before anything is
    allocated, and otherwise appends one object to the store and stamps
    it. *)
Lemma update_inv (st st' : state) (r : nat) (attrs : gmap string value)
    (out : completion nat) :
  update st r attrs = Some (out, st') →
  ∃ o, heap st !! r = Some o ∧
    ((out = Throws ∧ st' = st ∧ variantOf o = Some Throws) ∨
     (∃ v o', variantOf o = Some (Normal v) ∧
        out = Normal (length (heap st)) ∧
        heap st' = heap st ++ [o'] ∧
        nextv st' = (nextv st + 1)%Z ∧
        proto o' = v ∧
        own o' !! "v" = Some (VNum (nextv st)) ∧
        (∀ p, p ≠ "v" → p ≠ "id" → p ≠ "visible" →
              own o' !! p = copied o attrs !! p) ∧
        (truthy (getProp (Object v (copied o attrs)) "id") = true →
              own o' !! "id" = copied o attrs !! "id") ∧
        (is_Some (copied o attrs !! "visible") →
              own o' !! "visible" = copied o attrs !! "visible"))).
Proof.
  unfold update. intros H.
  destruct (heap st !! r) as [o|] eqn:Ho; [|done].
  exists o. split; [done|]. cbn [mbind option_bind] in H.
  unfold osmEntity in H.
  destruct (variantOf o) as [[v|]|] eqn:Hv; cbn [mbind option_bind] in H; [| |done].
  2:{ left. by simplify_eq. }
  right. exists v.
  destruct (construct st v _) as [[r1 st1]|] eqn:Hc; cbn [mbind option_bind] in H;
    [|done].
  apply construct_inv in Hc as (-> & Hn & o1 & Hh & Hp & Hother & Hid & Hvis).
  unfold touch in H. rewrite Hh in H.
  rewrite list_lookup_middle in H by done. cbn [mbind option_bind] in H.
  rewrite insert_app_r_alt in H by done. rewrite Nat.sub_diag in H.
  simplify_eq. cbn [heap nextv].
  exists (setOwn o1 "v" (VNum (nextv st1))). rewrite Hn.
  split_and!; try done; cbn [own setOwn].
  - by rewrite lookup_insert_eq.
  - intros p ? ? ?. rewrite lookup_insert_ne by done. by apply Hother.
  - intros Ht. rewrite lookup_insert_ne by done. by apply Hid.
  - intros Hv'. rewrite lookup_insert_ne by done. by apply Hvis.
Qed.

(** [Object.assign({}, tags)] copies every tag but an own [__proto__]. *)
Lemma objectAssign_empty (t : gmap string jsstring) :
  objectAssign ∅ t = delete "__proto__" t.
Proof.
  unfold objectAssign.
  apply (map_fold_weak_ind (λ r m, r = delete "__proto__" m)).
  - by rewrite delete_empty.
  - intros i x m r Hi ->. unfold setKey. case_bool_decide as Hp.
    + subst i. by rewrite delete_insert_eq.
    + by rewrite delete_insert_ne.
Qed.

Lemma mergeStep_own (k : string) (t2 : jsstring)
    (merged : gmap string jsstring) (changed : bool) :
  getKey merged k ≠ Inherited → k ≠ "__proto__" →
  mergeStep k t2 (Normal (merged, changed)) =
    Normal (if changes k (merged !! k) t2
            then (<[k := resolved k (merged !! k) t2]> merged, true)
            else (merged, changed)).
Proof.
  intros Hown Hk. unfold mergeStep, getKey, setKey, changes, resolved in *.
  rewrite (bool_decide_false (k = "__proto__")) by done.
  destruct (merged !! k) as [[|c t1]|] eqn:Hm; [done| |by case_bool_decide].
  repeat (case_bool_decide; simpl; try done).
Qed.

(** The loop of [mergeTags], key by key.  It runs to its end when no key
    of [tags] reads as a property inherited from [Object.prototype]. *)
Lemma mergeFold_spec (merged0 tags : gmap string jsstring) :
  merged0 !! "__proto__" = None →
  (∀ k, is_Some (tags !! k) → getKey merged0 k ≠ Inherited) →
  ∃ merged changed,
    map_fold mergeStep (Normal (merged0, false)) tags = Normal (merged, changed) ∧
    (∀ k, merged !! k = match tags !! k with
                        | Some t2 => if changes k (merged0 !! k) t2
                                     then Some (resolved k (merged0 !! k) t2)
                                     else merged0 !! k
                        | None => merged0 !! k
                        end) ∧
    (changed = true ↔ ∃ k t2, tags !! k = Some t2 ∧ changes k (merged0 !! k) t2 = true).
Proof.
  intros Hproto.
  apply (map_fold_weak_ind (λ r m,
    (∀ k, is_Some (m !! k) → getKey merged0 k ≠ Inherited) →
    ∃ merged changed, r = Normal (merged, changed) ∧
      (∀ k, merged !! k = match m !! k with
                          | Some t2 => if changes k (merged0 !! k) t2
                                       then Some (resolved k (merged0 !! k) t2)
                                       else merged0 !! k
                          | None => merged0 !! k
                          end) ∧
      (changed = true ↔ ∃ k t2, m !! k = Some t2 ∧ changes k (merged0 !! k) t2 = true))).
  - intros _. exists merged0, false. split_and!; [done|done|].
    split; [done|]. intros (k & t2 & Hk & _). by rewrite lookup_empty in Hk.
  - intros i x m r Hi IH Hown.
    destruct IH as (merged & changed & -> & Hlook & Hch).
    { intros k Hk. apply Hown. rewrite lookup_insert_ne; [done|].
      intros ->. rewrite Hi in Hk. by destruct Hk. }
    assert (merged !! i = merged0 !! i) as Hmi.
    { by rewrite Hlook, Hi. }
    assert (getKey merged0 i ≠ Inherited) as Hi0.
    { apply Hown. rewrite lookup_insert_eq. eauto. }
    assert (i ≠ "__proto__") as Hip.
    { intros ->. apply Hi0. unfold getKey. by rewrite Hproto. }
    rewrite mergeStep_own; [|by unfold getKey in *; rewrite Hmi|done].
    rewrite Hmi.
    destruct (changes i (merged0 !! i) x) eqn:Hci.
    + eexists _, true. split_and!; [done| |].
      * intros k. destruct (decide (i = k)) as [<-|Hne].
        -- by rewrite !lookup_insert_eq, Hci.
        -- rewrite !lookup_insert_ne by done. apply Hlook.
      * split; [|done]. intros _. exists i, x. by rewrite lookup_insert_eq.
    + exists merged, changed. split_and!; [done| |].
      * intros k. destruct (decide (i = k)) as [<-|Hne].
        -- by rewrite lookup_insert_eq, Hci.
        -- rewrite lookup_insert_ne by done. apply Hlook.
      * rewrite Hch. split; intros (k & t2 & Hk & Hc).
        -- exists k, t2. split; [|done]. rewrite lookup_insert_ne; [done|].
           intros ->. by rewrite Hi in Hk.
        -- exists k, t2. split; [|done].
           destruct (decide (i = k)) as [<-|Hne].
           ++ rewrite lookup_insert_eq in Hk. simplify_eq. congruence.
           ++ by rewrite lookup_insert_ne in Hk.
Qed.

Lemma osmEntity_id_defined (st : state) (ty : value) :
  primitive ty → truthy ty = true → is_Some (osmEntity_id st ty).
Proof.
  unfold osmEntity_id. destruct ty; try done; intros _ _; [eauto..|].
  case_match; eauto.
Qed.

Lemma assignId_defined (st : state) (o1 : object) :
  primitive (getProp o1 "type") → is_Some (assignId st o1).
Proof.
  intros Hprim. unfold assignId.
  destruct (negb (truthy (getProp o1 "id")) && truthy (getProp o1 "type")) eqn:Hc;
    [|eauto].
  apply andb_true_iff in Hc as [_ Ht].
  destruct (osmEntity_id_defined st _ Hprim Ht) as [[id st'] ->]. simpl. eauto.
Qed.

Lemma variantOf_defined (o : object) :
  (∀ p v, p = "type" ∨ p = "id" → own o !! p = Some v → primitive v) →
  is_Some (variantOf o).
Proof.
  intros Hprim. unfold variantOf.
  assert (∀ p, p = "type" ∨ p = "id" → primitive (getProp o p)) as Hget.
  { intros p Hp. unfold getProp. destruct (own o !! p) eqn:Ho; [by eapply Hprim|].
    case_bool_decide; [|done]. by destruct (proto o). }
  pose proof (Hget "type" (or_introl eq_refl)) as Ht.
  pose proof (Hget "id" (or_intror eq_refl)) as Hi.
  destruct (getProp o "type"), (getProp o "id"); simpl in *;
    repeat case_match; try done; eauto.
Qed.

(** [update] returns (with an entity or by throwing) whenever the receiver
    exists and neither it nor the patch holds an opaque object as [type]
    or [id]. *)
Lemma update_defined (st : state) (r : nat) (o : object) (attrs : gmap string value) :
  heap st !! r = Some o →
  plain (own o) → plain attrs →
  ∃ out st', update st r attrs = Some (out, st').
Proof.
  intros Ho [Hpo Hso] [Hpa Hsa].
  assert (∀ p v, p = "type" ∨ p = "id" →
            own o !! p = Some v ∨ attrs !! p = Some v → primitive v) as Hprim.
  { intros p v Hp [H|H]; eauto. }
  unfold update. rewrite Ho. cbn [mbind option_bind].
  unfold osmEntity.
  destruct (variantOf_defined o) as [[v|] Hv]; [by intros; eapply Hprim; eauto| |].
  2:{ rewrite Hv. cbn [mbind option_bind]. eauto. }
  rewrite Hv. cbn [mbind option_bind].
  unfold construct, initialize. cbn [heap nextv idnext fmap list_fmap existsb own].
  rewrite Hso, Hsa. cbn [orb].
  rewrite list_lookup_middle by done. cbn [mbind option_bind proto own].
  fold (copied o attrs).
  destruct (assignId_defined
              (State (heap st ++ [Object v ∅]) (nextv st) (idnext st))
              (Object v (copied o attrs))) as [[o2 st2] Ha].
  { unfold getProp. cbn [own proto]. rewrite copied_lookup by done.
    destruct (attrs !! "type") as [x|] eqn:Hat.
    - assert (primitive x) by (apply (Hprim "type"); [by left|by right]).
      destruct x; try done. simpl. by destruct v.
    - destruct (own o !! "type") as [x|] eqn:Hot.
      + assert (primitive x) by (apply (Hprim "type"); [by left|by left]).
        destruct x; try done. simpl. by destruct v.
      + simpl. by destruct v. }
  rewrite Ha. cbn [mbind option_bind].
  apply assignId_inv in Ha as (Hh & _). cbn [heap] in Hh.
  unfold touch. cbn [heap]. rewrite Hh.
  rewrite insert_app_r_alt by done. rewrite Nat.sub_diag. cbn [insert list_insert].
  rewrite list_lookup_middle by done. cbn [mbind option_bind]. eauto.
Qed.

Lemma variantOf_normal_type (o : object) (v : option string) (x : value) :
  variantOf o = Some (Normal v) → own o !! "type" = Some x → primitive x.
Proof.
  unfold variantOf, getProp. intros Hv Hx. rewrite Hx in Hv.
  destruct x; try done; simpl in Hv; repeat case_match; simplify_eq.
Qed.

(** On an entity of a known variant, [update] with a patch that leaves
    [type] alone returns a new entity. *)
Lemma update_normal (st : state) (r : nat) (o : object) (v : option string)
    (attrs : gmap string value) :
  heap st !! r = Some o → variantOf o = Some (Normal v) →
  outsideModel (own o) = false → outsideModel attrs = false →
  attrs !! "type" = None →
  ∃ st', update st r attrs = Some (Normal (length (heap st)), st').
Proof.
  intros Ho Hv Hso Hsa Hat. unfold update. rewrite Ho. cbn [mbind option_bind].
  unfold osmEntity. rewrite Hv. cbn [mbind option_bind].
  unfold construct, initialize. cbn [heap nextv idnext fmap list_fmap existsb own].
  rewrite Hso, Hsa. cbn [orb].
  rewrite list_lookup_middle by done. cbn [mbind option_bind proto own].
  fold (copied o attrs).
  destruct (assignId_defined
              (State (heap st ++ [Object v ∅]) (nextv st) (idnext st))
              (Object v (copied o attrs))) as [[o2 st2] Ha].
  { unfold getProp. cbn [own proto]. rewrite copied_lookup, Hat by done.
    destruct (own o !! "type") as [x|] eqn:Hot.
    - pose proof (variantOf_normal_type o v x Hv Hot). destruct x; try done.
      simpl. by destruct v.
    - simpl. by destruct v. }
  rewrite Ha. cbn [mbind option_bind].
  apply assignId_inv in Ha as (Hh & _). cbn [heap] in Hh.
  unfold touch. cbn [heap]. rewrite Hh.
  rewrite insert_app_r_alt by done. rewrite Nat.sub_diag. cbn [insert list_insert].
  rewrite list_lookup_middle by done. cbn [mbind option_bind]. eauto.
Qed.


Lemma foldl_copyProps_None (sources : list (gmap string value))
    (this : gmap string value) (p : string) :
  p ≠ "__proto__" →
  this !! p = None → (∀ s, s ∈ sources → s !! p = None) →
  foldl copyProps this sources !! p = None.
Proof.
  intros Hp. revert this.
  induction sources as [|s sources IH]; intros this Hthis Hs; [done|].
  simpl. apply IH.
  - rewrite copyProps_lookup, (Hs s) by (done || apply list_elem_of_here). done.
  - intros s' Hs'. apply Hs. by apply list_elem_of_further.
Qed.

Lemma update_step (st st' : state) (r : nat) (attrs : gmap string value)
    (out : completion nat) :
  update st r attrs = Some (out, st') →
  stampsBelow st →
  stampsBelow st' ∧ (nextv st ≤ nextv st')%Z ∧ heap st `prefix_of` heap st'.
Proof.
  intros Hup Hinv.
  destruct (update_inv _ _ _ _ _ Hup) as (o & Ho & [(-> & -> & _)|Hcase]).
  { split_and!; [done|lia|done]. }
  destruct Hcase as (v & o' & Hv & -> & Hh & Hn & Hp & Hstamp & _).
  split_and!; [|lia|by rewrite Hh; apply prefix_app_r].
  intros r0 o0 n Hr0 Hn0. rewrite Hh in Hr0.
  apply lookup_app_Some in Hr0 as [Hr0|[_ Hr0]].
  - specialize (Hinv _ _ _ Hr0 Hn0). lia.
  - apply list_lookup_singleton_Some in Hr0 as [_ <-].
    rewrite Hstamp in Hn0. simplify_eq. lia.
Qed.

Lemma step_invariant (st st' : state) :
  step st st' → stampsBelow st →
  stampsBelow st' ∧ (nextv st ≤ nextv st')%Z ∧ heap st `prefix_of` heap st'.
Proof.
  intros Hstep Hinv. destruct Hstep as [st args out st' Hnov Hc|st r attrs out st' Hup|st r tags out st' Hm].
  - unfold osmEntity in Hc.
    destruct (match args with [] => _ | _ => _ end) as [[v|]|];
      cbn [mbind option_bind] in Hc; [| |done].
    2:{ simplify_eq. split_and!; [done|lia|done]. }
    destruct (construct st v _) as [[r1 st1]|] eqn:Hcons;
      cbn [mbind option_bind] in Hc; [|done].
    simplify_eq.
    apply construct_inv in Hcons as (-> & Hn & o' & Hh & _ & Hother & _).
    split_and!; [|lia|by rewrite Hh; apply prefix_app_r].
    intros r0 o0 n Hr0 Hn0. rewrite Hh in Hr0.
    apply lookup_app_Some in Hr0 as [Hr0|[_ Hr0]].
    + specialize (Hinv _ _ _ Hr0 Hn0). lia.
    + apply list_lookup_singleton_Some in Hr0 as [_ <-].
      rewrite Hother in Hn0 by done.
      rewrite foldl_copyProps_None in Hn0; [done|done|done|].
      intros s Hs. apply list_elem_of_fmap in Hs as (a & -> & Ha). by apply Hnov.
  - by eapply update_step.
  - unfold mergeTags in Hm.
    destruct (heap st !! r) as [o|]; cbn [mbind option_bind] in Hm; [|done].
    destruct (thisTags o) as [t1|]; cbn [mbind option_bind] in Hm; [|done].
    destruct (mergeLoop t1 tags) as [[merged [|]]|].
    + by eapply update_step.
    + simplify_eq. split_and!; [done|lia|done].
    + simplify_eq. split_and!; [done|lia|done].
Qed.

Lemma steps_invariant (st st' : state) :
  rtc step st st' → stampsBelow st →
  stampsBelow st' ∧ (nextv st ≤ nextv st')%Z ∧ heap st `prefix_of` heap st'.
Proof.
  induction 1 as [st|st st1 st2 Hstep _ IH]; intros Hinv.
  - split_and!; [done|lia|done].
  - destruct (step_invariant _ _ Hstep Hinv) as (Hinv1 & Hle1 & Hpre1).
    destruct (IH Hinv1) as (Hinv2 & Hle2 & Hpre2).
    split_and!; [done|lia|by etrans].
Qed.

Lemma stampsBelow_init : stampsBelow init.
Proof. intros r o n Hr. by destruct r. Qed.


(** The merged value of two differing values is cut to 255 code points,
    counted as [Array.from] counts them, and left whole when it has no
    more. *)
Lemma unionValue_truncated (t1 t2 : jsstring) :
  let joined := join (utilArrayUnion (split t1) (split t2)) in
  utilUnicodeCharsCount (unionValue t1 t2) ≤ 255 ∧
  unionValue t1 t2 `prefix_of` joined ∧
  codePoints (unionValue t1 t2) = take 255 (codePoints joined) ∧
  (utilUnicodeCharsCount joined ≤ 255 → unionValue t1 t2 = joined).
Proof.
  unfold unionValue. cbv zeta. split_and!.
  - rewrite utilUnicodeCharsCount_truncated. lia.
  - apply utilUnicodeCharsTruncated_prefix.
  - apply codePoints_truncated.
  - apply utilUnicodeCharsTruncated_short.
Qed.

Lemma resolved_cases (k : string) (held : option jsstring) (t2 : jsstring) :
  (if changes k held t2 then Some (resolved k held t2) else held) =
    match held with
    | None => Some t2
    | Some a =>
        if bool_decide (a = []) then Some t2
        else if bool_decide (k = building) then
          Some (if bool_decide (t2 = yes) then a
                else if bool_decide (a = yes) then t2 else a)
        else if bool_decide (a = t2) then Some a
        else Some (unionValue a t2)
    end.
Proof.
  unfold changes, resolved. destruct held as [[|c a]|]; [done| |done].
  rewrite (bool_decide_false (c :: a = [])) by done.
  repeat (case_bool_decide; simpl; try done).
Qed.

Lemma getKey_own (m : gmap string jsstring) (k : string) :
  k ∉ objectPrototypeKeys ∨ is_Some (m !! k) → getKey m k ≠ Inherited.
Proof.
  unfold getKey. intros [Hk|[s ->]]; [|done].
  destruct (m !! k); [done|]. by rewrite bool_decide_false.
Qed.

Lemma update_tags (st st' : state) (r r' : nat) (merged : gmap string jsstring) :
  update st r {[ "tags" := VTags merged ]} = Some (Normal r', st') →
  tagsOf st' r' = Some merged.
Proof.
  intros Hup.
  destruct (update_inv _ _ _ _ _ Hup) as (o & Ho & [(? & _)|Hcase]); [done|].
  destruct Hcase as (v & o' & Hv & Hr' & Hh & _ & _ & _ & Hother & _).
  injection Hr' as ->. unfold tagsOf. rewrite Hh.
  rewrite list_lookup_middle by done. cbn [mbind option_bind].
  unfold thisTags. rewrite Hother by done.
  by rewrite copied_lookup, lookup_singleton_eq.
Qed.

(** C1, amended.  For an entity of a known variant and tag maps none of
    whose keys is a property name of [Object.prototype], [mergeTags]
    returns an entity whose tags are resolved key by key: a key missing
    from the argument keeps the receiver's value; a key missing from the
    receiver, or held there with the empty string, takes the argument's
    value; [building] keeps the receiver's value unless that is [yes] and
    the argument's is not, in which case it takes the argument's; any
    other key with two equal values keeps the value, and with two
    different values gets the union of the two lists, each split at every
    [;] together with the white space after it, without duplicates, joined
    by [;] and cut to 255 code points. *)
Theorem mergeTags_resolves (st : state) (r : nat) (o : object) (v : option string)
    (t1 tags : gmap string jsstring) :
  heap st !! r = Some o → variantOf o = Some (Normal v) →
  outsideModel (own o) = false → thisTags o = Some t1 →
  (∀ k, k ∈ objectPrototypeKeys → t1 !! k = None ∧ tags !! k = None) →
  ∃ merged, mergedTags st r tags = Some merged ∧
    (∀ k, merged !! k =
       match t1 !! k, tags !! k with
       | held, None => held
       | None, Some t2 => Some t2
       | Some a, Some t2 =>
           if bool_decide (a = []) then Some t2
           else if bool_decide (k = building) then
             Some (if bool_decide (t2 = yes) then a
                   else if bool_decide (a = yes) then t2 else a)
           else if bool_decide (a = t2) then Some a
           else Some (unionValue a t2)
       end) ∧
    (∀ a t2, utilUnicodeCharsCount (unionValue a t2) ≤ 255 ∧
             codePoints (unionValue a t2) =
               take 255 (codePoints (join (utilArrayUnion (split a) (split t2))))).
Proof.
  intros Ho Hv Hso Ht Hkeys.
  assert (t1 !! "__proto__" = None) as Hproto.
  { apply Hkeys. unfold objectPrototypeKeys. rewrite !elem_of_cons. tauto. }
  destruct (mergeFold_spec t1 tags Hproto) as (merged & changed & Hfold & Hlook & Hch).
  { intros k [t2 Hk]. apply getKey_own. left. intros Hin.
    destruct (Hkeys k Hin) as [_ Hnone]. by rewrite Hnone in Hk. }
  assert (∀ k, merged !! k =
       match t1 !! k, tags !! k with
       | held, None => held
       | None, Some t2 => Some t2
       | Some a, Some t2 =>
           if bool_decide (a = []) then Some t2
           else if bool_decide (k = building) then
             Some (if bool_decide (t2 = yes) then a
                   else if bool_decide (a = yes) then t2 else a)
           else if bool_decide (a = t2) then Some a
           else Some (unionValue a t2)
       end) as Hres.
  { intros k. rewrite Hlook. destruct (tags !! k) as [t2|]; [|by destruct (t1 !! k)].
    rewrite resolved_cases. by destruct (t1 !! k). }
  assert (∀ a t2, utilUnicodeCharsCount (unionValue a t2) ≤ 255 ∧
             codePoints (unionValue a t2) =
               take 255 (codePoints (join (utilArrayUnion (split a) (split t2)))))
    as Htrunc.
  { intros a t2. destruct (unionValue_truncated a t2) as (? & _ & ? & _). done. }
  unfold mergedTags, mergeTags. rewrite Ho. cbn [mbind option_bind]. rewrite Ht.
  cbn [mbind option_bind]. unfold mergeLoop.
  rewrite objectAssign_empty, delete_id by done. rewrite Hfold.
  destruct changed.
  - destruct (update_normal st r o v {[ "tags" := VTags merged ]} Ho Hv Hso)
      as [st' Hup]; [done..|].
    rewrite Hup. cbn [mbind option_bind].
    rewrite (update_tags _ _ _ _ _ Hup). eauto.
  - cbn [mbind option_bind]. unfold tagsOf. rewrite Ho. cbn [mbind option_bind].
    rewrite Ht. exists t1. split_and!; [done| |done].
    intros k. rewrite <- Hres, Hlook.
    destruct (tags !! k) as [t2|] eqn:Hk; [|done].
    destruct (changes k (t1 !! k) t2) eqn:Hc; [|done].
    assert (false = true) as Habs; [|done].
    apply Hch. eauto.
Qed.

(** Merging tags that add nothing returns the receiver itself and leaves
    the store, [_nextv] included, as it was: this holds when the argument
    has no own key [__proto__] and each of its keys is held by the receiver
    with the same, non-empty, value. *)
Theorem mergeTags_nothing_to_add (st : state) (r : nat) (o : object)
    (t1 tags : gmap string jsstring) :
  heap st !! r = Some o → thisTags o = Some t1 →
  tags !! "__proto__" = None →
  (∀ k t2, tags !! k = Some t2 → t2 ≠ [] ∧ t1 !! k = Some t2) →
  mergeTags st r tags = Some (Normal r, st).
Proof.
  intros Ho Ht Hproto Hsame.
  assert (∀ k t2, tags !! k = Some t2 → delete "__proto__" t1 !! k = Some t2) as Hdel.
  { intros k t2 Hk. rewrite lookup_delete_ne; [by apply Hsame|].
    intros <-. by rewrite Hproto in Hk. }
  destruct (mergeFold_spec (delete "__proto__" t1) tags)
    as (merged & changed & Hfold & _ & Hch).
  { apply lookup_delete_eq. }
  { intros k [t2 Hk]. apply getKey_own. right. rewrite (Hdel k t2 Hk). eauto. }
  unfold mergeTags. rewrite Ho. cbn [mbind option_bind]. rewrite Ht.
  cbn [mbind option_bind]. unfold mergeLoop. rewrite objectAssign_empty, Hfold.
  destruct changed; [|done].
  destruct Hch as [Hch _]. destruct (Hch eq_refl) as (k & t2 & Hk & Hc).
  rewrite (Hdel k t2 Hk) in Hc. destruct (Hsame k t2 Hk) as [Hne _].
  unfold changes in Hc. destruct t2; [done|].
  repeat (case_bool_decide; simpl in Hc; try done).
Qed.

Lemma getKey_inherited (m : gmap string jsstring) (k : string) :
  getKey m k = Inherited ↔ m !! k = None ∧ k ∈ objectPrototypeKeys.
Proof.
  unfold getKey. destruct (m !! k); [by split; [|intros []]|].
  case_bool_decide; by split; [|intros []].
Qed.

(** The loop of [mergeTags] throws exactly when some key of [tags] reads,
    in the copy of the receiver's tags, as a property inherited from
    [Object.prototype]. *)
Lemma mergeLoop_throws_iff (t1 tags : gmap string jsstring) :
  mergeLoop t1 tags = Throws ↔
  ∃ k, is_Some (tags !! k) ∧ getKey (objectAssign ∅ t1) k = Inherited.
Proof.
  unfold mergeLoop. set (m0 := objectAssign ∅ t1).
  apply (map_fold_weak_ind (λ r m,
    (∀ merged changed, r = Normal (merged, changed) →
       ∀ k, m !! k = None → merged !! k = m0 !! k) ∧
    (r = Throws ↔ ∃ k, is_Some (m !! k) ∧ getKey m0 k = Inherited))).
  - split.
    + intros merged changed [= <- <-]. done.
    + split; [done|]. intros (k & [x Hk] & _). by rewrite lookup_empty in Hk.
  - intros i x m r Hi [IH1 IH2].
    destruct r as [[merged changed]|].
    2:{ split; [done|]. split; [|done]. intros _.
        destruct IH2 as [IH2 _]. destruct (IH2 eq_refl) as (k & [y Hk] & Hinh).
        exists k. split; [|done]. rewrite lookup_insert_ne; [eauto|].
        intros <-. by rewrite Hi in Hk. }
    assert (getKey merged i = getKey m0 i) as Hget.
    { unfold getKey. by rewrite (IH1 merged changed eq_refl i Hi). }
    assert (∀ v k, <[i := x]> m !! k = None → setKey merged i v !! k = m0 !! k)
      as Hset.
    { intros v k Hk. apply lookup_insert_None in Hk as [Hk Hne].
      unfold setKey. case_bool_decide; [by eapply IH1|].
      rewrite lookup_insert_ne by done. by eapply IH1. }
    assert (∀ k, <[i := x]> m !! k = None → merged !! k = m0 !! k) as Hkeep.
    { intros k Hk. apply lookup_insert_None in Hk as [Hk Hne]. by eapply IH1. }
    assert ((∃ k, is_Some (<[i := x]> m !! k) ∧ getKey m0 k = Inherited) ↔
            getKey m0 i = Inherited) as Hex.
    { split.
      - intros (k & [y Hk] & Hinh). destruct (decide (i = k)) as [<-|Hne]; [done|].
        rewrite lookup_insert_ne in Hk by done.
        assert (Normal (merged, changed) = Throws) as Habs; [|done].
        apply IH2. eauto.
      - intros Hinh. exists i. rewrite lookup_insert_eq. eauto. }
    rewrite Hex. unfold mergeStep. rewrite Hget.
    destruct (getKey m0 i) as [|[|c t]|] eqn:Hm0.
    + split; [|by split]. intros ? ? [= <- <-]. apply Hset.
    + split; [|by split]. intros ? ? [= <- <-]. apply Hset.
    + split; [|by repeat case_bool_decide].
      intros merged' changed' Heq.
      repeat case_bool_decide; simplify_eq; auto.
    + apply getKey_inherited in Hm0 as [_ Hin].
      rewrite bool_decide_false.
      * by split.
      * intros ->. unfold building, objectPrototypeKeys in Hin.
        rewrite !elem_of_cons, elem_of_nil in Hin. decompose [or] Hin; done.
Qed.

(** C8 fails on the code: [mergeTags] throws whenever the argument has a
    key that names a property of [Object.prototype] and that the receiver
    does not hold.  [merged[k]] is then the inherited function or object:
    truthy, not a string, and without [split]. *)
Theorem mergeTags_throws_on_inherited_key (st : state) (r : nat) (o : object)
    (t1 tags : gmap string jsstring) (k : string) (t2 : jsstring) :
  heap st !! r = Some o → thisTags o = Some t1 →
  tags !! k = Some t2 → k ∈ objectPrototypeKeys → t1 !! k = None →
  mergeTags st r tags = Some (Throws, st).
Proof.
  intros Ho Ht Hk Hin Hnone. unfold mergeTags.
  rewrite Ho. cbn [mbind option_bind]. rewrite Ht. cbn [mbind option_bind].
  assert (mergeLoop t1 tags = Throws) as ->; [|done].
  apply mergeLoop_throws_iff. exists k. split; [eauto|].
  apply getKey_inherited. split; [|done].
  rewrite objectAssign_empty.
  destruct (decide (k = "__proto__")) as [->|Hne].
  - apply lookup_delete_eq.
  - by rewrite lookup_delete_ne.
Qed.

(** C10 fails on the code for every entity whose tags own the key
    [__proto__]: [Object.assign] does not copy that key, so in the loop
    [merged['__proto__']] is [Object.prototype], and [e.mergeTags(e.tags)]
    throws instead of returning [e]. *)
Theorem mergeTags_own_tags_throws (st : state) (r : nat) (o : object)
    (t1 : gmap string jsstring) :
  heap st !! r = Some o → thisTags o = Some t1 →
  is_Some (t1 !! "__proto__") →
  mergeTags st r t1 = Some (Throws, st).
Proof.
  intros Ho Ht Hproto. unfold mergeTags.
  rewrite Ho. cbn [mbind option_bind]. rewrite Ht. cbn [mbind option_bind].
  assert (mergeLoop t1 t1 = Throws) as ->; [|done].
  apply mergeLoop_throws_iff. exists "__proto__". split; [done|].
  apply getKey_inherited. split.
  - rewrite objectAssign_empty. apply lookup_delete_eq.
  - unfold objectPrototypeKeys. rewrite !elem_of_cons. tauto.
Qed.

(** Apart from that, [mergeTags] returns: on an entity of a known variant,
    when every key of the argument that names a property of
    [Object.prototype] is held by the receiver (and is not [__proto__]). *)
Theorem mergeTags_returns (st : state) (r : nat) (o : object) (v : option string)
    (t1 tags : gmap string jsstring) :
  heap st !! r = Some o → variantOf o = Some (Normal v) →
  outsideModel (own o) = false → thisTags o = Some t1 →
  (∀ k, is_Some (tags !! k) → k ∈ objectPrototypeKeys →
        k ≠ "__proto__" ∧ is_Some (t1 !! k)) →
  ∃ r' st', mergeTags st r tags = Some (Normal r', st').
Proof.
  intros Ho Hv Hso Ht Hkeys. unfold mergeTags.
  rewrite Ho. cbn [mbind option_bind]. rewrite Ht. cbn [mbind option_bind].
  destruct (mergeLoop t1 tags) as [[merged changed]|] eqn:Hloop.
  - destruct changed; [|eauto].
    destruct (update_normal st r o v {[ "tags" := VTags merged ]} Ho Hv Hso)
      as [st' Hup]; [done..|]. eauto.
  - apply mergeLoop_throws_iff in Hloop as (k & Hk & Hinh).
    apply getKey_inherited in Hinh as [Hnone Hin].
    destruct (Hkeys k Hk Hin) as [Hne [x Hx]].
    rewrite objectAssign_empty, lookup_delete_ne, Hx in Hnone by done. done.
Qed.

(** *** The claims on concrete sessions *)

(** The budget is in code points, not in bytes or code units: 256
    emoji (512 code units, 1024 bytes of UTF-8) are cut to 255 emoji,
    which are 510 code units and 1020 bytes. *)
Example truncation_counts_code_points :
  let emoji := [0xD83D; 0xDE00]%N in
  let cut := utilUnicodeCharsTruncated (concat (replicate 256 emoji)) 255 in
  cut = concat (replicate 255 emoji) ∧
  utilUnicodeCharsCount cut = 255 ∧ length cut = 510 ∧ utf8Bytes cut = 1020.
Proof. vm_compute. by repeat split. Qed.

(** C1, as stated, fails on two keys of one merge: the value ["a; b"] is
    split at [;] and the blank after it, so the union with ["c"] is
    ["a;b;c"] and not ["a; b;c"]; and the empty value of [name] is
    overwritten like a missing one, so [name] becomes ["x"] and not
    [";x"]. *)
Lemma mergeTags_not_semicolon_split :
  let st := sessionWith {[ "type" := VStr "node";
                           "tags" := VTags {[ "k" := lit "a; b"; "name" := lit "" ]} ]} in
  let tags : gmap string jsstring := {[ "k" := lit "c"; "name" := lit "x" ]} in
  ∃ merged, mergedTags st 0 tags = Some merged ∧
    merged !! "k" = Some (lit "a;b;c") ∧
    claimedUnion (lit "a; b") (lit "c") = lit "a; b;c" ∧
    merged !! "k" ≠ Some (claimedUnion (lit "a; b") (lit "c")) ∧
    merged !! "name" = Some (lit "x") ∧
    claimedUnion (lit "") (lit "x") = lit ";x" ∧
    merged !! "name" ≠ Some (claimedUnion (lit "") (lit "x")).
Proof.
  cbv zeta. eexists. split; [vm_compute; reflexivity|]. by vm_compute.
Qed.




(** C8 on an entity without tags and the argument [{ toString: 'x' }]. *)
Lemma mergeTags_throws_on_inherited_key_witness :
  mergeTags exampleNode 0 {[ "toString" := lit "x" ]} = Some (Throws, exampleNode).
Proof.
  apply (mergeTags_throws_on_inherited_key exampleNode 0 (objectAt exampleNode 0)
           ∅ {[ "toString" := lit "x" ]} "toString" (lit "x")).
  - reflexivity.
  - reflexivity.
  - reflexivity.
  - unfold objectPrototypeKeys. rewrite !elem_of_cons. tauto.
  - reflexivity.
Defined.

(** C10 on a node whose only tag has the key [__proto__]. *)
Lemma mergeTags_own_tags_throws_witness :
  let st := nodeWithTags {[ "__proto__" := lit "x" ]} in
  tagsOf st 0 = Some {[ "__proto__" := lit "x" ]} ∧
  mergeTags st 0 {[ "__proto__" := lit "x" ]} = Some (Throws, st).
Proof.
  cbv zeta. split; [reflexivity|].
  apply (mergeTags_own_tags_throws (nodeWithTags {[ "__proto__" := lit "x" ]}) 0
           (objectAt (nodeWithTags {[ "__proto__" := lit "x" ]}) 0)
           {[ "__proto__" := lit "x" ]}).
  - reflexivity.
  - reflexivity.
  - by eexists.
Defined.

(** An own tag [constructor] is merged like any other. *)
Lemma mergeTags_returns_witness :
  let st := nodeWithTags {[ "constructor" := lit "x" ]} in
  ∃ r' st', mergeTags st 0 {[ "constructor" := lit "y" ]} = Some (Normal r', st').
Proof.
  cbv zeta.
  apply (mergeTags_returns (nodeWithTags {[ "constructor" := lit "x" ]}) 0
           (objectAt (nodeWithTags {[ "constructor" := lit "x" ]}) 0)
           (Some "node") {[ "constructor" := lit "x" ]}).
  - reflexivity.
  - reflexivity.
  - reflexivity.
  - reflexivity.
  - intros k [x Hk] _. apply lookup_singleton_Some in Hk as [<- _].
    split; [done|]. by eexists.
Defined.

(** C1, amended, on a building way and tags that touch every case. *)
Lemma mergeTags_resolves_witness :
  let st := sessionWith {[ "type" := VStr "way";
       "tags" := VTags {[ "building" := lit "yes"; "name" := lit "A;B"; "height" := lit "3" ]} ]} in
  let t1 : gmap string jsstring := {[ "building" := lit "yes"; "name" := lit "A;B"; "height" := lit "3" ]} in
  let tags : gmap string jsstring := {[ "building" := lit "house"; "name" := lit "B; C"; "source" := lit "survey" ]} in
  ∃ merged, mergedTags st 0 tags = Some merged ∧
    (∀ k, merged !! k =
       match t1 !! k, tags !! k with
       | held, None => held
       | None, Some t2 => Some t2
       | Some a, Some t2 =>
           if bool_decide (a = []) then Some t2
           else if bool_decide (k = building) then
             Some (if bool_decide (t2 = yes) then a
                   else if bool_decide (a = yes) then t2 else a)
           else if bool_decide (a = t2) then Some a
           else Some (unionValue a t2)
       end) ∧
    (∀ a t2, utilUnicodeCharsCount (unionValue a t2) ≤ 255 ∧
             codePoints (unionValue a t2) =
               take 255 (codePoints (join (utilArrayUnion (split a) (split t2))))).
Proof.
  cbv zeta.
  eapply (mergeTags_resolves _ 0 _ (Some "way")).
  - reflexivity.
  - reflexivity.
  - reflexivity.
  - reflexivity.
  - intros k Hk. unfold objectPrototypeKeys in Hk.
    rewrite !elem_of_cons, elem_of_nil in Hk.
    destruct Hk as [->|[->|[->|[->|[->|[->|[->|[->|[->|[->|[->|[->|[]]]]]]]]]]]]];
      split; reflexivity.
Defined.

(** Merging its own tags into a way returns the way itself. *)
Lemma mergeTags_nothing_to_add_witness :
  let st := sessionWith {[ "type" := VStr "way";
       "tags" := VTags {[ "building" := lit "yes"; "name" := lit "A;B" ]} ]} in
  mergeTags st 0 {[ "building" := lit "yes"; "name" := lit "A;B" ]} = Some (Normal 0, st).
Proof.
  cbv zeta.
  eapply (mergeTags_nothing_to_add _ 0 _ {[ "building" := lit "yes"; "name" := lit "A;B" ]}).
  - reflexivity.
  - reflexivity.
  - reflexivity.
  - intros k t2 Hk. split; [|done].
    apply lookup_insert_Some in Hk as [[<- <-]|[_ Hk]]; [done|].
    by apply lookup_singleton_Some in Hk as [<- <-].
Defined.

End EntityFacts.

(** ** The ambiguous-crossing validator *)

Module CrossingFacts.
Import Crossing.

(** [validate] is the concatenation of the validator's output, entity by
    entity. *)
Lemma validate_concat (v : entity → graph → list issue) (g : graph) :
  validate v g = concat ((λ e, v e g) <$> g).
Proof.
  unfold validate.
  assert (∀ l acc, foldl (λ issues e, issues ++ v e g) acc l
                   = acc ++ concat ((λ e, v e g) <$> l)) as H.
  { induction l as [|e l IH]; intros acc; simpl.
    - by rewrite app_nil_r.
    - by rewrite IH, app_assoc. }
  apply (H g []).
Qed.

(** Whatever the validator, if the concatenation holds a single issue, as
    the test expects, two entities of the graph cannot both have produced
    one. *)
Lemma validate_single_source (v : entity → graph → list issue) (g : graph)
    (i j : nat) (e1 e2 : entity) :
  g !! i = Some e1 → g !! j = Some e2 → i < j →
  length (validate v g) = 1 →
  v e1 g = [] ∨ v e2 g = [].
Proof.
  intros Hi Hj Hlt Hlen. rewrite validate_concat in Hlen.
  change (v e1 g) with ((λ e, v e g) e1). change (v e2 g) with ((λ e, v e g) e2).
  generalize dependent (λ e, v e g). intros f Hlen.
  assert (drop (S i) g !! (j - S i) = Some e2) as Hj'.
  { rewrite lookup_drop. by replace (S i + (j - S i)) with j by lia. }
  rewrite <- (take_drop_middle g i e1 Hi) in Hlen.
  rewrite <- (take_drop_middle _ _ e2 Hj') in Hlen.
  rewrite fmap_app, fmap_cons, fmap_app, fmap_cons in Hlen.
  rewrite concat_app, concat_cons, concat_app, concat_cons in Hlen.
  rewrite !length_app in Hlen.
  destruct (f e1), (f e2); auto. simpl in Hlen. lia.
Qed.

(** The key does not depend on the order of the two entity ids. *)
Lemma issueKey_swap (ty a b : string) : issueKey ty [a; b] = issueKey ty [b; a].
Proof.
  unfold issueKey, sortIds. simpl.
  destruct (String.leb a b) eqn:Hab, (String.leb b a) eqn:Hba; try done.
  - by rewrite (String.leb_antisym a b Hab Hba).
  - destruct (String.leb_total a b); congruence.
Qed.

(** In the graph of the test only the shared node [n-5] has two parent
    ways, so every issue comes from validating that node. *)
Lemma validate_crossing (w1tags w2tags nodeTags : gmap string string) :
  validate validator (createWaysWithOneCrossingNode w1tags w2tags nodeTags) =
    if ambiguous (classify w1tags) (classify w2tags) (classify nodeTags)
    then [Issue "ambiguous_crossing_tags" "warning" ["w-1"; "w-2"] (0, 0)%Z
                (issueKey "ambiguous_crossing_tags" ["w-1"; "w-2"])]
    else [].
Proof.
  unfold validate, createWaysWithOneCrossingNode.
  cbv -[classify ambiguous issueKey app].
  by destruct (ambiguous _ _ _).
Qed.

(** The modelled validator passes every test of the repository. *)
Example validator_passes_the_tests :
  let footway (crossing : string) : gmap string string :=
    {[ "crossing" := crossing; "highway" := "footway"; "footway" := "crossing" ]} in
  let check w1tags nodeTags :=
    verifySingleCrossingIssue
      (validate validator (createWaysWithOneCrossingNode w1tags residential nodeTags)) in
  validate validator [] = [] ∧
  validate validator (createWaysWithOneCrossingNode ∅ ∅ ∅) = [] ∧
  check (footway "unmarked") {[ "crossing:markings" := "yes" ]} = true ∧
  check (footway "unmarked") {[ "MARKING_TAG" := "zebra" ]} = true ∧
  check (footway "marked") {[ "crossing:markings" := "no" ]} = true ∧
  check (<[ "crossing:markings" := "zebra" ]> (footway "marked"))
        {[ "crossing:markings" := "lines" ]} = true ∧
  check (footway "informal") {[ "crossing:markings" := "lines" ]} = true ∧
  check (footway "marked")
        {[ "crossing:markings" := "ladder"; "crossing" := "informal" ]} = true ∧
  check (footway "marked") ∅ = true.
Proof. cbv zeta. by vm_compute. Qed.






End CrossingFacts.

(** ** Aborted tile requests *)

Module StreetsFacts.
Import Streets.

Lemma onError_abort (e : error) (s : service) :
  name e = "AbortError" → onError e s = s.
Proof. intros He. unfold onError. by rewrite bool_decide_true. Qed.

(** C7.  A tile request that is aborted, whether [fetch] itself rejects
    with the [AbortError] or the reading of the response does, changes the
    service in one place only: the tile's entry leaves [inflight].  The
    tile is not marked loaded, no image reaches [images] or the rtree,
    nothing is emitted, no redraw is requested, nothing is logged. *)
Theorem aborted_fetch_only_clears_inflight {response : Type}
    (utilFetchResponse : response → settled payload)
    (tileId : string) (now : nat) (outcome : settled response)
    (e : error) (s : service) :
  name e = "AbortError" →
  outcome = Rejected e ∨
    (∃ resp, outcome = Fulfilled resp ∧ utilFetchResponse resp = Rejected e) →
  let s' := settle utilFetchResponse tileId now outcome s in
  inflight s' = delete tileId (inflight s) ∧
  loaded s' = loaded s ∧ images s' = images s ∧ rtree s' = rtree s ∧
  emitted s' = emitted s ∧ redraws s' = redraws s ∧ console s' = console s ∧
  lastv s' = lastv s ∧ aborted s' = aborted s ∧
  nextController s' = nextController s.
Proof.
  intros He Hout. cbv zeta. unfold settle.
  assert (andThen outcome utilFetchResponse = Rejected e) as ->.
  { destruct Hout as [->|(resp & -> & Hresp)]; [done|]. exact Hresp. }
  rewrite onError_abort by done. by split_and!.
Qed.

(** For contrast: a request that succeeds marks the tile loaded and emits
    [loadedData]. *)
Lemma fulfilled_fetch_loads {response : Type}
    (utilFetchResponse : response → settled payload)
    (tileId : string) (now : nat) (resp : response) (items : list image)
    (s : service) :
  utilFetchResponse resp = Fulfilled (Payload (Some items)) →
  let s' := settle utilFetchResponse tileId now (Fulfilled resp) s in
  tileId ∈ loaded s' ∧ emitted s' = emitted s ++ ["loadedData"] ∧
  length (rtree s') = length (rtree s) + length items ∧
  inflight s' = delete tileId (inflight s).
Proof.
  intros Hresp. cbv zeta. unfold settle, andThen. rewrite Hresp.
  unfold onData. cbn [currentPageItems]. cbn.
  split_and!; [set_solver|done| |done].
  by rewrite length_app, !length_fmap.
Qed.

(** A request is recorded in [inflight] until it settles. *)
Lemma loadTileAsync_inflight (tileId : string) (s : service) :
  tileId ∉ loaded s → inflight s !! tileId = None →
  inflight (_loadTileAsync tileId s) !! tileId = Some (nextController s) ∧
  loaded (_loadTileAsync tileId s) = loaded s.
Proof.
  intros Hl Hi. unfold _loadTileAsync.
  rewrite bool_decide_false by done. rewrite Hi.
  rewrite bool_decide_false by (by intros [? ?]). cbn.
  by rewrite lookup_insert_eq.
Qed.

(** C7 on a service with two requests in flight, one of them aborted. *)
Lemma aborted_fetch_only_clears_inflight_witness :
  let s := loadTiles 1 ["t1"; "t2"] emptyService in
  let s' := settle (λ _ : unit, Fulfilled (Payload (Some []))) "t1" 0
                   (Rejected abortError) s in
  inflight s' = delete "t1" (inflight s) ∧
  loaded s' = loaded s ∧ images s' = images s ∧ rtree s' = rtree s ∧
  emitted s' = emitted s ∧ redraws s' = redraws s ∧ console s' = console s ∧
  lastv s' = lastv s ∧ aborted s' = aborted s ∧
  nextController s' = nextController s.
Proof.
  apply (aborted_fetch_only_clears_inflight
           (λ _ : unit, Fulfilled (Payload (Some []))) "t1" 0
           (Rejected abortError) abortError).
  - reflexivity.
  - left. reflexivity.
Defined.

End StreetsFacts.

(** ** Extracting a point *)

Module ExtractFacts.
Import Extract.

Section facts.
Context {Entity Extent Action : Type}.
Variable hasEntity : string → option Entity.
Variable geometry : string → string.
Variable entityType : Entity → string.
Variable hasInterestingTags : Entity → bool.
Variable parentWaysLength : Entity → nat.
Variable presetGeometry : Entity → list string.
Variable entityExtent : Entity → Extent.
Variable extend : Extent → Extent → Extent.
Variable areaIsTruthy : Extent → bool.
Variable percentContainedInMapBelow80 : Extent → bool.
Variable hasHiddenConnections : string → bool.
Variable actionExtract : string → Action.

Local Abbreviation actionFor :=
  (actionFor hasEntity geometry entityType hasInterestingTags parentWaysLength
             presetGeometry entityExtent extend actionExtract).
Local Abbreviation collect :=
  (collect hasEntity geometry entityType hasInterestingTags parentWaysLength
           presetGeometry entityExtent extend actionExtract).
Local Abbreviation build :=
  (build hasEntity geometry entityType hasInterestingTags parentWaysLength
         presetGeometry entityExtent extend actionExtract).
Local Abbreviation _actions :=
  (_actions hasEntity geometry entityType hasInterestingTags parentWaysLength
            presetGeometry entityExtent extend actionExtract).
Local Abbreviation available :=
  (available hasEntity geometry entityType hasInterestingTags parentWaysLength
             presetGeometry entityExtent extend actionExtract).
Local Abbreviation disabled :=
  (disabled hasEntity geometry entityType hasInterestingTags parentWaysLength
            presetGeometry entityExtent extend areaIsTruthy
            percentContainedInMapBelow80 hasHiddenConnections actionExtract).

(** No action is built for an entity without interesting tags. *)
Lemma actionFor_uninteresting (ext : option Extent) (entityID : string) (e : Entity) :
  hasEntity entityID = Some e → hasInterestingTags e = false →
  actionFor ext entityID = (None, ext).
Proof. intros He Hi. unfold Extract.actionFor. by rewrite He, Hi. Qed.

(** The loop that builds [_actions], from any point on: at most one action
    per selected id, and fewer when some id gets none. *)
Lemma collect_length (acc : list Action * option Extent) (entityID : string) :
  length (collect acc entityID).1 ≤ length acc.1 + 1 ∧
  ((actionFor acc.2 entityID).1 = None →
   length (collect acc entityID).1 = length acc.1).
Proof.
  unfold Extract.collect.
  destruct (actionFor acc.2 entityID) as [[a|] ext]; cbn [fst].
  - rewrite length_app. cbn [length]. split; [lia|done].
  - split; [lia|done].
Qed.

Lemma build_length (ids : list string) (acc : list Action * option Extent) :
  length (foldl collect acc ids).1 ≤ length acc.1 + length ids ∧
  ((∃ entityID, entityID ∈ ids ∧ ∀ ext, (actionFor ext entityID).1 = None) →
   length (foldl collect acc ids).1 < length acc.1 + length ids).
Proof.
  revert acc. induction ids as [|i ids IH]; intros acc.
  - simpl. split; [lia|]. intros (? & Hin & _). by apply elem_of_nil in Hin.
  - cbn [foldl length]. destruct (IH (collect acc i)) as [Hle Hlt].
    destruct (collect_length acc i) as [Hone Hnone].
    split; [lia|]. intros (j & Hin & Hj).
    apply elem_of_cons in Hin as [->|Hin].
    + rewrite Hnone in Hle by apply Hj. lia.
    + assert (length (foldl collect (collect acc i) ids).1
              < length (collect acc i).1 + length ids); [eauto|lia].
Qed.


End facts.



End ExtractFacts.

(** ** Entity ids *)

Module EntityIdsFacts.
Import JsString Entity EntityIds.

Lemma firstChar_cons (c : Ascii.ascii) (rest : string) :
  firstChar (String c rest) = String c "".
Proof. reflexivity. Qed.

Lemma fromOSM_cons (c : Ascii.ascii) (rest id : string) :
  fromOSM (String c rest) id = String c id.
Proof. reflexivity. Qed.

Lemma subtypes_cases (t : string) :
  t ∈ subtypes → t = "node" ∨ t = "way" ∨ t = "relation" ∨ t = "changeset".
Proof. unfold subtypes. rewrite !elem_of_cons, elem_of_nil. tauto. Qed.

(** The four types have four different first letters. *)
Lemma fromOSM_inj (t t' id id' : string) :
  t ∈ subtypes → t' ∈ subtypes →
  fromOSM t id = fromOSM t' id' → t = t' ∧ id = id'.
Proof.
  intros Ht Ht' H.
  apply subtypes_cases in Ht. apply subtypes_cases in Ht'.
  destruct Ht as [-> | [-> | [-> | ->]]], Ht' as [-> | [-> | [-> | ->]]];
    by simplify_eq/=.
Qed.

Lemma isDigit_pretty_N_char (x : N) : isDigit (pretty_N_char x) = true.
Proof. unfold pretty_N_char. by repeat case_match. Qed.

Lemma digits_pretty_N_go (x : N) (s : string) :
  digits s = true → digits (pretty_N_go x s) = true.
Proof.
  revert s. induction (N.lt_wf_0 x) as [x _ IH]; intros s Hs.
  destruct (decide (x = 0)%N) as [->|Hx]; [by rewrite pretty_N_go_0|].
  rewrite pretty_N_go_step by lia. apply IH.
  - apply N.div_lt; lia.
  - cbn [digits]. by rewrite isDigit_pretty_N_char.
Qed.

Lemma hasNonZero_pretty_N_go (x : N) (s : string) :
  (0 < x)%N ∨ hasNonZero s = true → hasNonZero (pretty_N_go x s) = true.
Proof.
  revert s. induction (N.lt_wf_0 x) as [x _ IH]; intros s Hs.
  destruct (decide (x = 0)%N) as [->|Hx].
  { rewrite pretty_N_go_0. destruct Hs as [?|?]; [lia|done]. }
  rewrite pretty_N_go_step by lia. apply IH; [apply N.div_lt; lia|].
  destruct (decide (x < 10)%N) as [Hsmall|Hbig].
  - right. rewrite N.mod_small by done. cbn [hasNonZero].
    case_bool_decide as Hzero; [|done]. injection Hzero as Hzero.
    apply (pretty_N_char_inj x 0) in Hzero; lia.
  - left. apply N.div_str_pos. lia.
Qed.

(** The decimal numeral of a positive number: digits, not all of them
    zero. *)
Lemma pretty_pos_digits (p : positive) :
  digits (pretty p) = true ∧ hasNonZero (pretty p) = true.
Proof.
  unfold pretty, pretty_positive, pretty, pretty_N.
  rewrite decide_False by done. split.
  - by apply digits_pretty_N_go.
  - apply hasNonZero_pretty_N_go. left. lia.
Qed.

Lemma digits_not_dash (c : Ascii.ascii) (rest : string) :
  digits (String c rest) = true → String c "" ≠ "-".
Proof.
  cbn [digits]. intros H%andb_true_iff. destruct H as [H _].
  unfold isDigit in H. apply bool_decide_eq_true in H.
  intros Heq. rewrite Heq in H. by repeat (apply elem_of_cons in H as [H|H]; [done|]);
    apply elem_of_nil in H.
Qed.

Lemma lessThanZero_digits (s : string) :
  digits s = true → lessThanZero s = Some false.
Proof.
  intros Hs. unfold lessThanZero.
  destruct s as [|c [|d rest]]; [by rewrite ?Hs..|].
  rewrite bool_decide_false by by eapply digits_not_dash.
  by rewrite Hs.
Qed.

Lemma lessThanZero_negated (s : string) :
  s ≠ "" → digits s = true →
  lessThanZero ("-" +:+ s) = Some (hasNonZero s).
Proof.
  intros Hs Hd. destruct s as [|d rest]; [done|].
  assert (∃ c, "-" +:+ String d rest = String c (String d rest) ∧ String c "" = "-")
    as (c & -> & Hc) by (by eexists).
  unfold lessThanZero. rewrite bool_decide_true by done. by rewrite Hd.
Qed.

(** [s < 0] on the decimal numeral of an integer tells its sign. *)
Lemma lessThanZero_pretty (n : Z) :
  lessThanZero (pretty n) = Some (bool_decide (n < 0)%Z).
Proof.
  destruct n as [|p|p].
  - reflexivity.
  - rewrite bool_decide_false by lia.
    apply lessThanZero_digits, pretty_pos_digits.
  - rewrite bool_decide_true by lia.
    destruct (pretty_pos_digits p) as [Hd Hn].
    change (pretty (Z.neg p)) with ("-" +:+ pretty p).
    rewrite lessThanZero_negated, Hn; [done| |done].
    intros Hp. by rewrite Hp in Hn.
Qed.

Lemma osmEntity_id_table (st : state) (t : string) (n : Z) :
  idnext st !! t = Some n →
  osmEntity_id st (VStr t) =
    Some (fromOSM t (pretty n),
          State (heap st) (nextv st) (<[t := (n - 1)%Z]> (idnext st))).
Proof. intros H. unfold osmEntity_id. by rewrite H. Qed.

Lemma countersNegative_init : countersNegative init.
Proof.
  intros t Ht. apply subtypes_cases in Ht.
  destruct Ht as [-> | [-> | [-> | ->]]]; by exists (-1)%Z.
Qed.

(** Each id of a run is built from a type of the run and a number at or
    below that type's counter at the start. *)
Lemma generate_elem (types : list string) (st : state) (id : string) :
  countersNegative st → Forall (λ t, t ∈ subtypes) types →
  id ∈ (generate st types).1 →
  ∃ t n m, t ∈ types ∧ idnext st !! t = Some n ∧ (m ≤ n)%Z ∧
           id = fromOSM t (pretty m).
Proof.
  revert st. induction types as [|t types IH]; intros st Hst Hty Hin.
  { by apply elem_of_nil in Hin. }
  apply Forall_cons in Hty as [Ht Hty].
  destruct (Hst t Ht) as (n & Hn & Hneg).
  cbn [generate] in Hin. rewrite (osmEntity_id_table st t n Hn) in Hin.
  set (st1 := State (heap st) (nextv st) (<[t := (n - 1)%Z]> (idnext st))) in *.
  destruct (generate st1 types) as [ids st2] eqn:Hgen. cbn [fst] in Hin.
  apply elem_of_cons in Hin as [->|Hin].
  { exists t, n, n. split_and!; [apply list_elem_of_here|done|lia|done]. }
  assert (countersNegative st1) as Hst1.
  { intros t' Ht'. destruct (decide (t = t')) as [<-|Hne].
    - exists (n - 1)%Z. cbn. rewrite lookup_insert_eq. split; [done|lia].
    - destruct (Hst t' Ht') as (n' & Hn' & ?). exists n'. cbn.
      by rewrite lookup_insert_ne. }
  destruct (IH st1 Hst1 Hty) as (t' & n' & m & Ht' & Hn' & Hm & ->).
  { by rewrite Hgen. }
  destruct (decide (t = t')) as [<-|Hne].
  - cbn in Hn'. rewrite lookup_insert_eq in Hn'. injection Hn' as <-.
    exists t, n, m. split_and!; [apply list_elem_of_here|done|lia|done].
  - cbn in Hn'. rewrite lookup_insert_ne in Hn' by done.
    exists t', n', m. split_and!; [by apply list_elem_of_further|done..].
Qed.

Lemma fromOSM_decodes (t id : string) :
  t ∈ subtypes →
  toOSM (fromOSM t id) = id ∧ osmEntity_id_type (fromOSM t id) = Some t.
Proof.
  intros Ht. apply subtypes_cases in Ht.
  by destruct Ht as [-> | [-> | [-> | ->]]].
Qed.

Lemma generate_step (st : state) (t : string) (types : list string) (n : Z) :
  idnext st !! t = Some n →
  (generate st (t :: types)).1 =
    fromOSM t (pretty n) ::
    (generate (State (heap st) (nextv st) (<[t := (n - 1)%Z]> (idnext st))) types).1.
Proof.
  intros Hn. cbn [generate]. rewrite (osmEntity_id_table st t n Hn).
  by destruct (generate _ types).
Qed.

Lemma countersNegative_step (st : state) (t : string) (n : Z) :
  countersNegative st → idnext st !! t = Some n → (n < 0)%Z →
  countersNegative (State (heap st) (nextv st) (<[t := (n - 1)%Z]> (idnext st))).
Proof.
  intros Hst Hn Hneg t' Ht'. cbn. destruct (decide (t = t')) as [<-|Hne].
  - exists (n - 1)%Z. rewrite lookup_insert_eq. split; [done|lia].
  - destruct (Hst t' Ht') as (n' & Hn' & ?). exists n'.
    by rewrite lookup_insert_ne.
Qed.

(** An id converts back: [toOSM] gives the number [fromOSM] was given, and
    [osmEntity.id.type] the type, for each of the four types. *)
Theorem osm_id_round_trip (t id : string) :
  t ∈ subtypes →
  toOSM (fromOSM t id) = id ∧ osmEntity_id_type (fromOSM t id) = Some t.
Proof.
  intros Ht. apply subtypes_cases in Ht.
  by destruct Ht as [-> | [-> | [-> | ->]]].
Qed.


(** [isNew()] tells the sign of the number in the id: an entity whose id
    was made from a negative number is new, one whose id was made from zero
    or a positive number is not. *)
Theorem isNew_tells_sign (o : object) (t : string) (n : Z) :
  t ≠ "" → own o !! "osmId" = None →
  getProp o "id" = VStr (fromOSM t (pretty n)) →
  isNew o = Some (Normal (bool_decide (n < 0)%Z)).
Proof.
  intros Ht Hm Hid. unfold isNew, osmId.
  rewrite bool_decide_false by (rewrite Hm; by intros [? ?]).
  rewrite Hid. cbn [mbind option_bind].
  destruct t as [|c rest]; [done|]. rewrite fromOSM_cons. cbn [toOSM].
  by rewrite lessThanZero_pretty.
Qed.

(** *** On concrete ids *)

Lemma osm_id_round_trip_witness :
  toOSM (fromOSM "way" "-4") = "-4" ∧
  osmEntity_id_type (fromOSM "way" "-4") = Some "way".
Proof.
  apply (osm_id_round_trip "way" "-4").
  apply list_elem_of_further, list_elem_of_here.
Defined.


(** The node [n-1] is new, the node [n1] is not. *)
Lemma isNew_tells_sign_witness :
  isNew (Object (Some "node") {[ "id" := VStr "n-1" ]}) = Some (Normal true) ∧
  isNew (Object (Some "node") {[ "id" := VStr "n1" ]}) = Some (Normal false).
Proof.
  split.
  - apply (isNew_tells_sign (Object (Some "node") {[ "id" := VStr "n-1" ]})
             "node" (-1)); [done|reflexivity|reflexivity].
  - apply (isNew_tells_sign (Object (Some "node") {[ "id" := VStr "n1" ]})
             "node" 1); [done|reflexivity|reflexivity].
Defined.

End EntityIdsFacts.

(** ** Copies of entities *)

Module CopyFacts.
Import JsString Entity EntityIds EntityFacts EntityIdsFacts.

Lemma stripped_lookup (p : string) :
  stripped !! p =
    if bool_decide (p ∈ ["id"; "user"; "version"; "v"]) then Some VUndefined else None.
Proof.
  unfold stripped. case_bool_decide as Hp.
  - rewrite !elem_of_cons, elem_of_nil in Hp.
    by destruct Hp as [-> | [-> | [-> | [-> | []]]]].
  - rewrite !elem_of_cons, elem_of_nil in Hp.
    rewrite !lookup_insert_ne by (intros <-; tauto).
    apply lookup_singleton_ne. intros <-. tauto.
Qed.

Lemma outsideModel_stripped : outsideModel stripped = false.
Proof. reflexivity. Qed.

(** What the copy holds: the own properties of the original, but for
    [id], [user], [version] and [v]. *)
Lemma copied_stripped (o : object) (p : string) :
  p ≠ "__proto__" →
  copied o stripped !! p =
    if bool_decide (p ∈ ["id"; "user"; "version"; "v"]) then None
    else match own o !! p with
         | Some VUndefined => None
         | other => other
         end.
Proof.
  intros Hp. rewrite copied_lookup, stripped_lookup by done.
  by case_bool_decide.
Qed.

(** Copies are kept by id: once [copy] has returned a copy for an entity,
    [copy] on any entity with the same id, with the table of copies it
    left, returns that same copy and allocates nothing. *)
Theorem copy_memoized (st st' : state) (r r2 c : nat) (o o2 : object)
    (copies copies' : gmap string nat) :
  heap st !! r = Some o → heap st' !! r2 = Some o2 →
  getProp o2 "id" = getProp o "id" →
  copy st r copies = Some (Normal (Copy c), st', copies') →
  copy st' r2 copies' = Some (Normal (Copy c), st', copies').
Proof.
  intros Ho Ho2 Hid. unfold copy. rewrite Ho, Ho2. cbn [mbind option_bind].
  rewrite Hid.
  destruct (propertyKey (getProp o "id")) as [k|]; [|done]. cbn [mbind option_bind].
  destruct (copies !! k) as [c0|] eqn:Hc.
  { intros H. simplify_eq. by rewrite Hc. }
  case_bool_decide as Hproto; [done|].
  destruct (osmEntity st _) as [[[r'|] st1]|]; cbn [mbind option_bind]; [|done..].
  intros Hnew. simplify_eq. by rewrite lookup_insert_eq.
Qed.

(** The first copy of a node, way, relation or changeset is a new entity
    of the same type: it gets the next generated id of its type, it holds
    no [user], [version] or [v], and every other own property of the
    original as the original has it.  The store keeps every object it had,
    [_nextv] stays, and the copy is entered in [copies] under the id of the
    original. *)
Theorem copy_makes_new_entity (st : state) (r : nat) (o : object)
    (t k : string) (n : Z) (copies : gmap string nat) :
  heap st !! r = Some o →
  proto o = Some t → t ∈ subtypes → own o !! "type" = None →
  outsideModel (own o) = false →
  idnext st !! t = Some n →
  propertyKey (getProp o "id") = Some k →
  copies !! k = None → k ∉ objectPrototypeKeys →
  ∃ o',
    copy st r copies =
      Some (Normal (Copy (length (heap st))),
            State (heap st ++ [o']) (nextv st) (<[t := (n - 1)%Z]> (idnext st)),
            <[k := length (heap st)]> copies) ∧
    proto o' = Some t ∧
    own o' !! "id" = Some (VStr (fromOSM t (pretty n))) ∧
    own o' !! "user" = None ∧ own o' !! "version" = None ∧ own o' !! "v" = None ∧
    ∀ p, p ∉ ["id"; "user"; "version"; "v"; "visible"; "__proto__"] →
         own o' !! p = match own o !! p with
                       | Some VUndefined => None
                       | other => other
                       end.
Proof.
  intros Ho Hproto Ht Hty Hout Hn Hk Hc Hkp.
  assert (truthy (VStr t) = true) as Htruthy.
  { apply subtypes_cases in Ht. by destruct Ht as [-> | [-> | [-> | ->]]]. }
  assert (getProp o "type" = VStr t) as Hgt.
  { unfold getProp. by rewrite Hty, Hproto. }
  assert (variantOf o = Some (Normal (Some t))) as Hv.
  { unfold variantOf. rewrite Hgt, Htruthy. by rewrite bool_decide_true. }
  set (props := copied o stripped).
  assert (getProp (Object (Some t) props) "id" = VUndefined) as Hgid.
  { unfold getProp, props. cbn [own]. by rewrite copied_stripped. }
  assert (getProp (Object (Some t) props) "type" = VStr t) as Hgty.
  { unfold getProp, props. cbn [own proto]. by rewrite copied_stripped, Hty. }
  set (o1 := setOwn (Object (Some t) props) "id" (VStr (fromOSM t (pretty n)))).
  exists (defaultVisible o1).
  split_and!.
  - unfold copy. rewrite Ho. cbn [mbind option_bind]. rewrite Hk.
    cbn [mbind option_bind]. rewrite Hc. rewrite bool_decide_false by done.
    unfold osmEntity. rewrite Hv. cbn [mbind option_bind].
    unfold construct, initialize.
    cbn [heap nextv idnext fmap list_fmap existsb own].
    rewrite Hout, outsideModel_stripped. cbn [orb].
    rewrite list_lookup_middle by done. cbn [mbind option_bind proto own].
    fold (copied o stripped). fold props.
    unfold assignId. rewrite Hgid, Hgty, Htruthy. cbn [truthy negb andb].
    rewrite (osmEntity_id_table _ t n) by done.
    cbn [mbind option_bind heap nextv idnext].
    rewrite insert_app_r_alt by done. rewrite Nat.sub_diag. done.
  - by rewrite defaultVisible_proto.
  - rewrite defaultVisible_lookup by (by left). unfold o1. cbn [own setOwn].
    by rewrite lookup_insert_eq.
  - rewrite defaultVisible_lookup by (by left). unfold o1, props. cbn [own setOwn].
    rewrite lookup_insert_ne by done. by rewrite copied_stripped.
  - rewrite defaultVisible_lookup by (by left). unfold o1, props. cbn [own setOwn].
    rewrite lookup_insert_ne by done. by rewrite copied_stripped.
  - rewrite defaultVisible_lookup by (by left). unfold o1, props. cbn [own setOwn].
    rewrite lookup_insert_ne by done. by rewrite copied_stripped.
  - intros p Hp. rewrite !not_elem_of_cons in Hp.
    destruct Hp as (? & ? & ? & ? & ? & ? & _).
    rewrite defaultVisible_lookup by (by left). unfold o1, props. cbn [own setOwn].
    rewrite lookup_insert_ne by done. rewrite copied_stripped by done.
    rewrite bool_decide_false; [done|].
    rewrite !elem_of_cons, elem_of_nil. tauto.
Qed.

(** *** On the node [n1] *)

Lemma copy_memoized_witness :
  let made := copy exampleNode 0 ∅ in
  ∃ st' copies', made = Some (Normal (Copy 1), st', copies') ∧
                 copy st' 0 copies' = Some (Normal (Copy 1), st', copies').
Proof.
  cbv zeta.
  destruct (copy exampleNode 0 ∅) as [[[out st'] copies']|] eqn:Hcopy;
    [|by vm_compute in Hcopy].
  assert (out = Normal (Copy 1)) as -> by (vm_compute in Hcopy; congruence).
  exists st', copies'. split; [done|].
  apply (copy_memoized exampleNode st' 0 0 1 (objectAt exampleNode 0)
           (objectAt exampleNode 0) ∅ copies'); [reflexivity| |done|done].
  vm_compute in Hcopy. by simplify_eq.
Defined.

Lemma copy_makes_new_entity_witness :
  ∃ o', copy exampleNode 0 ∅ =
          Some (Normal (Copy 1),
                State (heap exampleNode ++ [o']) (nextv exampleNode)
                      (<["node" := (-2)%Z]> (idnext exampleNode)),
                {[ "n1" := 1 ]}) ∧
        own o' !! "id" = Some (VStr "n-1") ∧ own o' !! "v" = None.
Proof.
  destruct (copy_makes_new_entity exampleNode 0 (objectAt exampleNode 0)
              "node" "n1" (-1) ∅)
    as (o' & Hcopy & _ & Hid & _ & _ & Hv & _).
  - reflexivity.
  - reflexivity.
  - apply list_elem_of_here.
  - reflexivity.
  - reflexivity.
  - reflexivity.
  - reflexivity.
  - reflexivity.
  - unfold objectPrototypeKeys. intros Hin.
    by repeat (apply elem_of_cons in Hin as [Hin|Hin]; [done|]);
      apply elem_of_nil in Hin.
  - exists o'. split_and!; [exact Hcopy|exact Hid|exact Hv].
Defined.

End CopyFacts.

(** ** Deprecated tags *)

Module DeprecatedFacts.
Import JsString Entity Deprecated.

Lemma getKey_ordinary (m : gmap string jsstring) (k : string) :
  k ∉ objectPrototypeKeys →
  getKey m k = match m !! k with Some s => Str s | None => Absent end.
Proof.
  intros Hk. unfold getKey. destruct (m !! k); [done|].
  by rewrite bool_decide_false.
Qed.

Lemma holds_ordinary (m : gmap string jsstring) (k : string) :
  k ∉ objectPrototypeKeys →
  holds m k = match m !! k with
              | Some [] | None => false
              | Some _ => true
              end.
Proof.
  intros Hk. unfold holds. rewrite getKey_ordinary by done.
  by destruct (m !! k) as [[]|].
Qed.

Lemma holdsValue_own (m : gmap string jsstring) (k : string) (v : jsstring) :
  holdsValue m k v = bool_decide (m !! k = Some v).
Proof.
  unfold holdsValue, getKey. destruct (m !! k) as [t|] eqn:Hm.
  - apply bool_decide_ext. split; [by intros ->|by intros [= ->]].
  - by case_bool_decide.
Qed.

Lemma every_normal {A : Type} (g : A → bool) (f : A → completion bool) (l : list A) :
  (∀ x, x ∈ l → f x = Normal (g x)) →
  every f l = Normal (forallb g l).
Proof.
  induction l as [|x l IH]; intros Hf; [done|].
  cbn [every forallb]. rewrite (Hf x) by apply list_elem_of_here.
  destruct (g x); [|done]. apply IH. intros y Hy. apply Hf.
  by apply list_elem_of_further.
Qed.

Lemma existsb_ext_in {A : Type} (f g : A → bool) (l : list A) :
  (∀ x, x ∈ l → f x = g x) → existsb f l = existsb g l.
Proof.
  induction l as [|x l IH]; intros Hfg; [done|].
  cbn [existsb]. rewrite (Hfg x) by apply list_elem_of_here.
  f_equal. apply IH. intros y Hy. apply Hfg. by apply list_elem_of_further.
Qed.

(** On a key that names no property of [Object.prototype], the callback of
    [every] does not throw, and it answers as [agrees] says.  In
    particular the comparison with [d.replace] (lines 227-236) decides
    nothing: where it runs, line 219 has returned already. *)
Lemma matchesOld_ordinary (tags : gmap string jsstring) (d : rule)
    (oldKey : string) (oldValue : jsstring) :
  oldKey ∉ objectPrototypeKeys →
  matchesOld tags d oldKey oldValue = Normal (agrees tags oldKey oldValue).
Proof.
  intros Hk. unfold matchesOld, agrees. rewrite getKey_ordinary by done.
  destruct (tags !! oldKey) as [[|c t]|]; [done| |done].
  rewrite (bool_decide_false (c :: t = [])) by done. cbn [negb andb].
  case_bool_decide as Hstar; [done|]. cbn [orb].
  case_bool_decide as Hsame; [done|]. cbn [orb].
  fold (pieces (c :: t)).
  destruct (length (pieces (c :: t))) as [|[|n]] eqn:Hlen.
  - by rewrite (bool_decide_false (2 ≤ 0)) by lia.
  - rewrite (bool_decide_false (c :: t = oldValue)) by done.
    by rewrite (bool_decide_false (2 ≤ 1)) by lia.
  - by rewrite (bool_decide_true (2 ≤ S (S n))) by lia.
Qed.

Lemma overwrites_ordinary (tags : gmap string jsstring) (d : rule)
    (k : string) (v : jsstring) :
  k ∉ objectPrototypeKeys →
  overwrites tags d k v =
    match tags !! k with
    | Some t =>
        negb (bool_decide (t = [])) &&
        negb (bool_decide (v = star)) && negb (bool_decide (v = t)) &&
        match objectOf (old d) !! k with
        | None | Some [] => true
        | Some _ => false
        end
    | None => false
    end.
Proof.
  intros Hk. unfold overwrites. rewrite !holds_ordinary by done.
  unfold holdsValue. rewrite getKey_ordinary by done.
  destruct (tags !! k) as [[|c t]|]; [done| |done].
  rewrite (bool_decide_false (c :: t = [])) by done. cbn [negb andb orb].
  destruct (objectOf (old d) !! k) as [[|c' t']|]; cbn [orb].
  - case_bool_decide; [done|]. cbn [negb andb].
    rewrite (bool_decide_ext (c :: t = v) (v = c :: t)) by (split; by intros ->).
    by case_bool_decide.
  - by rewrite !andb_false_r.
  - case_bool_decide; [done|]. cbn [negb andb].
    rewrite (bool_decide_ext (c :: t = v) (v = c :: t)) by (split; by intros ->).
    by case_bool_decide.
Qed.

Lemma flags_ordinary (tags : gmap string jsstring) (d : rule) :
  ordinary d → flags tags d = Normal (deprecated tags d).
Proof.
  intros [Hold Hrep]. unfold flags, deprecated.
  assert (hasExistingValues tags d = wouldOverwrite tags d) as ->.
  { unfold hasExistingValues, wouldOverwrite.
    destruct (replace d) as [entries|] eqn:Hr; [|done].
    apply existsb_ext_in. intros kv Hkv. apply overwrites_ordinary. eauto. }
  destruct (wouldOverwrite tags d); [done|]. cbn [negb andb].
  apply every_normal. intros kv Hkv. apply matchesOld_ordinary. eauto.
Qed.

Lemma foldl_visit_throws (tags : gmap string jsstring) (data : list rule) :
  foldl (visit tags) Throws data = Throws.
Proof. by induction data. Qed.

Lemma foldl_visit_ordinary (tags : gmap string jsstring) (data acc : list rule) :
  Forall ordinary data →
  foldl (visit tags) (Normal acc) data =
    Normal (acc ++ filter (λ d, deprecated tags d) data).
Proof.
  revert acc. induction data as [|d data IH]; intros acc Hall.
  { by rewrite filter_nil, app_nil_r. }
  apply Forall_cons in Hall as [Hd Hall].
  cbn [foldl visit]. rewrite flags_ordinary by done.
  rewrite filter_cons. destruct (deprecated tags d) eqn:Hdep.
  - rewrite decide_True by done. rewrite IH by done. by rewrite <- app_assoc.
  - rewrite decide_False by (cbn; tauto). by apply IH.
Qed.

(** What a run of the [forEach] that does not throw has collected. *)
Lemma foldl_visit_inv (tags : gmap string jsstring) (data acc results : list rule) :
  foldl (visit tags) (Normal acc) data = Normal results →
  ∃ found, results = acc ++ found ∧ sublist found data ∧
           ∀ d, d ∈ found → flags tags d = Normal true.
Proof.
  revert acc. induction data as [|d data IH]; intros acc H.
  { cbn in H. injection H as <-. exists []. rewrite app_nil_r.
    split_and!; [done|done|]. intros d Hd. by apply elem_of_nil in Hd. }
  cbn [foldl visit] in H.
  destruct (flags tags d) as [[|]|] eqn:Hf.
  - apply IH in H as (found & -> & Hsub & Hall). exists (d :: found).
    rewrite <- app_assoc. split_and!; [done|by apply sublist_skip|].
    intros d' Hd'. apply elem_of_cons in Hd' as [->|Hd']; auto.
  - apply IH in H as (found & -> & Hsub & Hall). exists found.
    split_and!; [done|by apply sublist_cons|done].
  - by rewrite foldl_visit_throws in H.
Qed.

Lemma deprecatedTags_inv (tags : gmap string jsstring) (data results : list rule) :
  deprecatedTags tags data = Normal results →
  sublist results data ∧ ∀ d, d ∈ results → flags tags d = Normal true.
Proof.
  unfold deprecatedTags. case_bool_decide as Htags.
  - intros [= <-]. split; [apply sublist_nil_l|].
    intros d Hd. by apply elem_of_nil in Hd.
  - intros H. apply foldl_visit_inv in H as (found & -> & Hsub & Hall). done.
Qed.

Lemma every_true_elem {A : Type} (f : A → completion bool) (l : list A) (x : A) :
  every f l = Normal true → x ∈ l → f x = Normal true.
Proof.
  induction l as [|y l IH]; intros He Hx; [by apply elem_of_nil in Hx|].
  cbn [every] in He. destruct (f y) as [[|]|] eqn:Hy; [|done..].
  apply elem_of_cons in Hx as [->|Hx]; auto.
Qed.

(** [deprecatedTags] as a filter.  With rules whose keys name no property
    of [Object.prototype] the call does not throw; an entity without tags
    gets no rule, and any other entity gets, in the order of
    [dataDeprecated], the rules every old tag of which agrees with its
    tags and whose upgrade would overwrite none of its values. *)
Theorem deprecatedTags_filters (tags : gmap string jsstring) (data : list rule) :
  Forall ordinary data →
  deprecatedTags tags data =
    Normal (if bool_decide (tags = ∅) then []
            else filter (λ d, deprecated tags d) data).
Proof.
  intros Hall. unfold deprecatedTags. case_bool_decide; [done|].
  by rewrite foldl_visit_ordinary.
Qed.

(** Whatever the rules, what [deprecatedTags] returns is taken from
    [dataDeprecated], in its order, and every old key of a returned rule is
    one the entity's tags hold. *)
Theorem deprecatedTags_sublist (tags : gmap string jsstring)
    (data results : list rule) :
  deprecatedTags tags data = Normal results →
  sublist results data ∧
  ∀ d k v, d ∈ results → (k, v) ∈ old d → holds tags k = true.
Proof.
  intros H. apply deprecatedTags_inv in H as [Hsub Hall].
  split; [done|]. intros d k v Hd Hkv.
  specialize (Hall d Hd). unfold flags in Hall.
  destruct (hasExistingValues tags d); [done|].
  apply (every_true_elem _ _ (k, v)) in Hall; [|done].
  cbn [fst snd] in Hall. unfold matchesOld, holds in *.
  by destruct (getKey tags k) as [|[]|].
Qed.


(** *** [deprecatedTagValuesByKey] *)

Lemma pushed_app (entry : option (list jsstring)) (a b : list jsstring) :
  pushed (pushed entry a) b = pushed entry (a ++ b).
Proof.
  destruct entry as [held|]; cbn [pushed]; [by rewrite app_assoc|].
  destruct a as [|x a]; [done|].
  by rewrite !bool_decide_false by done.
Qed.

Lemma valuesFor_cons (k : string) (d : rule) (data : list rule) :
  valuesFor k (d :: data) = valuesFor k [d] ++ valuesFor k data.
Proof.
  unfold valuesFor. change (d :: data) with ([d] ++ data). apply omap_app.
Qed.

Lemma valuesFor_single (k : string) (d : rule) :
  valuesFor k [d] =
    match old d with
    | [(oldKey, oldValue)] =>
        if bool_decide (oldKey = k) && negb (bool_decide (oldValue = star))
        then [oldValue] else []
    | _ => []
    end.
Proof.
  unfold valuesFor. simpl.
  destruct (old d) as [|[k0 v0] [|? ?]]; [done| |done].
  by destruct (bool_decide (k0 = k) && negb (bool_decide (v0 = star))).
Qed.

Lemma pushed_nil (entry : option (list jsstring)) : pushed entry [] = entry.
Proof. destruct entry; cbn [pushed]; [by rewrite app_nil_r|done]. Qed.

(** One rule added: the round does not throw on an ordinary key, and it
    pushes the rule's value to the entry of its key. *)
Lemma addRule_ordinary (table : gmap string (list jsstring)) (d : rule) :
  ordinaryKeys [d] →
  ∃ table', addRule table d = Normal table' ∧
            ∀ k, table' !! k = pushed (table !! k) (valuesFor k [d]).
Proof.
  intros Hord. unfold addRule. setoid_rewrite valuesFor_single.
  destruct (old d) as [|[oldKey oldValue] [|? ?]] eqn:Hold.
  - exists table. split; [done|]. intros k. by rewrite pushed_nil.
  - case_bool_decide as Hstar.
    { exists table. split; [done|]. intros k.
      rewrite andb_false_r. by rewrite pushed_nil. }
    assert (oldKey ∉ objectPrototypeKeys) as Hk.
    { eapply (Hord d); [apply list_elem_of_here|done..]. }
    cbn [negb]. destruct (table !! oldKey) as [values|] eqn:Ht.
    + eexists. split; [done|]. intros k. rewrite andb_true_r.
      case_bool_decide as Hkk.
      * subst k. by rewrite lookup_insert_eq, Ht.
      * rewrite lookup_insert_ne by done. by rewrite pushed_nil.
    + rewrite bool_decide_false by done. eexists. split; [done|].
      intros k. rewrite andb_true_r. case_bool_decide as Hkk.
      * subst k. by rewrite lookup_insert_eq, Ht.
      * rewrite lookup_insert_ne by done. by rewrite pushed_nil.
  - exists table. split; [done|]. intros k. by rewrite pushed_nil.
Qed.

Lemma addRules_ordinary (data : list rule) (table : gmap string (list jsstring)) :
  ordinaryKeys data →
  ∃ table', addRules table data = (Normal (), table') ∧
            ∀ k, table' !! k = pushed (table !! k) (valuesFor k data).
Proof.
  revert table. induction data as [|d data IH]; intros table Hord.
  { exists table. split; [done|]. intros k. apply eq_sym, pushed_nil. }
  destruct (addRule_ordinary table d) as (t1 & H1 & Hl1).
  { intros d' k v Hd'. apply list_elem_of_singleton in Hd' as ->.
    apply Hord, list_elem_of_here. }
  destruct (IH t1) as (t2 & H2 & Hl2).
  { intros d' k v Hd'. apply Hord. by apply list_elem_of_further. }
  exists t2. cbn [addRules]. rewrite H1. split; [done|].
  intros k. by rewrite Hl2, Hl1, pushed_app, <- valuesFor_cons.
Qed.

(** Rules with ordinary keys give no value for a key that names a
    property of [Object.prototype]. *)
Lemma valuesFor_inherited (k : string) (data : list rule) :
  ordinaryKeys data → k ∈ objectPrototypeKeys → valuesFor k data = [].
Proof.
  intros Hord Hk. induction data as [|d data IH]; [done|].
  rewrite valuesFor_cons, IH, app_nil_r.
  2:{ intros d' k' v' Hd'. apply Hord. by apply list_elem_of_further. }
  rewrite valuesFor_single.
  destruct (old d) as [|[k0 v0] [|? ?]] eqn:Hd; [done| |done].
  case_bool_decide as Hkk; [|done]. subst k0.
  case_bool_decide as Hstar; [done|].
  by destruct (Hord d k v0 (list_elem_of_here _ _) Hd Hstar).
Qed.

Lemma addRules_app_throws (pre post : list rule) (d : rule)
    (table table1 : gmap string (list jsstring)) :
  addRules table pre = (Normal (), table1) → addRule table1 d = Throws →
  addRules table (pre ++ d :: post) = (Throws, table1).
Proof.
  revert table. induction pre as [|x pre IH]; intros table Hpre Hd.
  { cbn in Hpre. injection Hpre as ->. cbn [app addRules]. by rewrite Hd. }
  cbn [app addRules] in *. destruct (addRule table x); [|done]. by apply IH.
Qed.

(** The table of [deprecatedTagValuesByKey]: for each key, the values of
    the rules that name that key alone, with a value other than [*], in
    the order of the rules; a key no such rule names has no entry.  The
    table is built once: any later call, whatever rules it is given,
    returns the same table. *)
Theorem deprecatedTagValuesByKey_groups (data later : list rule) :
  ordinaryKeys data →
  ∃ table,
    deprecatedTagValuesByKey None data = (Normal table, Some table) ∧
    (∀ k, table !! k = if bool_decide (valuesFor k data = []) then None
                       else Some (valuesFor k data)) ∧
    deprecatedTagValuesByKey (Some table) later = (Normal table, Some table).
Proof.
  intros Hord. destruct (addRules_ordinary data ∅ Hord) as (table & Hrun & Hlook).
  exists table. unfold deprecatedTagValuesByKey. rewrite Hrun.
  split_and!; [done| |done].
  intros k. by rewrite Hlook, lookup_empty.
Qed.


(** *** On the rules of the tests *)

Lemma ordinary_checked (d : rule) :
  forallb (λ kv, negb (bool_decide (kv.1 ∈ objectPrototypeKeys)))
          (old d ++ default [] (replace d)) = true →
  ordinary d.
Proof.
  rewrite forallb_forall. intros Hall. split.
  - intros kv Hkv. specialize (Hall kv). rewrite in_app_iff in Hall.
    apply negb_true_iff, bool_decide_eq_false in Hall; [done|].
    left. by apply list_elem_of_In.
  - intros entries kv Hr Hkv. specialize (Hall kv). rewrite Hr, in_app_iff in Hall.
    apply negb_true_iff, bool_decide_eq_false in Hall; [done|].
    right. by apply list_elem_of_In.
Qed.

Lemma ordinaryKeys_checked (data : list rule) :
  forallb (λ d, forallb (λ kv, negb (bool_decide (kv.1 ∈ objectPrototypeKeys))) (old d))
          data = true →
  ordinaryKeys data.
Proof.
  rewrite forallb_forall. intros Hall d k v Hd Hold Hv.
  specialize (Hall d). rewrite Hold in Hall. cbn in Hall.
  rewrite andb_true_r in Hall.
  apply negb_true_iff, bool_decide_eq_false in Hall; [done|].
  by apply list_elem_of_In.
Qed.

(** [highway=ford] is deprecated, and so is the piece [ford] of
    [highway=no;ford]. *)
Lemma deprecatedTags_filters_witness :
  deprecatedTags {[ "highway" := lit "ford" ]} [highwayNo; highwayFord]
    = Normal [highwayFord] ∧
  deprecatedTags {[ "highway" := lit "no;ford" ]} [highwayNo; highwayFord]
    = Normal [highwayNo; highwayFord] ∧
  deprecatedTags {[ "highway" := lit "ford" ]} [highwayNo; highwayFord]
    = Normal (if bool_decide ({[ "highway" := lit "ford" ]} =@{gmap string jsstring} ∅)
              then []
              else filter (λ d, deprecated {[ "highway" := lit "ford" ]} d)
                          [highwayNo; highwayFord]).
Proof.
  split_and!; [reflexivity|reflexivity|].
  apply (deprecatedTags_filters {[ "highway" := lit "ford" ]} [highwayNo; highwayFord]).
  repeat apply Forall_cons_2; try apply Forall_nil_2;
    by apply ordinary_checked.
Defined.

Lemma deprecatedTags_sublist_witness :
  sublist [highwayFord] [highwayNo; highwayFord] ∧
  ∀ d k v, d ∈ [highwayFord] → (k, v) ∈ old d →
           holds {[ "highway" := lit "ford" ]} k = true.
Proof.
  apply (deprecatedTags_sublist {[ "highway" := lit "ford" ]}
           [highwayNo; highwayFord] [highwayFord]).
  reflexivity.
Defined.


Lemma deprecatedTagValuesByKey_groups_witness :
  ∃ table,
    deprecatedTagValuesByKey None [highwayNo; highwayFord] = (Normal table, Some table) ∧
    table !! "highway" = Some [lit "no"; lit "ford"] ∧
    deprecatedTagValuesByKey (Some table) [] = (Normal table, Some table).
Proof.
  destruct (deprecatedTagValuesByKey_groups [highwayNo; highwayFord] [])
    as (table & Hrun & Hlook & Hlater).
  - by apply ordinaryKeys_checked.
  - exists table. split_and!; [exact Hrun| |exact Hlater].
    by rewrite Hlook.
Defined.


End DeprecatedFacts.

(** ** Sessions of the tile cache *)

Module StreetsSessionFacts.
Import Streets StreetsSession.

(** What [_loadTileAsync] leaves alone. *)
Lemma loadTileAsync_frame (t : string) (s : service) :
  loaded (_loadTileAsync t s) = loaded s ∧ rtree (_loadTileAsync t s) = rtree s ∧
  images (_loadTileAsync t s) = images s ∧ emitted (_loadTileAsync t s) = emitted s ∧
  lastv (_loadTileAsync t s) = lastv s ∧ aborted (_loadTileAsync t s) = aborted s ∧
  redraws (_loadTileAsync t s) = redraws s ∧ console (_loadTileAsync t s) = console s.
Proof. unfold _loadTileAsync. by destruct (_ || _). Qed.

(** The requests in flight after [_loadTileAsync]. *)
Lemma loadTileAsync_lookup (t t' : string) (s : service) :
  inflight (_loadTileAsync t s) !! t' =
    if bool_decide (t' = t) && negb (bool_decide (t ∈ loaded s)) &&
       negb (bool_decide (is_Some (inflight s !! t)))
    then Some (nextController s) else inflight s !! t'.
Proof.
  unfold _loadTileAsync.
  destruct (bool_decide (t ∈ loaded s)) eqn:Hl; cbn [orb negb andb].
  { by rewrite andb_false_r. }
  destruct (bool_decide (is_Some (inflight s !! t))) eqn:Hi; cbn [orb negb andb].
  { by rewrite andb_false_r. }
  rewrite !andb_true_r. cbn [inflight]. destruct (decide (t' = t)) as [->|Ht].
  - by rewrite bool_decide_true, lookup_insert_eq.
  - by rewrite bool_decide_false, lookup_insert_ne.
Qed.

Lemma loadTileAsync_nextController (t : string) (s : service) :
  nextController s ≤ nextController (_loadTileAsync t s).
Proof. unfold _loadTileAsync. destruct (_ || _); cbn; lia. Qed.

(** The loop of [loadTiles] that issues the requests. *)
Lemma issue_requests (tiles : list string) (s : service) :
  let s' := foldl (λ acc t, _loadTileAsync t acc) s tiles in
  loaded s' = loaded s ∧ rtree s' = rtree s ∧ images s' = images s ∧
  emitted s' = emitted s ∧ lastv s' = lastv s ∧ aborted s' = aborted s ∧
  redraws s' = redraws s ∧ console s' = console s ∧
  nextController s ≤ nextController s' ∧
  (∀ t, t ∈ tiles → t ∈ loaded s' ∨ is_Some (inflight s' !! t)) ∧
  (∀ t c, inflight s !! t = Some c → inflight s' !! t = Some c) ∧
  (∀ t c, inflight s' !! t = Some c →
          inflight s !! t = Some c ∨
          (t ∈ tiles ∧ (t ∉ loaded s) ∧ nextController s ≤ c ∧ c < nextController s')).
Proof.
  cbv zeta. revert s. induction tiles as [|t tiles IH]; intros s.
  { cbn [foldl]. split_and!; try done.
    - intros t Ht. by apply elem_of_nil in Ht.
    - auto. }
  cbn [foldl].
  destruct (IH (_loadTileAsync t s))
    as (Hl & Hr & Him & He & Hv & Ha & Hd & Hc & Hn & Hcov & Hkeep & Honly).
  destruct (loadTileAsync_frame t s) as (Hl1 & Hr1 & Him1 & He1 & Hv1 & Ha1 & Hd1 & Hc1).
  pose proof (loadTileAsync_nextController t s) as Hn1.
  split_and!; try congruence; [lia|..].
  - intros t' Ht'. apply elem_of_cons in Ht' as [->|Ht']; [|by apply Hcov].
    destruct (decide (t ∈ loaded s)) as [Hin|Hnin].
    { left. by rewrite Hl, Hl1. }
    right. destruct (inflight s !! t) as [c|] eqn:Hi.
    + exists c. apply Hkeep. rewrite loadTileAsync_lookup, Hi.
      rewrite (bool_decide_true (is_Some (Some c))) by eauto.
      by rewrite andb_false_r.
    + exists (nextController s). apply Hkeep. rewrite loadTileAsync_lookup, Hi.
      rewrite bool_decide_true, (bool_decide_false (t ∈ loaded s)) by done.
      by rewrite (bool_decide_false (is_Some None)) by by intros [? ?].
  - intros t' c Hc'. apply Hkeep. rewrite loadTileAsync_lookup.
    destruct (decide (t' = t)) as [->|Ht'].
    + rewrite Hc'. rewrite (bool_decide_true (is_Some (Some c))) by eauto.
      by rewrite andb_false_r.
    + by rewrite (bool_decide_false (t' = t)).
  - intros t' c Hc'. apply Honly in Hc' as [Hc'|(Hin & Hnl & Hle & Hlt)].
    + rewrite loadTileAsync_lookup in Hc'.
      destruct (bool_decide (t' = t) && negb (bool_decide (t ∈ loaded s)) &&
                negb (bool_decide (is_Some (inflight s !! t)))) eqn:Hcond; [|by left].
      apply andb_true_iff in Hcond as [Hcond Hni].
      apply andb_true_iff in Hcond as [Ht' Hnl].
      apply bool_decide_eq_true in Ht' as ->.
      apply negb_true_iff in Hnl. apply negb_true_iff in Hni.
      injection Hc' as <-. right.
      split_and!; [apply list_elem_of_here|by apply bool_decide_eq_false in Hnl|done|].
      assert (nextController (_loadTileAsync t s) = S (nextController s)) as Hs.
      { unfold _loadTileAsync. by rewrite Hnl, Hni. }
      lia.
    + right. rewrite Hl1 in Hnl. split_and!; [by apply list_elem_of_further|done|lia|lia].
Qed.

Lemma loadTiles_changed (v : Z) (tiles : list string) (s : service) :
  lastv s ≠ Some v →
  loadTiles v tiles s =
    foldl (λ acc t, _loadTileAsync t acc)
          (Service (rtree s) (inflight s) (loaded s) (images s) (Some v)
                   (nextController s)
                   (aborted s ∪ list_to_set
                      (snd <$> filter (λ kc, kc.1 ∉ tiles) (map_to_list (inflight s))))
                   (emitted s) (redraws s) (console s))
          tiles.
Proof. intros Hv. unfold loadTiles. by rewrite bool_decide_false. Qed.

Lemma loadTiles_sets_version (v : Z) (tiles : list string) (s : service) :
  lastv s ≠ Some v → lastv (loadTiles v tiles s) = Some v.
Proof.
  intros Hv. rewrite loadTiles_changed by done.
  match goal with |- context [foldl _ ?s0 tiles] => set (s1 := s0) end.
  by destruct (issue_requests tiles s1) as (_ & _ & _ & _ & -> & _).
Qed.

Lemma loadTiles_inflight (v : Z) (tiles : list string) (s : service) :
  lastv s ≠ Some v →
  (∀ t c, inflight s !! t = Some c → inflight (loadTiles v tiles s) !! t = Some c) ∧
  (∀ t, is_Some (inflight (loadTiles v tiles s) !! t) →
        is_Some (inflight s !! t) ∨ (t ∈ tiles ∧ t ∉ loaded s)) ∧
  loaded (loadTiles v tiles s) = loaded s.
Proof.
  intros Hv. rewrite loadTiles_changed by done.
  match goal with |- context [foldl _ ?s0 tiles] => set (s1 := s0) end.
  destruct (issue_requests tiles s1)
    as (Hl & _ & _ & _ & _ & _ & _ & _ & _ & _ & Hkeep & Honly).
  split_and!; [done| |done].
  intros t [c Hc']. apply Honly in Hc' as [Hc'|(? & ? & _)]; eauto.
Qed.

(** [loadTiles] in a view that has changed: afterwards every tile of the
    view is loaded or in flight.  A request is started only for a tile of
    the view that was neither; the requests that were in flight stay so,
    and nothing is loaded, stored or emitted by the call itself. *)
Theorem loadTiles_covers_view (v : Z) (tiles : list string) (s : service) :
  lastv s ≠ Some v →
  let s' := loadTiles v tiles s in
  lastv s' = Some v ∧
  (∀ t, t ∈ tiles → t ∈ loaded s' ∨ is_Some (inflight s' !! t)) ∧
  (∀ t c, inflight s !! t = Some c → inflight s' !! t = Some c) ∧
  (∀ t, is_Some (inflight s' !! t) →
        is_Some (inflight s !! t) ∨ (t ∈ tiles ∧ t ∉ loaded s)) ∧
  loaded s' = loaded s ∧ rtree s' = rtree s ∧ images s' = images s ∧
  emitted s' = emitted s ∧ redraws s' = redraws s.
Proof.
  intros Hv. cbv zeta. rewrite loadTiles_changed by done.
  match goal with |- context [foldl _ ?s0 tiles] => set (s1 := s0) end.
  destruct (issue_requests tiles s1)
    as (Hl & Hr & Him & He & Hlv & Ha & Hd & Hc & Hn & Hcov & Hkeep & Honly).
  split_and!; try done.
  intros t [c Hc']. apply Honly in Hc' as [Hc'|(? & ? & _)]; eauto.
Qed.

(** [loadTiles] in an unchanged view does nothing, and [resetAsync] does
    not change what counts as the view: it empties the cache but leaves
    [_lastv], so a [loadTiles] that follows it at the same viewport
    version starts no request and the cache stays empty. *)
Theorem reset_keeps_view_version (v : Z) (tiles tiles' : list string) (s : service) :
  let s1 := resetAsync (loadTiles v tiles s) in
  loadTiles v tiles' s1 = s1 ∧ inflight s1 = ∅ ∧ loaded s1 = ∅ ∧
  images s1 = ∅ ∧ rtree s1 = [].
Proof.
  cbv zeta. split; [|done].
  assert (lastv (loadTiles v tiles s) = Some v) as Hv.
  { destruct (decide (lastv s = Some v)) as [Heq|Hne].
    - unfold loadTiles. by rewrite bool_decide_true.
    - by apply loadTiles_sets_version. }
  unfold loadTiles at 1. cbn [lastv resetAsync]. by rewrite bool_decide_true.
Qed.

Lemma settle_rejected {response : Type}
    (utilFetchResponse : response → settled payload)
    (tileId : string) (now : nat) (outcome : settled response)
    (e : error) (s : service) :
  outcome = Rejected e ∨
    (∃ resp, outcome = Fulfilled resp ∧ utilFetchResponse resp = Rejected e) →
  settle utilFetchResponse tileId now outcome s = onFinally tileId (onError e s).
Proof.
  intros Hout. unfold settle.
  assert (andThen outcome utilFetchResponse = Rejected e) as ->; [|done].
  destruct Hout as [->|(resp & -> & Hresp)]; [done|]. exact Hresp.
Qed.

(** A request that fails, other than by being aborted, leaves the cache as
    it was: the tile is not marked loaded, nothing is stored or emitted,
    the error is logged if it is an [Error], and the tile leaves
    [inflight], so that [_loadTileAsync] requests the tile again. *)
Theorem failed_fetch_can_be_retried {response : Type}
    (utilFetchResponse : response → settled payload)
    (tileId : string) (now : nat) (outcome : settled response)
    (e : error) (s : service) :
  name e ≠ "AbortError" →
  outcome = Rejected e ∨
    (∃ resp, outcome = Fulfilled resp ∧ utilFetchResponse resp = Rejected e) →
  tileId ∉ loaded s →
  let s' := settle utilFetchResponse tileId now outcome s in
  console s' = (if instanceofError e then console s ++ [e] else console s) ∧
  loaded s' = loaded s ∧ images s' = images s ∧ rtree s' = rtree s ∧
  emitted s' = emitted s ∧ redraws s' = redraws s ∧
  inflight s' = delete tileId (inflight s) ∧
  inflight (_loadTileAsync tileId s') !! tileId = Some (nextController s').
Proof.
  intros He Hout Hl. cbv zeta. rewrite (settle_rejected _ _ _ _ e) by done.
  unfold onError. rewrite bool_decide_false by done.
  assert (∀ s0, loaded s0 = loaded s → inflight s0 = inflight s →
            inflight (_loadTileAsync tileId (onFinally tileId s0)) !! tileId
            = Some (nextController (onFinally tileId s0))) as Hretry.
  { intros s0 Hl0 Hi0. rewrite loadTileAsync_lookup. cbn.
    rewrite Hl0, lookup_delete_eq.
    rewrite bool_decide_true, (bool_decide_false (tileId ∈ loaded s)) by done.
    by rewrite (bool_decide_false (is_Some None)) by by intros [? ?]. }
  destruct (instanceofError e); (split_and!; [done..|by apply Hretry]).
Qed.

(** A response without [currentPageItems]: the tile is marked loaded
    before the loop over the items throws, so nothing is stored and no
    event is emitted, the [TypeError] is logged, and the tile is not
    requested again. *)
Theorem response_without_items_marks_loaded {response : Type}
    (utilFetchResponse : response → settled payload)
    (tileId : string) (now : nat) (resp : response) (s : service) :
  utilFetchResponse resp = Fulfilled (Payload None) →
  let s' := settle utilFetchResponse tileId now (Fulfilled resp) s in
  tileId ∈ loaded s' ∧ images s' = images s ∧ rtree s' = rtree s ∧
  emitted s' = emitted s ∧ redraws s' = redraws s ∧
  console s' = console s ++ [Error "TypeError" true] ∧
  inflight s' = delete tileId (inflight s) ∧
  _loadTileAsync tileId s' = s'.
Proof.
  intros Hresp. cbv zeta. unfold settle, andThen. rewrite Hresp.
  cbn. split_and!; [set_solver|done..|].
  unfold _loadTileAsync. cbn. rewrite bool_decide_true by set_solver. done.
Qed.

(** The images of a response, once stored. *)
Lemma images_stored (items : list image) (m : gmap Z image) (id : Z) :
  foldl (λ acc i, <[imageId i := i]> acc) m items !! id =
    match last (filter (λ i, imageId i = id) items) with
    | Some i => Some i
    | None => m !! id
    end.
Proof.
  revert m. induction items as [|i items IH]; intros m; [done|].
  cbn [foldl]. rewrite IH, filter_cons.
  destruct (decide (imageId i = id)) as [Hid|Hid].
  - rewrite last_cons. destruct (last (filter _ items)); [done|].
    by rewrite <- Hid, lookup_insert_eq.
  - destruct (last (filter _ items)); [done|]. by rewrite lookup_insert_ne.
Qed.

(** A response with items: the tile is marked loaded and leaves
    [inflight]; each item can be looked up in [images] by its id, with
    its coordinates and the panorama path the handler sets (of two items
    with one id the later stays); the images of other ids stay as they
    were; the rtree gets one box per item, at the item's coordinates; one
    redraw is requested and one [loadedData] emitted. *)
Theorem fulfilled_fetch_stores_images {response : Type}
    (utilFetchResponse : response → settled payload)
    (tileId : string) (now : nat) (resp : response) (items : list image)
    (s : service) :
  utilFetchResponse resp = Fulfilled (Payload (Some items)) →
  let s' := settle utilFetchResponse tileId now (Fulfilled resp) s in
  tileId ∈ loaded s' ∧ inflight s' = delete tileId (inflight s) ∧
  (∀ i, i ∈ items →
     ∃ j img, j ∈ items ∧ imageId j = imageId i ∧
       images s' !! imageId i = Some img ∧
       imageId img = imageId i ∧ lng img = lng j ∧ lat img = lat j ∧
       imagePath img = Some "https://static.maptoolkit.net/examplepano.jpg" ∧
       is_Some (captured_at img)) ∧
  (∀ id, id ∉ imageId <$> items → images s' !! id = images s !! id) ∧
  (∃ boxes, rtree s' = rtree s ++ boxes ∧
     Forall2 (λ i b, minX b = lng i ∧ minY b = lat i ∧ maxX b = lng i ∧
                     maxY b = lat i ∧ imageId (data b) = imageId i) items boxes) ∧
  emitted s' = emitted s ++ ["loadedData"] ∧ redraws s' = S (redraws s) ∧
  console s' = console s.
Proof.
  intros Hresp. cbv zeta. unfold settle, andThen. rewrite Hresp.
  unfold onData. cbn [currentPageItems]. unfold onFinally, withInflight.
  cbn [loaded inflight images rtree emitted redraws console].
  fold (stamp now).
  split_and!; [set_solver|done| | | |done..].
  - intros i Hi. rewrite images_stored.
    assert (stamp now i ∈ filter (λ x, imageId x = imageId i) (stamp now <$> items)) as Hin.
    { apply list_elem_of_filter. split; [done|]. by apply list_elem_of_fmap_2. }
    destruct (last (filter _ (stamp now <$> items))) as [img|] eqn:Hlast.
    2:{ apply last_None in Hlast. rewrite Hlast in Hin. by apply elem_of_nil in Hin. }
    apply last_Some_elem_of in Hlast.
    apply list_elem_of_filter in Hlast as [Hid Himg].
    apply list_elem_of_fmap in Himg as (j & -> & Hj).
    exists j, (stamp now j). by split_and!.
  - intros id Hid. rewrite images_stored.
    destruct (last (filter _ (stamp now <$> items))) as [img|] eqn:Hlast; [|done].
    apply last_Some_elem_of in Hlast.
    apply list_elem_of_filter in Hlast as [Himg Hin].
    apply list_elem_of_fmap in Hin as (j & -> & Hj).
    destruct Hid. cbn in Himg. subst id. by apply list_elem_of_fmap_2.
  - eexists. split; [done|]. rewrite <- list_fmap_compose.
    apply Forall2_fmap_r, Forall_Forall2_diag, Forall_forall. by intros i Hi.
Qed.

Lemma settle_loaded {response : Type}
    (utilFetchResponse : response → settled payload)
    (tileId : string) (now : nat) (outcome : settled response) (s : service) :
  let s' := settle utilFetchResponse tileId now outcome s in
  inflight s' = delete tileId (inflight s) ∧
  (∀ t, t ∈ loaded s' → t = tileId ∨ t ∈ loaded s) ∧
  nextController s' = nextController s.
Proof.
  cbv zeta. unfold settle.
  destruct (andThen outcome utilFetchResponse) as [d|e].
  - unfold onData. destruct (currentPageItems d); cbn;
      (split_and!; [done|set_solver|done]).
  - unfold onError. repeat case_match; cbn; (split_and!; [done|set_solver|done]).
Qed.

Lemma handle_consistent {response : Type}
    (utilFetchResponse : response → settled payload)
    (s : service) (e : event response) :
  consistent s → consistent (handle utilFetchResponse s e).
Proof.
  intros Hs. destruct e as [v tiles|tileId now outcome|]; cbn [handle].
  - destruct (decide (lastv s = Some v)) as [Heq|Hne].
    { unfold loadTiles. by rewrite bool_decide_true. }
    destruct (loadTiles_inflight v tiles s Hne) as (Hkeep & Honly & Hl).
    intros t Ht. rewrite Hl in Ht.
    destruct (inflight (loadTiles v tiles s) !! t) as [c|] eqn:Hc; [|done].
    destruct (Honly t) as [[c' Hc']|[_ Hnl]]; [by eexists| |done].
    by rewrite Hs in Hc'.
  - destruct (settle_loaded utilFetchResponse tileId now outcome s) as (Hi & Hl & _).
    intros t Ht. rewrite Hi. apply Hl in Ht as [->|Ht].
    + apply lookup_delete_eq.
    + destruct (decide (t = tileId)) as [->|Hne]; [apply lookup_delete_eq|].
      rewrite lookup_delete_ne by done. by apply Hs.
  - intros t Ht. cbn in Ht. set_solver.
Qed.



Lemma loadTileAsync_distinct (t : string) (s : service) :
  distinctControllers s → distinctControllers (_loadTileAsync t s).
Proof.
  intros [Hlt Hinj]. unfold _loadTileAsync. destruct (_ || _); [done|].
  split; cbn [inflight nextController].
  - intros t' c Hc. destruct (decide (t' = t)) as [->|Hne].
    + rewrite lookup_insert_eq in Hc. injection Hc as <-. lia.
    + rewrite lookup_insert_ne in Hc by done. apply Hlt in Hc. lia.
  - intros t1 t2 c H1 H2.
    destruct (decide (t1 = t)) as [->|Hne1], (decide (t2 = t)) as [->|Hne2]; [done|..].
    + rewrite lookup_insert_eq in H1. rewrite lookup_insert_ne in H2 by done.
      injection H1 as <-. apply Hlt in H2. lia.
    + rewrite lookup_insert_eq in H2. rewrite lookup_insert_ne in H1 by done.
      injection H2 as <-. apply Hlt in H1. lia.
    + rewrite lookup_insert_ne in H1, H2 by done. eauto.
Qed.

Lemma issue_requests_distinct (tiles : list string) (s : service) :
  distinctControllers s →
  distinctControllers (foldl (λ acc t, _loadTileAsync t acc) s tiles).
Proof.
  revert s. induction tiles as [|t tiles IH]; intros s Hs; [done|].
  cbn [foldl]. by apply IH, loadTileAsync_distinct.
Qed.

Lemma handle_distinct {response : Type}
    (utilFetchResponse : response → settled payload)
    (s : service) (e : event response) :
  distinctControllers s → distinctControllers (handle utilFetchResponse s e).
Proof.
  intros Hs. destruct e as [v tiles|tileId now outcome|]; cbn [handle].
  - destruct (decide (lastv s = Some v)) as [Heq|Hne].
    { unfold loadTiles. by rewrite bool_decide_true. }
    rewrite loadTiles_changed by done. by apply issue_requests_distinct.
  - destruct (settle_loaded utilFetchResponse tileId now outcome s) as (Hi & _ & Hn).
    destruct Hs as [Hlt Hinj]. split; rewrite Hi.
    + intros t c Hc. apply lookup_delete_Some in Hc as [_ Hc]. rewrite Hn. eauto.
    + intros t1 t2 c H1 H2. apply lookup_delete_Some in H1 as [_ H1].
      apply lookup_delete_Some in H2 as [_ H2]. eauto.
  - split; cbn; intros *; by rewrite lookup_empty.
Qed.

Lemma run_distinct {response : Type}
    (utilFetchResponse : response → settled payload)
    (s : service) (events : list (event response)) :
  distinctControllers s → distinctControllers (run utilFetchResponse s events).
Proof.
  revert s. induction events as [|e events IH]; intros s Hs; [done|].
  cbn [run foldl]. apply IH. by apply handle_distinct.
Qed.

Lemma loadTiles_aborted (v : Z) (tiles : list string) (s : service) :
  lastv s ≠ Some v →
  aborted (loadTiles v tiles s) =
    aborted s ∪
    list_to_set (snd <$> filter (λ kc, kc.1 ∉ tiles) (map_to_list (inflight s))).
Proof.
  intros Hv. rewrite loadTiles_changed by done.
  match goal with |- context [foldl _ ?s0 tiles] => set (s1 := s0) end.
  by destruct (issue_requests tiles s1) as (_ & _ & _ & _ & _ & -> & _).
Qed.

(** In a view that has changed, [loadTiles] aborts exactly the requests
    whose tile the view no longer needs: at any point of a session, a
    request in flight is aborted after the call if and only if it was
    aborted before or its tile is not among the tiles of the view. *)
Theorem loadTiles_aborts_unneeded {response : Type}
    (utilFetchResponse : response → settled payload)
    (events : list (event response)) (v : Z) (tiles : list string)
    (t : string) (c : nat) :
  let s := run utilFetchResponse emptyService events in
  lastv s ≠ Some v → inflight s !! t = Some c →
  c ∈ aborted (loadTiles v tiles s) ↔ c ∈ aborted s ∨ t ∉ tiles.
Proof.
  cbv zeta. intros Hv Hc.
  destruct (run_distinct utilFetchResponse emptyService events) as [_ Hinj].
  { split; cbn; intros *; by rewrite lookup_empty. }
  rewrite loadTiles_aborted by done. rewrite elem_of_union, elem_of_list_to_set.
  split; (intros [Hold|Hnew]; [by left|right]).
  - apply list_elem_of_fmap in Hnew as ([t' c'] & -> & Hin).
    apply list_elem_of_filter in Hin as [Hnot Hin]. cbn in *.
    apply elem_of_map_to_list in Hin. by rewrite (Hinj t t' c' Hc Hin).
  - apply list_elem_of_fmap. exists (t, c). split; [done|].
    apply list_elem_of_filter. split; [done|]. by apply elem_of_map_to_list.
Qed.

(** *** On a service that loads two tiles *)

Lemma consistent_empty : consistent emptyService.
Proof. intros t Ht. cbn in Ht. by apply not_elem_of_empty in Ht. Qed.

Lemma loadTiles_covers_view_witness :
  let s' := loadTiles 1 ["t1"; "t2"] emptyService in
  inflight s' = {[ "t1" := 0; "t2" := 1 ]} ∧
  ∀ t, t ∈ ["t1"; "t2"] → t ∈ loaded s' ∨ is_Some (inflight s' !! t).
Proof.
  cbv zeta. split; [reflexivity|].
  apply (loadTiles_covers_view 1 ["t1"; "t2"] emptyService). done.
Defined.

Lemma failed_fetch_can_be_retried_witness :
  let s := loadTiles 1 ["t1"] emptyService in
  let e := Error "TypeError" true in
  let s' := settle (λ _ : unit, Fulfilled (Payload (Some []))) "t1" 0 (Rejected e) s in
  console s' = [e] ∧ inflight s' = ∅ ∧
  inflight (_loadTileAsync "t1" s') !! "t1" = Some 1.
Proof.
  cbv zeta.
  destruct (failed_fetch_can_be_retried
              (λ _ : unit, Fulfilled (Payload (Some []))) "t1" 0
              (Rejected (Error "TypeError" true)) (Error "TypeError" true)
              (loadTiles 1 ["t1"] emptyService))
    as (Hc & _ & _ & _ & _ & _ & Hi & Hretry).
  - done.
  - by left.
  - apply not_elem_of_empty.
  - split_and!; [exact Hc|by rewrite Hi|exact Hretry].
Defined.

Lemma response_without_items_marks_loaded_witness :
  let s := loadTiles 1 ["t1"] emptyService in
  let s' := settle (λ _ : unit, Fulfilled (Payload None)) "t1" 0 (Fulfilled ()) s in
  "t1" ∈ loaded s' ∧ images s' = ∅ ∧ emitted s' = [] ∧
  _loadTileAsync "t1" s' = s'.
Proof.
  cbv zeta.
  destruct (response_without_items_marks_loaded
              (λ _ : unit, Fulfilled (Payload None)) "t1" 0 ()
              (loadTiles 1 ["t1"] emptyService))
    as (Hl & Hi & _ & He & _ & _ & _ & Hagain); [reflexivity|].
  split_and!; [exact Hl|exact Hi|exact He|exact Hagain].
Defined.

Lemma fulfilled_fetch_stores_images_witness :
  let s := loadTiles 1 ["t1"] emptyService in
  let photo := Image 7 10 20 None None in
  let s' := settle (λ _ : unit, Fulfilled (Payload (Some [photo]))) "t1" 0
                   (Fulfilled ()) s in
  "t1" ∈ loaded s' ∧ inflight s' = ∅ ∧ emitted s' = ["loadedData"] ∧
  imagePath <$> images s' !! 7%Z =
    Some (Some "https://static.maptoolkit.net/examplepano.jpg").
Proof.
  cbv zeta.
  destruct (fulfilled_fetch_stores_images
              (λ _ : unit, Fulfilled (Payload (Some [Image 7 10 20 None None])))
              "t1" 0 () [Image 7 10 20 None None]
              (loadTiles 1 ["t1"] emptyService))
    as (Hl & Hi & _ & _ & _ & He & _); [reflexivity|].
  split_and!; [exact Hl|by rewrite Hi|exact He|reflexivity].
Defined.



(** With [t1] and [t2] in flight, a view of [t2] alone aborts the request
    for [t1], whose controller is [0]. *)
Lemma loadTiles_aborts_unneeded_witness :
  let s := run (λ _ : unit, Fulfilled (Payload (Some []))) emptyService
               [LoadTiles 1 ["t1"; "t2"]] in
  0 ∈ aborted (loadTiles 2 ["t2"] s) ↔ 0 ∈ aborted s ∨ "t1" ∉ ["t2"].
Proof.
  cbv zeta.
  apply (loadTiles_aborts_unneeded (λ _ : unit, Fulfilled (Payload (Some [])))
           [LoadTiles 1 ["t1"; "t2"]] 2 ["t2"] "t1" 0).
  - done.
  - reflexivity.
Defined.

End StreetsSessionFacts.

(** ** The selection of an extraction *)

Module ExtractSelectionFacts.
Import Extract ExtractSelection.

Section facts.
Context {Entity Extent Action : Type}.
Variable hasEntity : string → option Entity.
Variable geometry : string → string.
Variable entityType : Entity → string.
Variable hasInterestingTags : Entity → bool.
Variable parentWaysLength : Entity → nat.
Variable presetGeometry : Entity → list string.
Variable entityExtent : Entity → Extent.
Variable extend : Extent → Extent → Extent.
Variable areaIsTruthy : Extent → bool.
Variable percentContainedInMapBelow80 : Extent → bool.
Variable hasHiddenConnections : string → bool.
Variable actionExtract : string → Action.

Local Abbreviation actionFor :=
  (actionFor hasEntity geometry entityType hasInterestingTags parentWaysLength
             presetGeometry entityExtent extend actionExtract).
Local Abbreviation collect :=
  (collect hasEntity geometry entityType hasInterestingTags parentWaysLength
           presetGeometry entityExtent extend actionExtract).
Local Abbreviation _actions :=
  (_actions hasEntity geometry entityType hasInterestingTags parentWaysLength
            presetGeometry entityExtent extend actionExtract).
Local Abbreviation _extent :=
  (_extent hasEntity geometry entityType hasInterestingTags parentWaysLength
           presetGeometry entityExtent extend actionExtract).
Local Abbreviation available :=
  (available hasEntity geometry entityType hasInterestingTags parentWaysLength
             presetGeometry entityExtent extend actionExtract).
Local Abbreviation disabled :=
  (disabled hasEntity geometry entityType hasInterestingTags parentWaysLength
            presetGeometry entityExtent extend areaIsTruthy
            percentContainedInMapBelow80 hasHiddenConnections actionExtract).
Local Abbreviation extractable :=
  (extractable hasEntity geometry entityType hasInterestingTags parentWaysLength
               presetGeometry).

(** The callback builds an action exactly for an extractable entity, and
    then, and only then, it sets [_extent]. *)
Lemma actionFor_extractable (ext : option Extent) (entityID : string) :
  (actionFor ext entityID).1 =
    (if extractable entityID then Some (actionExtract entityID) else None) ∧
  (if extractable entityID then is_Some (actionFor ext entityID).2
   else (actionFor ext entityID).2 = ext).
Proof.
  unfold Extract.actionFor, ExtractSelection.extractable.
  destruct (hasEntity entityID) as [entity|]; [|done].
  destruct (hasInterestingTags entity); [|done]. cbn [negb andb].
  destruct (bool_decide (entityType entity = "node") && (parentWaysLength entity =? 0));
    [done|]. cbn [negb andb].
  destruct ((bool_decide (geometry entityID = "area") ||
             bool_decide (geometry entityID = "line")) &&
            negb (bool_decide ("point" ∈ presetGeometry entity))); [done|].
  cbn. eauto.
Qed.

Lemma collect_extractable (acc : list Action * option Extent) (entityID : string) :
  (collect acc entityID).1 =
    acc.1 ++ (if extractable entityID then [actionExtract entityID] else []) ∧
  (if extractable entityID then is_Some (collect acc entityID).2
   else (collect acc entityID).2 = acc.2).
Proof.
  unfold Extract.collect.
  destruct (actionFor_extractable acc.2 entityID) as [Ha He].
  destruct (actionFor acc.2 entityID) as [a ext]. cbn [fst snd] in *. subst a.
  destruct (extractable entityID); cbn [fst snd]; [done|].
  by rewrite app_nil_r.
Qed.

Lemma build_extractable (ids : list string) (acc : list Action * option Extent) :
  (foldl collect acc ids).1 =
    acc.1 ++ (actionExtract <$> filter (λ i, extractable i) ids) ∧
  (is_Some (foldl collect acc ids).2 ↔
   is_Some acc.2 ∨ ∃ i, i ∈ ids ∧ extractable i = true).
Proof.
  revert acc. induction ids as [|i ids IH]; intros acc.
  { cbn [foldl]. rewrite filter_nil, app_nil_r. split; [done|].
    split; [by left|]. intros [?|(i & Hi & _)]; [done|]. by apply elem_of_nil in Hi. }
  cbn [foldl]. destruct (IH (collect acc i)) as [Ha He].
  destruct (collect_extractable acc i) as [Hca Hce].
  rewrite Ha, He, Hca, filter_cons.
  destruct (extractable i) eqn:Hi.
  - rewrite decide_True by done. rewrite fmap_cons, <- app_assoc.
    split; [done|]. split; [|by left].
    intros _. right. exists i. split; [apply list_elem_of_here|done].
  - rewrite decide_False by (cbn; tauto). rewrite app_nil_r, Hce.
    split; [done|]. split; (intros [?|(j & Hj & Hjx)]; [by left|right]).
    + exists j. split; [by apply list_elem_of_further|done].
    + apply elem_of_cons in Hj as [->|Hj]; [congruence|eauto].
Qed.

(** [operationExtract] keeps the selected ids that are extractable: it
    builds one action for each of them, in the order of the selection,
    and none for the others; and [_extent] is set exactly when there is
    such an id. *)
Theorem extract_builds_per_entity (selectedIDs : list string) :
  _actions selectedIDs =
    actionExtract <$> filter (λ i, extractable i) selectedIDs ∧
  (is_Some (_extent selectedIDs) ↔
   ∃ i, i ∈ selectedIDs ∧ extractable i = true).
Proof.
  unfold Extract._actions, Extract._extent, Extract.build.
  destruct (build_extractable selectedIDs ([], None)) as [Ha He].
  split; [done|]. rewrite He. cbn [snd].
  split; [|by right]. intros [[? ?]|?]; done.
Qed.

Lemma filter_length_all (ids : list string) :
  length (filter (λ i, extractable i) ids) = length ids ↔
  Forall (λ i, extractable i = true) ids.
Proof.
  induction ids as [|i ids IH]; [by rewrite filter_nil|].
  rewrite filter_cons, Forall_cons. pose proof (length_filter (λ i, extractable i) ids).
  destruct (extractable i) eqn:Hi.
  - rewrite decide_True by done. cbn [length]. rewrite <- IH. split; [|lia].
    intros ?. split; [done|lia].
  - rewrite decide_False by (cbn; tauto). cbn [length]. split; [lia|].
    by intros [? _].
Qed.

(** [available()] is truthy exactly when something is selected and every
    selected id is extractable; it is then [true]. *)
Theorem extract_available_iff (selectedIDs : list string) :
  (truthy (available selectedIDs) = true ↔
   selectedIDs ≠ [] ∧ Forall (λ i, extractable i = true) selectedIDs) ∧
  (truthy (available selectedIDs) = true → available selectedIDs = JBool true).
Proof.
  unfold Extract.available, Extract._actions, Extract.build.
  destruct (build_extractable selectedIDs ([], None)) as [Ha _].
  cbn [fst app] in Ha. rewrite Ha, length_fmap.
  rewrite <- filter_length_all.
  pose proof (length_filter (λ i, extractable i) selectedIDs) as Hle.
  destruct (length (filter (λ i, extractable i) selectedIDs)) as [|n] eqn:Hn.
  - cbn. split; [|done]. split; [done|]. intros [Hne Hall].
    destruct selectedIDs; [done|]. cbn in Hall. lia.
  - cbn [Nat.eqb truthy]. split.
    + rewrite Nat.eqb_eq. split.
      * intros Heq. split; [|done]. intros ->. cbn in Heq. lia.
      * by intros [_ ?].
    + by intros ->.
Qed.

End facts.

End ExtractSelectionFacts.

(** ** The data loader *)

Module DataLoaderFacts.
Import Entity DataLoader.

Section facts.
Context {Json : Type}.
Variable truthy : Json → bool.
Variable asset : string → string.

Local Abbreviation get := (get truthy asset).
Local Abbreviation settle := (settle truthy).

(** No file id of [fileMap] names a property of [Object.prototype]. *)
Lemma fileMap_ordinary (fileID file : string) :
  fileMap !! fileID = Some file → fileID ∉ objectPrototypeKeys.
Proof.
  intros Hf Hin. unfold objectPrototypeKeys in Hin.
  repeat (apply elem_of_cons in Hin as [->|Hin]; [by vm_compute in Hf|]).
  by apply elem_of_nil in Hin.
Qed.

(** When the handlers fulfil the promise. *)
Lemma onResponse_data (resp : response) (data : Json) :
  onResponse resp = Fulfilled (Some data) ↔
  json resp = Some (Fulfilled data) ∧ (ok resp = true ∨ status resp = 0%Z) ∧
  status resp ≠ 204%Z ∧ status resp ≠ 205%Z.
Proof.
  unfold onResponse. destruct (json resp) as [[d|r]|]; cycle 2.
  { split; [done|]. by intros [? _]. }
  all: destruct (ok resp); cbn [negb andb];
    destruct (status resp =? 0)%Z eqn:H0; cbn [negb];
    destruct (status resp =? 204)%Z eqn:H204;
    destruct (status resp =? 205)%Z eqn:H205; cbn [orb];
    rewrite ?Z.eqb_eq, ?Z.eqb_neq in *;
    (split; [intros [=]|intros ([=] & Hok & ? & ?)]; subst;
     try done; try (split_and!; auto; done); try (destruct Hok; done)).
Qed.

(** A fetch is shared: once [get] has returned the promise of a fetch, be
    it one it started or one it found in flight, [get] for the same file
    returns that promise again and starts no other fetch. *)
Theorem get_shares_fetch (fileID : string) (st st1 : system) (p : nat) :
  get fileID st = (Promise p, st1) →
  get fileID st1 = (Promise p, st1) ∧
  (st1 = st ∨ ∃ url, fetched st1 = fetched st ++ [url] ∧ _inflight st !! url = None).
Proof.
  unfold DataLoader.get.
  destruct (fileMap !! fileID) as [file|] eqn:Hfile.
  2:{ intros H. repeat case_match; simplify_eq. }
  set (url := asset file).
  destruct (_cachedData st !! fileID) as [data|] eqn:Hc.
  - destruct (truthy data) eqn:Ht; [done|].
    case_bool_decide as Hurl; [done|].
    destruct (_inflight st !! url) as [prom|] eqn:Hi.
    + intros [= <- <-]. rewrite Hc, Ht, Hi. split; [done|by left].
    + case_bool_decide as Hproto; [done|]. intros [= <- <-]. cbn.
      rewrite Hc, Ht, lookup_insert_eq. split; [done|]. right. by exists url.
  - case_bool_decide as Hid; [done|].
    case_bool_decide as Hurl; [done|].
    destruct (_inflight st !! url) as [prom|] eqn:Hi.
    + intros [= <- <-]. rewrite Hc, Hi. split; [done|by left].
    + case_bool_decide as Hproto; [done|]. intros [= <- <-]. cbn.
      rewrite Hc, lookup_insert_eq. split; [done|]. right. by exists url.
Qed.

(** A load that succeeds is cached: when the response is usable (it is
    [ok] or has status 0, is neither 204 nor 205, and its [json()] gives a
    truthy value), the promise is fulfilled with the data, the url leaves
    [_inflight], and from then on [get] resolves with the data at once,
    without fetching. *)
Theorem loaded_file_is_cached (fileID file : string) (resp : response)
    (data : Json) (st : system) :
  fileMap !! fileID = Some file →
  json resp = Some (Fulfilled data) → ok resp = true ∨ status resp = 0%Z →
  status resp ≠ 204%Z → status resp ≠ 205%Z → truthy data = true →
  let st' := (settle fileID (asset file) (Fulfilled resp) st).2 in
  (settle fileID (asset file) (Fulfilled resp) st).1 = Fulfilled data ∧
  _inflight st' !! asset file = None ∧
  get fileID st' = (Resolved data, st') ∧
  fetched st' = fetched st.
Proof.
  intros Hfile Hjson Hok H204 H205 Ht. cbv zeta. unfold DataLoader.settle.
  assert (onResponse resp = Fulfilled (Some data)) as ->.
  { by apply onResponse_data. }
  rewrite Ht. cbn [fst snd _inflight fetched].
  split_and!; [done|apply lookup_delete_eq| |done].
  unfold DataLoader.get. cbn [_cachedData]. by rewrite lookup_insert_eq, Ht.
Qed.

(** A load that fails is not cached and can be tried again: however the
    promise comes to be rejected, [_cachedData] stays as it was and the
    url leaves [_inflight], so that the next [get] for the file calls
    [fetch] again and returns a new promise. *)
Theorem failed_load_is_retried (fileID file : string) (outcome : settled response)
    (r : reason) (st : system) :
  fileMap !! fileID = Some file →
  asset file ≠ EmptyString → asset file ∉ objectPrototypeKeys →
  _cachedData st !! fileID = None →
  (settle fileID (asset file) outcome st).1 = Rejected r →
  let st' := (settle fileID (asset file) outcome st).2 in
  _cachedData st' = _cachedData st ∧ _inflight st' !! asset file = None ∧
  (get fileID st').1 = Promise (nextPromise st) ∧
  fetched (get fileID st').2 = fetched st ++ [asset file].
Proof.
  intros Hfile Hurl Hproto Hc Hrej. cbv zeta.
  assert ((settle fileID (asset file) outcome st).2 =
          System (_cachedData st) (delete (asset file) (_inflight st))
                 (nextPromise st) (fetched st)) as ->.
  { unfold DataLoader.settle in *.
    destruct (match outcome with Fulfilled resp => onResponse resp | Rejected r0 => Rejected r0 end)
      as [[data|]|r0]; [|done..].
    by destruct (truthy data). }
  cbn [_cachedData _inflight]. split_and!; [done|apply lookup_delete_eq|..];
    unfold DataLoader.get; cbn [_cachedData _inflight nextPromise fetched];
    rewrite Hc, Hfile, lookup_delete_eq;
    rewrite (bool_decide_false (fileID ∈ objectPrototypeKeys))
      by (by eapply fileMap_ordinary);
    by rewrite !bool_decide_false by done.
Qed.

(** What makes a load succeed: the promise is fulfilled with [data] if and
    only if the response is usable and [data], what its [json()] gives, is
    truthy.  A response that is not [ok] (unless its status is 0), one
    without [json], one with status 204 or 205, a [json()] that fails and
    data that is falsy all reject the promise. *)
Theorem load_succeeds_iff (fileID url : string) (resp : response)
    (data : Json) (st : system) :
  (settle fileID url (Fulfilled resp) st).1 = Fulfilled data ↔
  json resp = Some (Fulfilled data) ∧ (ok resp = true ∨ status resp = 0%Z) ∧
  status resp ≠ 204%Z ∧ status resp ≠ 205%Z ∧ truthy data = true.
Proof.
  unfold DataLoader.settle. split.
  - destruct (onResponse resp) as [[d|]|r] eqn:Hr; [|done..].
    destruct (truthy d) eqn:Ht; [|done]. intros [= ->].
    apply onResponse_data in Hr as (? & ? & ? & ?). by split_and!.
  - intros (Hj & Hok & H204 & H205 & Ht).
    assert (onResponse resp = Fulfilled (Some data)) as ->.
    { by apply onResponse_data. }
    by rewrite Ht.
Qed.

End facts.

(** *** On a system with nothing loaded, assets served as they are
    named *)

Lemma get_shares_fetch_witness :
  let truthy := λ _ : bool, true in
  let asset := λ file : string, file in
  let first := DataLoader.get truthy asset "imagery" idle in
  first.1 = Promise 0 ∧ fetched first.2 = ["data/imagery.min.json"] ∧
  DataLoader.get truthy asset "imagery" first.2 = (Promise 0, first.2).
Proof.
  cbv zeta. split_and!; [reflexivity|reflexivity|].
  apply (get_shares_fetch (λ _ : bool, true) (λ file : string, file) "imagery"
           idle
           (DataLoader.get (λ _ : bool, true) (λ file, file) "imagery" idle).2 0).
  reflexivity.
Defined.

Lemma loaded_file_is_cached_witness :
  let truthy := λ data : bool, data in
  let asset := λ file : string, file in
  let st := (DataLoader.get truthy asset "imagery" idle).2 in
  let resp := Response true 200 "OK" (Some (Fulfilled true)) in
  let st' := (DataLoader.settle truthy "imagery" "data/imagery.min.json"
                (Fulfilled resp) st).2 in
  DataLoader.get truthy asset "imagery" st' = (Resolved true, st') ∧
  fetched st' = ["data/imagery.min.json"].
Proof.
  cbv zeta.
  destruct (loaded_file_is_cached (λ data : bool, data) (λ file : string, file)
              "imagery" "data/imagery.min.json"
              (Response true 200 "OK" (Some (Fulfilled true))) true
              (DataLoader.get (λ data : bool, data) (λ file, file) "imagery" idle).2)
    as (_ & _ & Hget & Hf); [reflexivity|reflexivity|by left|done|done|reflexivity|].
  split; [exact Hget|by rewrite Hf].
Defined.

(** A 404, and the fetch made again. *)
Lemma failed_load_is_retried_witness :
  let truthy := λ data : bool, data in
  let asset := λ file : string, file in
  let st := (DataLoader.get truthy asset "imagery" idle).2 in
  let resp := Response false 404 "Not Found" (Some (Fulfilled true)) in
  let failed := DataLoader.settle truthy "imagery" "data/imagery.min.json"
                  (Fulfilled resp) st in
  failed.1 = Rejected (ErrorOf "404 Not Found") ∧
  (DataLoader.get truthy asset "imagery" failed.2).1 = Promise 1 ∧
  fetched (DataLoader.get truthy asset "imagery" failed.2).2
    = ["data/imagery.min.json"; "data/imagery.min.json"].
Proof.
  cbv zeta. split; [reflexivity|].
  destruct (failed_load_is_retried (λ data : bool, data) (λ file : string, file)
              "imagery" "data/imagery.min.json"
              (Fulfilled (Response false 404 "Not Found" (Some (Fulfilled true))))
              (ErrorOf "404 Not Found")
              (DataLoader.get (λ data : bool, data) (λ file, file) "imagery" idle).2)
    as (_ & _ & Hget & Hf).
  - reflexivity.
  - done.
  - intros Hin. unfold objectPrototypeKeys in Hin.
    by repeat (apply elem_of_cons in Hin as [Hin|Hin]; [done|]);
      apply elem_of_nil in Hin.
  - reflexivity.
  - reflexivity.
  - split; [exact Hget|exact Hf].
Defined.

End DataLoaderFacts.

(** ** Base layer and overlays *)

Module BackgroundFacts.
Import Background.

Section overlays.
Context {Source : Type} `{EqDecision Source}.

Local Abbreviation background := (@background Source).

(** [toggleOverlayLayer] on a list without repetition. *)
Lemma toggle_elem (d x : Source) (layers : list Source) :
  NoDup layers →
  let layers' := match list_find (λ layer, layer = d) layers with
                 | Some (i, _) => delete i layers
                 | None => layers ++ [d]
                 end in
  NoDup layers' ∧
  (x ∈ layers' ↔ if decide (x = d) then d ∉ layers else x ∈ layers).
Proof.
  intros Hnd. cbv zeta.
  destruct (list_find (λ layer, layer = d) layers) as [[i y]|] eqn:Hfind.
  - apply list_find_Some in Hfind as (Hi & -> & _).
    rewrite delete_take_drop.
    pose proof (take_drop_middle layers i d Hi) as Hsplit.
    rewrite <- Hsplit in Hnd.
    apply NoDup_app in Hnd as (Hn1 & Hdisj & Hn2).
    apply NoDup_cons in Hn2 as [Hd2 Hn2].
    split.
    + apply NoDup_app. split_and!; [done| |done].
      intros z Hz Hz'. apply (Hdisj z Hz). by apply list_elem_of_further.
    + assert (d ∈ layers) as Hin by (by eapply list_elem_of_lookup_2).
      rewrite elem_of_app. destruct (decide (x = d)) as [->|Hne].
      * split; [|done]. intros [Hx|Hx]; [|done].
        destruct (Hdisj d Hx). apply list_elem_of_here.
      * trans (x ∈ take i layers ++ d :: drop (S i) layers); [|by rewrite Hsplit].
        rewrite elem_of_app, elem_of_cons. tauto.
  - apply list_find_None in Hfind. rewrite Forall_forall in Hfind.
    assert (d ∉ layers) as Hnin by (intros Hin; by apply (Hfind d)).
    split.
    + apply NoDup_app. split_and!; [done| |apply NoDup_singleton].
      intros z Hz Hz'. apply list_elem_of_singleton in Hz'. by subst.
    + rewrite elem_of_app, list_elem_of_singleton.
      destruct (decide (x = d)) as [->|Hne]; tauto.
Qed.

Lemma toggled_NoDup (ds : list Source) (b : background) :
  NoDup (_overlayLayers b) → NoDup (_overlayLayers (toggled ds b)).
Proof.
  revert b. induction ds as [|d ds IH]; intros b Hb; [done|].
  cbn [toggled foldl]. apply IH. cbn [toggleOverlayLayer _overlayLayers].
  by apply (toggle_elem d d).
Qed.

(** No overlay is ever listed twice, so that toggling turns an overlay
    that is on off and one that is off on, and leaves the others: after
    any run of toggles, [_overlayLayers] has no repetition, and one more
    toggle of [d] makes [d] a member exactly if it was none and keeps
    every other member. *)
Theorem overlays_listed_once (ds : list Source) (b : background) (d x : Source) :
  NoDup (_overlayLayers b) →
  let b1 := toggled ds b in
  NoDup (_overlayLayers b1) ∧
  (x ∈ _overlayLayers (toggleOverlayLayer d b1) ↔
   if decide (x = d) then d ∉ _overlayLayers b1 else x ∈ _overlayLayers b1) ∧
  changes b1 = changes b + length ds.
Proof.
  intros Hb. cbv zeta. pose proof (toggled_NoDup ds b Hb) as Hnd.
  split_and!; [done|by apply toggle_elem|].
  clear. revert b. induction ds as [|d ds IH]; intros b; [cbn; lia|].
  cbn [toggled foldl length]. fold (toggled ds (toggleOverlayLayer d b)).
  rewrite IH. cbn. lia.
Qed.


End overlays.

Section baseLayer.
Context {Source Regex : Type}.
Variable sourceId : Source → option string.
Variable template : Source → string.
Variable test : Regex → string → bool.
Variable googleTiles : string → bool.

Local Abbreviation background := (@background Source).
Local Abbreviation baseLayerSource := (baseLayerSource sourceId template test googleTiles).
Local Abbreviation findSource := (findSource sourceId).
Local Abbreviation scan := (scan test).
Local Abbreviation blocked := (blocked test googleTiles).

(** The loop stops at the first expression that matches. *)
Lemma scan_spec (templ : string) (blocklists : list Regex) (fail : bool) (tested : nat) :
  (scan templ fail tested blocklists).1 =
    (if existsb (λ regex, test regex templ) blocklists then true
     else match blocklists with [] => fail | _ => false end) ∧
  ((scan templ fail tested blocklists).2 = 0 ↔ tested = 0 ∧ blocklists = []).
Proof.
  revert fail tested. induction blocklists as [|regex rest IH]; intros fail tested.
  { cbn. split; [done|]. split; [done|by intros [? _]]. }
  cbn [Background.scan existsb]. destruct (test regex templ); cbn [orb fst snd].
  { split; [done|]. split; [done|by intros [_ ?]]. }
  destruct (IH false (S tested)) as [Hf Ht]. rewrite Hf. split.
  - by destruct (existsb _ rest), rest.
  - rewrite Ht. split; [by intros [? _]|by intros [_ ?]].
Qed.

(** A blocked template is never installed as the base layer: with a
    connection, [baseLayerSource(d)] makes [d] the source exactly when
    its template matches no expression of the blocklists (or, without
    blocklists, not the expression of line 771), and makes the source
    found under ['none'] the source otherwise; without a connection it
    changes nothing. *)
Theorem blocked_source_not_installed (blocklists : list Regex) (d : Source)
    (b : background) :
  _source (baseLayerSource (Some blocklists) d b) =
    (if blocked blocklists (template d) then findSource "none" b else Some d) ∧
  changes (baseLayerSource (Some blocklists) d b) = S (changes b) ∧
  _overlayLayers (baseLayerSource (Some blocklists) d b) = _overlayLayers b ∧
  baseLayerSource None d b = b.
Proof.
  unfold Background.baseLayerSource, Background.blocked.
  destruct (scan_spec (template d) blocklists false 0) as [Hf Ht].
  destruct (scan (template d) false 0 blocklists) as [fail tested].
  cbn [fst snd] in *. subst fail.
  split_and!; [|done..]. cbn [_source].
  destruct blocklists as [|regex rest].
  - assert (tested = 0) as -> by (by apply Ht). done.
  - destruct (tested =? 0) eqn:Hz.
    { apply Nat.eqb_eq in Hz. apply Ht in Hz as [_ ?]. done. }
    by destruct (existsb _ (regex :: rest)).
Qed.

End baseLayer.


(** *** On overlays known by number *)

Lemma overlays_listed_once_witness :
  let b := Background (None : option nat) [] None 0 in
  _overlayLayers (toggled [1; 2; 1; 3] b) = [2; 3] ∧
  NoDup (_overlayLayers (toggled [1; 2; 1; 3] b)).
Proof.
  cbv zeta. split; [reflexivity|].
  apply (overlays_listed_once [1; 2; 1; 3] (Background None [] None 0) 1 1).
  apply NoDup_nil_2.
Defined.


End BackgroundFacts.
